(** * human-cursor: the trajectory pipeline

    A shallow embedding of the trajectory core of the repository
    ([bezier-calculator.ts], [tweening.ts], [human-curve-generator.ts],
    [calculate-and-randomize.ts]) and of the path helpers of [spoof.ts],
    with the properties its specification states about it.

    A TypeScript [number] is an IEEE 754 binary64 value; it is modelled by
    Rocq's primitive [float], whose operations are the same correctly
    rounded binary64 operations.  [Math.random()] is an explicit stream of
    draws; [Math.pow], [Math.log], [Math.cos] and [Math.sin], which
    ECMAScript leaves implementation-approximated, are parameters, and so
    is the reading of the clock, [Date.now()]. *)

From Stdlib Require Import String ZArith List Bool Lia Floats.
Import ListNotations.

Set Warnings "-inexact-float".
Local Open Scope Z_scope.
Local Open Scope float_scope.

(** ** JavaScript numbers *)

Module Number.

(** The exact value of a finite number is [m * 2^e] for the signed
    mantissa [m] returned here. *)
Definition signed (s : bool) (m : positive) : Z :=
  if s then Z.neg m else Z.pos m.

(** [floorZ x]: the largest integer below or equal to a finite [x]
    ([Z.shiftl] by a negative amount is the floor division by a power
    of two). *)
Definition floorZ (x : float) : option Z :=
  match Prim2SF x with
  | S754_zero _ => Some 0%Z
  | S754_finite s m e => Some (Z.shiftl (signed s m) e)
  | _ => None
  end.

(** [ceilZ x]: the least integer above or equal to a finite [x]. *)
Definition ceilZ (x : float) : option Z :=
  match Prim2SF x with
  | S754_zero _ => Some 0%Z
  | S754_finite s m e => Some (- Z.shiftl (- signed s m) e)%Z
  | _ => None
  end.

(** [toInteger x] is [Some z] exactly when [x] is the integer [z]:
    [Number.isInteger(x)] with the integer it denotes. *)
Definition toInteger (x : float) : option Z :=
  match floorZ x, ceilZ x with
  | Some lo, Some hi => if (lo =? hi)%Z then Some lo else None
  | _, _ => None
  end.

Definition isInteger (x : float) : bool :=
  match toInteger x with Some _ => true | None => false end.

(** The number that holds the integer [z] (rounded to nearest even when
    [z] needs more than 53 bits). *)
Definition of_Z (z : Z) : float :=
  SF2Prim (binary_normalize prec emax z 0 false).

Definition of_nat (n : nat) : float := of_Z (Z.of_nat n).

End Number.

Module Math.

(** [Math.floor]: numbers with a non-negative exponent are integers
    already; NaN, the infinities and the zeros are returned as they
    are. *)
Definition floor (x : float) : float :=
  match Prim2SF x with
  | S754_finite s m e =>
      if (0 <=? e)%Z then x
      else Number.of_Z (Z.shiftl (Number.signed s m) e)
  | _ => x
  end.

(** [Math.max(a, b)] and [Math.min(a, b)]: NaN when an argument is NaN,
    and [+0] counts as larger than [-0]. *)
Definition max (a b : float) : float :=
  if is_nan a || is_nan b then nan
  else if a <? b then b
  else if b <? a then a
  else if get_sign a then b else a.

Definition min (a b : float) : float :=
  if is_nan a || is_nan b then nan
  else if a <? b then a
  else if b <? a then b
  else if get_sign a then a else b.

Definition sqrt (x : float) : float := PrimFloat.sqrt x.

(** [Math.round]: the integer nearest to [x], the larger one of two
    that are equally near: the floor of [x + 1/2], taken exactly.
    Numbers with a non-negative exponent are integers already; a
    negative number that rounds to zero gives [-0]; NaN, the infinities
    and the zeros are returned as they are. *)
Definition round (x : float) : float :=
  match Prim2SF x with
  | S754_finite s m e =>
      if (0 <=? e)%Z then x
      else
        let z := Z.shiftl (2 * Number.signed s m + 2 ^ (- e)) (e - 1) in
        if (z =? 0)%Z && s then neg_zero else Number.of_Z z
  | _ => x
  end.

End Math.


(** ** Exceptions and results *)

Inductive exn :=
| Error (msg : string)
| RangeError (msg : string)
| TypeError (msg : string).

Inductive result (A : Type) :=
| Ok (a : A)
| Throw (e : exn).
Arguments Ok {A} a.
Arguments Throw {A} e.

Definition bindR {A B} (r : result A) (k : A -> result B) : result B :=
  match r with
  | Ok a => k a
  | Throw e => Throw e
  end.

Fixpoint mapR {A B} (f : A -> result B) (l : list A) : result (list B) :=
  match l with
  | [] => Ok []
  | a :: l' =>
      bindR (f a) (fun b => bindR (mapR f l') (fun bs => Ok (b :: bs)))
  end.

(** ** Arrays and counting loops *)

Module Array.

(** The largest length of a JavaScript array, [2^32 - 1]: the push that
    would exceed it throws a [RangeError]. *)
Definition MAX_LENGTH : Z := 4294967295.

(** [a[i]] for a number [i]: the element when [i] is an integer index of
    the array ([-0] is index 0), [undefined] ([None]) otherwise. *)
Definition get {A} (a : list A) (i : float) : option A :=
  match Number.toInteger i with
  | Some z => if (z <? 0)%Z then None else nth_error a (Z.to_nat z)
  | None => None
  end.

(** How often [for (let i = 0; i < n; i++)] runs its body: the count of
    integers [i >= 0] below [n]; [None] when there is no end
    ([n = Infinity]).  The guard is false throughout for NaN. *)
Definition trips (n : float) : option Z :=
  match Prim2SF n with
  | S754_infinity false => None
  | S754_finite false _ _ =>
      match Number.ceilZ n with Some k => Some k | None => Some 0%Z end
  | _ => Some 0%Z
  end.

(** The indices [0, 1, ..., ] of a loop [for (let i = 0; i < n; i++)]
    whose body pushes one element per round onto an array that starts
    empty. *)
Definition pushes (n : float) : result (list nat) :=
  match trips n with
  | Some k =>
      if (k <=? MAX_LENGTH)%Z then Ok (seq 0 (Z.to_nat k))
      else Throw (RangeError "Invalid array length")
  | None => Throw (RangeError "Invalid array length")
  end.

End Array.

(** ** math.ts: vectors *)

Module Vector.
Record t := mk { x : float; y : float }.
End Vector.
Abbreviation Vector := Vector.t.

(** [{ ...p }]: a fresh object with the coordinates of [p].  Spreading
    [undefined] gives an object without coordinates; reading them gives
    [undefined], which no numeric test accepts: the model writes NaN. *)
Definition spread (p : option Vector) : Vector :=
  match p with
  | Some v => Vector.mk (Vector.x v) (Vector.y v)
  | None => Vector.mk nan nan
  end.

Definition TweeningFunction := float -> float.

(** A computation that draws from [Math.random()]: the cursor into the
    stream of draws goes in and comes out; an exception leaves the cursor
    where the draws before it put it. *)
Definition Cmd (A : Type) : Type := nat -> result A * nat.

Definition ret {A} (a : A) : Cmd A := fun c => (Ok a, c).
Definition throw {A} (e : exn) : Cmd A := fun c => (Throw e, c).
Definition bind {A B} (m : Cmd A) (k : A -> Cmd B) : Cmd B :=
  fun c => match m c with
           | (Ok a, c') => k a c'
           | (Throw e, c') => (Throw e, c')
           end.
Definition lift {A} (r : result A) : Cmd A := fun c => (r, c).

Notation "x <- m ;; k" := (bind m (fun x => k))
  (at level 61, m at next level, right associativity).

Fixpoint mapC {A B} (f : A -> Cmd B) (l : list A) : Cmd (list B) :=
  match l with
  | [] => ret []
  | a :: l' => b <- f a ;; bs <- mapC f l' ;; ret (b :: bs)
  end.

Section Program.

(** [Math.pow], [Math.log], [Math.cos], [Math.sin]: implementation-
    approximated in ECMAScript. *)
Variable Math_pow : float -> float -> float.
Variables Math_log Math_cos Math_sin : float -> float.

(** [random k] is the value of the [k]-th call of [Math.random()]. *)
Variable random : nat -> float.

Definition Math_PI : float := 3.141592653589793.

Definition Math_random : Cmd float := fun c => (Ok (random c), S c).

(** *** tweening.ts *)

Definition linear : TweeningFunction := fun t => t.

Definition easeInQuad : TweeningFunction := fun t => t * t.

Definition easeOutQuad : TweeningFunction := fun t => t * (2 - t).

Definition easeInOutQuad : TweeningFunction := fun t =>
  if t <? 0.5 then 2 * t * t
  else -1 + (4 - 2 * t) * t.

Definition easeInCubic : TweeningFunction := fun t => t * t * t.

Definition easeOutCubic : TweeningFunction := fun t =>
  let t1 := t - 1 in
  t1 * t1 * t1 + 1.

Definition easeInOutCubic : TweeningFunction := fun t =>
  if t <? 0.5 then 4 * t * t * t
  else let t1 := 2 * t - 2 in
       (t1 * t1 * t1 + 2) / 2.

Definition easeInQuart : TweeningFunction := fun t => t * t * t * t.

Definition easeOutQuart : TweeningFunction := fun t =>
  let t1 := t - 1 in
  1 - t1 * t1 * t1 * t1.

Definition easeInOutQuart : TweeningFunction := fun t =>
  if t <? 0.5 then 8 * t * t * t * t
  else let t1 := t - 1 in
       1 - 8 * t1 * t1 * t1 * t1.

Definition easeInQuint : TweeningFunction := fun t => t * t * t * t * t.

Definition easeOutQuint : TweeningFunction := fun t =>
  let t1 := t - 1 in
  1 + t1 * t1 * t1 * t1 * t1.

Definition easeInOutQuint : TweeningFunction := fun t =>
  if t <? 0.5 then 16 * t * t * t * t * t
  else let t1 := t - 1 in
       1 + 16 * t1 * t1 * t1 * t1 * t1.

Definition easeInSine : TweeningFunction := fun t =>
  1 - Math_cos ((t * Math_PI) / 2).

Definition easeOutSine : TweeningFunction := fun t =>
  Math_sin ((t * Math_PI) / 2).

Definition easeInOutSine : TweeningFunction := fun t =>
  - (Math_cos (Math_PI * t) - 1) / 2.

Definition easeInExpo : TweeningFunction := fun t =>
  if t =? 0 then 0 else Math_pow 2 (10 * t - 10).

Definition easeOutExpo : TweeningFunction := fun t =>
  if t =? 1 then 1 else 1 - Math_pow 2 (-10 * t).

Definition easeInOutExpo : TweeningFunction := fun t =>
  if t =? 0 then 0
  else if t =? 1 then 1
  else if t <? 0.5 then Math_pow 2 (20 * t - 10) / 2
  else (2 - Math_pow 2 (-20 * t + 10)) / 2.

Definition easeInCirc : TweeningFunction := fun t =>
  1 - Math.sqrt (1 - Math_pow t 2).

Definition easeOutCirc : TweeningFunction := fun t =>
  Math.sqrt (1 - Math_pow (t - 1) 2).

Definition easeInOutCirc : TweeningFunction := fun t =>
  if t <? 0.5 then (1 - Math.sqrt (1 - Math_pow (2 * t) 2)) / 2
  else (Math.sqrt (1 - Math_pow (-2 * t + 2) 2) + 1) / 2.

Definition TWEEN_OPTIONS : list TweeningFunction :=
  [ easeOutExpo; easeInOutQuint; easeInOutSine; easeInOutQuart;
    easeInOutExpo; easeInOutCubic; easeInOutCirc; linear; easeOutSine;
    easeOutQuart; easeOutQuint; easeOutCubic; easeOutCirc ].

(** *** bezier-calculator.ts *)

(** [factorial(n)], for the integers [n >= 0] it is called with: the
    product [2 * 3 * ... * n] accumulated from 1, in numbers. *)
Definition factorial (n : nat) : float :=
  if (n <=? 1)%nat then 1
  else fold_left (fun result i => result * Number.of_nat i)
                 (seq 2 (n - 1)) 1.

Definition binomial (n k : nat) : float :=
  factorial n / (factorial k * factorial (n - k)).

Definition bernsteinPolynomialPoint (x : float) (i n : nat) : float :=
  binomial n i * Math_pow x (Number.of_nat i)
  * Math_pow (1 - x) (Number.of_nat (n - i)).

(** The loop of [bernsteinPolynomial]: [x] and [y] start at 0 and each
    control point, in order, adds its coordinates times its Bernstein
    weight. *)
Definition bernsteinPolynomial (points : list Vector) (t : float) : Vector :=
  let n := (length points - 1)%nat in
  fold_left
    (fun acc ip =>
       let bern := bernsteinPolynomialPoint t (fst ip) n in
       Vector.mk (Vector.x acc + Vector.x (snd ip) * bern)
                 (Vector.y acc + Vector.y (snd ip) * bern))
    (combine (seq 0 (length points)) points)
    (Vector.mk 0 0).

(** The body of the loop of [calculatePointsInCurve] at index [i]. *)
Definition curvePoint (n : float) (points : list Vector) (i : nat) : Vector :=
  if (i =? 0)%nat then spread (nth_error points 0)
  else if Number.of_nat i =? n - 1
       then spread (nth_error points (length points - 1))
       else bernsteinPolynomial points (Number.of_nat i / (n - 1)).

Definition calculatePointsInCurve (n : float) (points : list Vector)
  : result (list Vector) :=
  if n <? 2 then Throw (Error "n must be at least 2")
  else bindR (Array.pushes n) (fun idx => Ok (map (curvePoint n points) idx)).

(** *** human-curve-generator.ts *)

Record HumanCurveOptions := {
  offsetBoundaryX : option float;
  offsetBoundaryY : option float;
  leftBoundary : option float;
  rightBoundary : option float;
  downBoundary : option float;
  upBoundary : option float;
  knotsCount : option float;
  distortionMean : option float;
  distortionStDev : option float;
  distortionFrequency : option float;
  tweening : option TweeningFunction;
  targetPoints : option float
}.

(** [a ?? b] *)
Definition orElse {A} (a : option A) (b : A) : A :=
  match a with Some v => v | None => b end.

(** [typeof val === 'number' && !isNaN(val)] on a number. *)
Definition checkIfNumeric (val : float) : bool := negb (is_nan val).

(** An array slot holds a point or [undefined] ([None]). *)
Definition checkIfListOfPoints (listOfPoints : list (option Vector)) : bool :=
  forallb (fun p => match p with
                    | Some v => checkIfNumeric (Vector.x v)
                                && checkIfNumeric (Vector.y v)
                    | None => false
                    end) listOfPoints.

(** Box-Muller transform. *)
Definition randomNormal (mean stdDev : float) : Cmd float :=
  u1 <- Math_random ;;
  u2 <- Math_random ;;
  let z0 := Math.sqrt (-2.0 * Math_log u1) * Math_cos (2.0 * Math_PI * u2) in
  ret (z0 * stdDev + mean).

(** The body of the loop of [generateInternalKnots]. *)
Definition randomKnot (lBoundary rBoundary dBoundary uBoundary : float)
  : Cmd Vector :=
  u <- Math_random ;;
  let x := Math.floor (u * (rBoundary - lBoundary + 1)) + lBoundary in
  v <- Math_random ;;
  let y := Math.floor (v * (uBoundary - dBoundary + 1)) + dBoundary in
  ret (Vector.mk x y).

Definition generateInternalKnots
  (lBoundary rBoundary dBoundary uBoundary knotsCount : float)
  : Cmd (list Vector) :=
  if negb (checkIfNumeric lBoundary) || negb (checkIfNumeric rBoundary)
     || negb (checkIfNumeric dBoundary) || negb (checkIfNumeric uBoundary)
  then throw (Error "Boundaries must be numeric values")
  else
    let knotsCount :=
      if negb (Number.isInteger knotsCount) || (knotsCount <? 0) then 0
      else knotsCount in
    if rBoundary <? lBoundary (* lBoundary > rBoundary *)
    then throw (Error "left_boundary must be less than or equal to right_boundary")
    else if uBoundary <? dBoundary (* dBoundary > uBoundary *)
    then throw (Error "down_boundary must be less than or equal to upper_boundary")
    else
      idx <- lift (Array.pushes knotsCount) ;;
      mapC (fun _ : nat => randomKnot lBoundary rBoundary dBoundary uBoundary)
           idx.

Definition distance (fromPoint toPoint : Vector) : float :=
  Math.sqrt (Math_pow (Vector.x toPoint - Vector.x fromPoint) 2
             + Math_pow (Vector.y toPoint - Vector.y fromPoint) 2).

Definition midPtsCnt (fromPoint toPoint : Vector) : float :=
  Math.max (Math.floor (distance fromPoint toPoint)) 50.

Definition generatePoints (fromPoint toPoint : Vector) (knots : list Vector)
  : result (list Vector) :=
  if negb (checkIfListOfPoints (map Some knots))
  then Throw (Error "knots must be valid list of points")
  else
    let allKnots := fromPoint :: knots ++ [toPoint] in
    calculatePointsInCurve (midPtsCnt fromPoint toPoint) allKnots.

(** The points at the indices [1 .. length - 2], which the loop of
    [distortPoints] visits. *)
Definition interior {A} (points : list A) : list A :=
  firstn (length points - 2) (skipn 1 points).

(** The body of the loop of [distortPoints] at the point [p]. *)
Definition distortPoint
  (distortionMean distortionStDev distortionFrequency : float) (p : Vector)
  : Cmd (option Vector) :=
  u <- Math_random ;;
  delta <- (if u <? distortionFrequency
            then randomNormal distortionMean distortionStDev
            else ret 0) ;;
  ret (Some (Vector.mk (Vector.x p) (Vector.y p + delta))).

Definition distortPoints (points : list Vector)
  (distortionMean distortionStDev distortionFrequency : float)
  : Cmd (list (option Vector)) :=
  if negb (checkIfNumeric distortionMean)
     || negb (checkIfNumeric distortionStDev)
     || negb (checkIfNumeric distortionFrequency)
  then throw (Error "Distortions must be numeric")
  else if negb (checkIfListOfPoints (map Some points))
  then throw (Error "points must be valid list of points")
  else if (distortionFrequency <? 0) || (1 <? distortionFrequency)
  then throw (Error "distortion_frequency must be in range [0,1]")
  else
    middle <- mapC (distortPoint distortionMean distortionStDev
                      distortionFrequency)
                   (interior points) ;;
    ret ([nth_error points 0] ++ middle
         ++ [nth_error points (length points - 1)]).

(** The points of an array that passed [checkIfListOfPoints]. *)
Definition defined (points : list (option Vector)) : list Vector :=
  flat_map (fun p => match p with Some v => [v] | None => [] end) points.

(** The body of the loop of [tweenPoints] at index [i]; reading a
    coordinate of [undefined] throws a [TypeError]. *)
Definition tweenPoint (points : list Vector) (tween : TweeningFunction)
  (targetPoints : float) (i : nat) : result Vector :=
  if (i =? 0)%nat then Ok (spread (nth_error points 0))
  else if Number.of_nat i =? targetPoints - 1
  then Ok (spread (nth_error points (length points - 1)))
  else
    let t := Number.of_nat i / (targetPoints - 1) in
    let tweenedT := tween t in
    let last := Number.of_nat (length points) - 1 in
    let continuousIndex := tweenedT * last in
    let lowerIndex := Math.floor continuousIndex in
    let upperIndex := Math.min (lowerIndex + 1) last in
    let fraction := continuousIndex - lowerIndex in
    match Array.get points lowerIndex, Array.get points upperIndex with
    | Some lowerPoint, Some upperPoint =>
        Ok (Vector.mk
              (Vector.x lowerPoint
               + (Vector.x upperPoint - Vector.x lowerPoint) * fraction)
              (Vector.y lowerPoint
               + (Vector.y upperPoint - Vector.y lowerPoint) * fraction))
    | _, _ => Throw (TypeError "Cannot read properties of undefined")
    end.

Definition tweenPoints (points : list (option Vector))
  (tween : TweeningFunction) (targetPoints : float) : result (list Vector) :=
  if negb (checkIfListOfPoints points)
  then Throw (Error "List of points not valid")
  else if negb (Number.isInteger targetPoints) || (targetPoints <? 2)
  then Throw (Error "target_points must be an integer greater or equal to 2")
  else
    let points := defined points in
    if Number.of_nat (length points) <=? targetPoints then Ok points
    else
      bindR (Array.pushes targetPoints)
            (mapR (tweenPoint points tween targetPoints)).

Definition generateCurve (fromPoint toPoint : Vector)
  (options : HumanCurveOptions) : Cmd (list Vector) :=
  let offsetBoundaryX := orElse (offsetBoundaryX options) 80 in
  let offsetBoundaryY := orElse (offsetBoundaryY options) 80 in
  let leftBoundary :=
    orElse (leftBoundary options)
      (Math.min (Vector.x fromPoint) (Vector.x toPoint) - offsetBoundaryX) in
  let rightBoundary :=
    orElse (rightBoundary options)
      (Math.max (Vector.x fromPoint) (Vector.x toPoint) + offsetBoundaryX) in
  let downBoundary :=
    orElse (downBoundary options)
      (Math.min (Vector.y fromPoint) (Vector.y toPoint) - offsetBoundaryY) in
  let upBoundary :=
    orElse (upBoundary options)
      (Math.max (Vector.y fromPoint) (Vector.y toPoint) + offsetBoundaryY) in
  let knotsCount := orElse (knotsCount options) 2 in
  let distortionMean := orElse (distortionMean options) 1 in
  let distortionStDev := orElse (distortionStDev options) 1 in
  let distortionFrequency := orElse (distortionFrequency options) 0.5 in
  let tween := orElse (tweening options) easeOutQuad in
  let targetPoints := orElse (targetPoints options) 100 in
  internalKnots <- generateInternalKnots leftBoundary rightBoundary
                     downBoundary upBoundary knotsCount ;;
  points <- lift (generatePoints fromPoint toPoint internalKnots) ;;
  points <- distortPoints points distortionMean distortionStDev
              distortionFrequency ;;
  lift (tweenPoints points tween targetPoints).

(** The object [new HumanizeMouseTrajectory(fromPoint, toPoint, options)]
    constructs. *)
Record HumanizeMouseTrajectory := {
  fromPoint : Vector;
  toPoint : Vector;
  points : list Vector
}.

Definition newHumanizeMouseTrajectory (fromPoint toPoint : Vector)
  (options : HumanCurveOptions) : Cmd HumanizeMouseTrajectory :=
  points <- generateCurve fromPoint toPoint options ;;
  ret {| fromPoint := fromPoint; toPoint := toPoint; points := points |}.

(** The options of a call without an options object. *)
Definition noOptions : HumanCurveOptions :=
  {| offsetBoundaryX := None; offsetBoundaryY := None;
     leftBoundary := None; rightBoundary := None;
     downBoundary := None; upBoundary := None;
     knotsCount := None; distortionMean := None;
     distortionStDev := None; distortionFrequency := None;
     tweening := None; targetPoints := None |}.

(** *** calculate-and-randomize.ts *)

Record RandomCurveParameters := {
  p_offsetBoundaryX : float;
  p_offsetBoundaryY : float;
  p_knotsCount : float;
  p_distortionMean : float;
  p_distortionStDev : float;
  p_distortionFrequency : float;
  p_tween : option TweeningFunction;
  p_targetPoints : float
}.

(** The loop of [weightedRandomChoice]: [random] is decreased by each
    weight in turn (a missing weight reads as [undefined], which makes
    it NaN) and the first item that brings it to 0 or below is
    returned; past the end, the last item. *)
Fixpoint weightedScan {T} (items : list T) (weights : list float)
  (random : float) (last : option T) : option T :=
  match items with
  | [] => last
  | item :: items' =>
      let random := random - hd nan weights in
      if random <=? 0 then Some item
      else weightedScan items' (tl weights) random (Some item)
  end.

Definition weightedRandomChoice {T} (items : list T) (weights : list float)
  : Cmd (option T) :=
  let totalWeight := fold_left (fun sum w => sum + w) weights 0 in
  u <- Math_random ;;
  let random := u * totalWeight in
  ret (weightedScan items weights random None).

Definition randomFromRange (min max : float) : Cmd float :=
  u <- Math_random ;;
  ret (Math.floor (u * (max - min + 1)) + min).

Record Range := { min : float; max : float }.

(** [randomFromRange(selected.min, selected.max)]: reading a property
    of [undefined] throws. *)
Definition randomFromSelected (selected : option Range) : Cmd float :=
  match selected with
  | Some r => randomFromRange (min r) (max r)
  | None => throw (TypeError "Cannot read properties of undefined")
  end.

Definition generateRandomCurveParameters (preOrigin postDestination : Vector)
  : Cmd RandomCurveParameters :=
  u <- Math_random ;;
  let tween :=
    Array.get TWEEN_OPTIONS
      (Math.floor (u * Number.of_nat (length TWEEN_OPTIONS))) in
  let offsetBoundaryXRanges :=
    [ {| min := 20; max := 44 |}; {| min := 45; max := 74 |};
      {| min := 75; max := 99 |} ] in
  let offsetBoundaryXWeights := [0.2; 0.65; 15] in
  selectedXRange <- weightedRandomChoice offsetBoundaryXRanges
                      offsetBoundaryXWeights ;;
  offsetBoundaryX <- randomFromSelected selectedXRange ;;
  let offsetBoundaryYRanges :=
    [ {| min := 20; max := 44 |}; {| min := 45; max := 74 |};
      {| min := 75; max := 99 |} ] in
  let offsetBoundaryYWeights := [0.2; 0.65; 15] in
  selectedYRange <- weightedRandomChoice offsetBoundaryYRanges
                      offsetBoundaryYWeights ;;
  offsetBoundaryY <- randomFromSelected selectedYRange ;;
  let knotsOptions := [1; 2; 3; 4; 5; 6; 7; 8; 9; 10] in
  let knotsWeights :=
    [0.15; 0.36; 0.17; 0.12; 0.08; 0.04; 0.03; 0.02; 0.015; 0.005] in
  knotsCount <- weightedRandomChoice knotsOptions knotsWeights ;;
  let knotsCount := orElse knotsCount nan in
  r1 <- randomFromRange 80 109 ;;
  let distortionMean := r1 / 100 in
  r2 <- randomFromRange 85 109 ;;
  let distortionStDev := r2 / 100 in
  r3 <- randomFromRange 25 69 ;;
  let distortionFrequency := r3 / 100 in
  let targetPointsRanges :=
    [ {| min := 35; max := 44 |}; {| min := 45; max := 59 |};
      {| min := 60; max := 79 |} ] in
  let targetPointsWeights := [0.53; 0.32; 0.15] in
  selectedPointsRange <- weightedRandomChoice targetPointsRanges
                           targetPointsWeights ;;
  targetPoints <- randomFromSelected selectedPointsRange ;;
  let distance := distance preOrigin postDestination in
  let minBoundary := Math.max 30 (distance * 0.15) in
  let offsetBoundaryX := Math.max offsetBoundaryX minBoundary in
  let offsetBoundaryY := Math.max offsetBoundaryY minBoundary in
  let knotsCount := Math.max knotsCount 2 in
  ret {| p_offsetBoundaryX := offsetBoundaryX;
         p_offsetBoundaryY := offsetBoundaryY;
         p_knotsCount := knotsCount;
         p_distortionMean := distortionMean;
         p_distortionStDev := distortionStDev;
         p_distortionFrequency := distortionFrequency;
         p_tween := tween;
         p_targetPoints := targetPoints |}.

(** The options object [pathWithHumanCurve] (spoof.ts) builds from a
    generated bundle when no spread override is given. *)
Definition optionsOfParameters (params : RandomCurveParameters)
  : HumanCurveOptions :=
  {| offsetBoundaryX := Some (p_offsetBoundaryX params);
     offsetBoundaryY := Some (p_offsetBoundaryY params);
     leftBoundary := None; rightBoundary := None;
     downBoundary := None; upBoundary := None;
     knotsCount := Some (p_knotsCount params);
     distortionMean := Some (p_distortionMean params);
     distortionStDev := Some (p_distortionStDev params);
     distortionFrequency := Some (p_distortionFrequency params);
     tweening := p_tween params;
     targetPoints := Some (p_targetPoints params) |}.

(** [calculateAbsoluteOffset(elementSize, relativePosition)] *)
Record ElementSize := { width : float; height : float }.

Definition calculateAbsoluteOffset (elementSize : ElementSize)
  (relativePosition : float * float) : float * float :=
  let xFinal := Math.floor (width elementSize * fst relativePosition) in
  let yFinal := Math.floor (height elementSize * snd relativePosition) in
  (xFinal, yFinal).

(** *** spoof.ts: the callers of the trajectory *)

Record BoundingBox := {
  box_x : float;
  box_y : float;
  box_width : float;
  box_height : float
}.

(** [getRandomBoxPoint(box, options)]: the padding is computed and
    then left unused. *)
Definition getRandomBoxPoint (box : BoundingBox)
  (paddingPercentage : option float) : Cmd Vector :=
  u <- Math_random ;;
  let xRandomOffset := (Math.floor (u * 60) + 20) / 100 in
  v <- Math_random ;;
  let yRandomOffset := (Math.floor (v * 60) + 20) / 100 in
  let _padding :=
    match paddingPercentage with
    | Some p =>
        if (0 <? p) && (p <=? 100)
        then ((box_width box * p) / 100, (box_height box * p) / 100)
        else (0, 0)
    | None => (0, 0)
    end in
  ret (Vector.mk (box_x box + box_width box * xRandomOffset)
                 (box_y box + box_height box * yRandomOffset)).

(** [vec.x > box.x && vec.x <= box.x + box.width && vec.y > box.y &&
    vec.y <= box.y + box.height] *)
Definition intersectsElement (vec : Vector) (box : BoundingBox) : bool :=
  (box_x box <? Vector.x vec) && (Vector.x vec <=? box_x box + box_width box)
  && (box_y box <? Vector.y vec) && (Vector.y vec <=? box_y box + box_height box).

Record PathOptions := {
  spreadOverride : option float;
  moveSpeed : option float;
  useTimestamps : option bool
}.

(** [options?: number | PathOptions] *)
Inductive PathArgument :=
| PathNumber (n : float)
| PathObject (o : PathOptions)
| PathUndefined.

(** [typeof options === 'number' ? { spreadOverride: options }
    : { ...options }] *)
Definition resolvePathOptions (options : PathArgument) : PathOptions :=
  match options with
  | PathNumber n =>
      {| spreadOverride := Some n; moveSpeed := None; useTimestamps := None |}
  | PathObject o => o
  | PathUndefined =>
      {| spreadOverride := None; moveSpeed := None; useTimestamps := None |}
  end.

(** ['width' in end ? { x: end.x, y: end.y } : end] *)
Definition endPointOf (end_ : Vector + BoundingBox) : Vector :=
  match end_ with
  | inl v => v
  | inr b => Vector.mk (box_x b) (box_y b)
  end.

Record TimedVector := {
  tv_x : float;
  tv_y : float;
  timestamp : float
}.

(** [Date.now()], the reading of the clock that [generateTimestamps]
    takes once, at its start. *)
Variable Date_now : float.

(** The loop of [generateTimestamps] from index 1 on: [prev] is
    [vectors[i - 1]] and [prevTimestamp] is
    [timedVectors[i - 1].timestamp]. *)
Fixpoint timestampsFrom (speed : float) (prev : Vector) (prevTimestamp : float)
  (vectors : list Vector) : list TimedVector :=
  match vectors with
  | [] => []
  | curr :: vectors' =>
      let distance :=
        Math.sqrt (Math_pow (Vector.x curr - Vector.x prev) 2
                   + Math_pow (Vector.y curr - Vector.y prev) 2) in
      let timeIncrement := Math.round (distance / speed * 2) in
      let timestamp := prevTimestamp + timeIncrement in
      {| tv_x := Vector.x curr; tv_y := Vector.y curr; timestamp := timestamp |}
      :: timestampsFrom speed curr timestamp vectors'
  end.

Definition generateTimestamps (vectors : list Vector) (options : PathOptions)
  : list TimedVector :=
  let speed := orElse (moveSpeed options) 1.0 in
  let startTime := Date_now in
  match vectors with
  | [] => []
  | first :: vectors' =>
      {| tv_x := Vector.x first; tv_y := Vector.y first; timestamp := startTime |}
      :: timestampsFrom speed first startTime vectors'
  end.

(** The [clampedVectors] of [clampPositive]. *)
Definition clampedVectors (vectors : list Vector) : list Vector :=
  map (fun vector => Vector.mk (Math.max 0 (Vector.x vector))
                               (Math.max 0 (Vector.y vector))) vectors.

Definition clampPositive (vectors : list Vector) (options : PathOptions)
  : list Vector + list TimedVector :=
  match useTimestamps options with
  | Some true => inr (generateTimestamps (clampedVectors vectors) options)
  | _ => inl (clampedVectors vectors)
  end.

(** [pathWithHumanCurve(page, start, end, options)].  The call
    [generateRandomCurveParameters(page, start, endPoint)] passes three
    arguments to a function of two parameters: [page] is read as
    [preOrigin] and [start] as [postDestination].  [page] stands here
    for what [page.x] and [page.y] read as (a missing property reads as
    [undefined], NaN in arithmetic). *)
Definition pathWithHumanCurve (page : Vector) (start : Vector)
  (end_ : Vector + BoundingBox) (options : PathArgument)
  : Cmd (list Vector + list TimedVector) :=
  let optionsResolved := resolvePathOptions options in
  let endPoint := endPointOf end_ in
  params <- generateRandomCurveParameters page start ;;
  let offsetBoundaryX' :=
    orElse (spreadOverride optionsResolved) (p_offsetBoundaryX params) in
  let offsetBoundaryY' :=
    orElse (spreadOverride optionsResolved) (p_offsetBoundaryY params) in
  humanCurve <- newHumanizeMouseTrajectory start endPoint
    {| offsetBoundaryX := Some offsetBoundaryX';
       offsetBoundaryY := Some offsetBoundaryY';
       leftBoundary := None; rightBoundary := None;
       downBoundary := None; upBoundary := None;
       knotsCount := Some (p_knotsCount params);
       distortionMean := Some (p_distortionMean params);
       distortionStDev := Some (p_distortionStDev params);
       distortionFrequency := Some (p_distortionFrequency params);
       tweening := p_tween params;
       targetPoints := Some (p_targetPoints params) |} ;;
  ret (clampPositive (points humanCurve) optionsResolved).

End Program.

(** ** Predicates of the statements *)

(** The guards of [distortPoints] all pass. *)
Definition distortionsValid (points : list Vector)
  (distortionMean distortionStDev distortionFrequency : float) : bool :=
  checkIfNumeric distortionMean && checkIfNumeric distortionStDev
  && checkIfNumeric distortionFrequency
  && checkIfListOfPoints (map Some points)
  && negb (distortionFrequency <? 0) && negb (1 <? distortionFrequency).

(** The values [generateCurve] works with once the defaults of the
    options are filled in. *)
Record CurveInputs := {
  in_left : float;
  in_right : float;
  in_down : float;
  in_up : float;
  in_knotsCount : float;
  in_mean : float;
  in_stDev : float;
  in_frequency : float;
  in_tween : TweeningFunction;
  in_targetPoints : float
}.

Definition resolve (fromPoint toPoint : Vector) (options : HumanCurveOptions)
  : CurveInputs :=
  let offsetBoundaryX := orElse (offsetBoundaryX options) 80 in
  let offsetBoundaryY := orElse (offsetBoundaryY options) 80 in
  {| in_left :=
       orElse (leftBoundary options)
         (Math.min (Vector.x fromPoint) (Vector.x toPoint) - offsetBoundaryX);
     in_right :=
       orElse (rightBoundary options)
         (Math.max (Vector.x fromPoint) (Vector.x toPoint) + offsetBoundaryX);
     in_down :=
       orElse (downBoundary options)
         (Math.min (Vector.y fromPoint) (Vector.y toPoint) - offsetBoundaryY);
     in_up :=
       orElse (upBoundary options)
         (Math.max (Vector.y fromPoint) (Vector.y toPoint) + offsetBoundaryY);
     in_knotsCount := orElse (knotsCount options) 2;
     in_mean := orElse (distortionMean options) 1;
     in_stDev := orElse (distortionStDev options) 1;
     in_frequency := orElse (distortionFrequency options) 0.5;
     in_tween := orElse (tweening options) easeOutQuad;
     in_targetPoints := orElse (targetPoints options) 100 |}.

(** The guards of [generateInternalKnots] and of [tweenPoints] on their
    parameters. *)
Definition boundaryFailure (l r d u : float) : bool :=
  negb (checkIfNumeric l) || negb (checkIfNumeric r)
  || negb (checkIfNumeric d) || negb (checkIfNumeric u)
  || (r <? l) || (u <? d).

Definition targetFailure (targetPoints : float) : bool :=
  negb (Number.isInteger targetPoints) || (targetPoints <? 2).

(** The conditions on the parameters that the specification enumerates:
    a boundary is not numeric; [left > right]; [down > up];
    [distortionFrequency] is outside [[0,1]]; [targetPoints] is not an
    integer or is below 2. *)
Definition enumeratedParameterFailure (i : CurveInputs) : bool :=
  negb (checkIfNumeric (in_left i)) || negb (checkIfNumeric (in_right i))
  || negb (checkIfNumeric (in_down i)) || negb (checkIfNumeric (in_up i))
  || (in_right i <? in_left i) || (in_up i <? in_down i)
  || negb ((0 <=? in_frequency i) && (in_frequency i <=? 1))
  || negb (Number.isInteger (in_targetPoints i)) || (in_targetPoints i <? 2).

(** The same with the guard on the distortion parameters that the code
    has besides: [distortionMean], [distortionStDev] or
    [distortionFrequency] is not numeric. *)
Definition parameterFailure (i : CurveInputs) : bool :=
  negb (checkIfNumeric (in_left i)) || negb (checkIfNumeric (in_right i))
  || negb (checkIfNumeric (in_down i)) || negb (checkIfNumeric (in_up i))
  || (in_right i <? in_left i) || (in_up i <? in_down i)
  || negb (checkIfNumeric (in_mean i)) || negb (checkIfNumeric (in_stDev i))
  || negb (checkIfNumeric (in_frequency i))
  || (in_frequency i <? 0) || (1 <? in_frequency i)
  || negb (Number.isInteger (in_targetPoints i)) || (in_targetPoints i <? 2).

(** A point list that a stage of [generateCurve] hands to the next one
    holds a coordinate that is not numeric (or an [undefined] slot): the
    knots, the sampled curve, or the distorted points. *)
Definition pointListFailure (Math_pow : float -> float -> float)
  (Math_log Math_cos : float -> float) (random : nat -> float)
  (fromPoint toPoint : Vector) (i : CurveInputs) (c : nat) : Prop :=
  exists knots c1,
    generateInternalKnots random (in_left i) (in_right i) (in_down i) (in_up i)
      (in_knotsCount i) c = (Ok knots, c1)
    /\ (checkIfListOfPoints (map Some knots) = false
        \/ exists curve,
             generatePoints Math_pow fromPoint toPoint knots = Ok curve
             /\ (checkIfListOfPoints (map Some curve) = false
                 \/ exists ds c2,
                      distortPoints Math_log Math_cos random curve
                        (in_mean i) (in_stDev i) (in_frequency i) c1 = (Ok ds, c2)
                      /\ checkIfListOfPoints ds = false)).

(** The exceptions of the platform, which are no validation errors: an
    array that outgrows [Array.MAX_LENGTH], and an easing value that
    leads outside the array. *)
Definition platformError {A} (r : result A) : Prop :=
  exists msg, r = Throw (RangeError msg) \/ r = Throw (TypeError msg).



(** Every interior index of the resampling loop of [tweenPoints] maps to
    an index of the array: [floor(tween(t) * (M - 1))] is in
    [0 .. M - 1]. *)
Definition lowerIndex (points : list Vector) (tween : TweeningFunction)
  (targetPoints : float) (i : nat) : float :=
  Math.floor (tween (Number.of_nat i / (targetPoints - 1))
              * (Number.of_nat (length points) - 1)).


(** [Math.random()] returns numbers of [[0, 1)]. *)
Definition unitDraws (random : nat -> float) : Prop :=
  forall k, (0 <=? random k) = true /\ (random k <? 1) = true.


(** The rows of Pascal's triangle, and the binomial coefficient
    [C(n, k)] read off them. *)
Fixpoint pascalRow (n : nat) : list Z :=
  match n with
  | O => [1%Z]
  | S n' =>
      let r := pascalRow n' in
      map (fun p => (fst p + snd p)%Z) (combine (0%Z :: r) (r ++ [0%Z]))
  end.

Definition choose (n k : nat) : Z := nth k (pascalRow n) 0%Z.

(** [P n k] for every [k <= n <= N], as one test. *)
Fixpoint allBelow (P : nat -> nat -> bool) (n : nat) : bool :=
  match n with
  | O => P O O
  | S n' => forallb (P n) (seq 0 (S n)) && allBelow P n'
  end.

(** The [totalWeight] of the offset tiers: [0.2 + 0.65 + 15], added up
    from 0 as [reduce] does. *)
Definition tierWeight : float :=
  fold_left (fun sum w => sum + w) [0.2; 0.65; 15] 0.

(** The value of a valid number in units of the smallest positive number,
    [2^-1074]. *)
Definition scaled (x : spec_float) : Z :=
  match x with
  | S754_finite s m e => (Number.signed s m * 2 ^ (e + 1074))%Z
  | _ => 0%Z
  end.

Definition SFfinite (x : spec_float) : bool :=
  match x with
  | S754_zero _ | S754_finite _ _ _ => true
  | _ => false
  end.

(** A place for every number that is not NaN on one integer scale: a
    finite number is at its value in units of [2^-1074], and the
    infinities lie beyond every finite number. *)
Definition INF : Z := (2 ^ 2100)%Z.

Definition key (x : spec_float) : Z :=
  match x with
  | S754_infinity false => INF
  | S754_infinity true => (- INF)%Z
  | _ => scaled x
  end.

Definition numeric (x : spec_float) : bool :=
  match x with
  | S754_nan => false
  | _ => true
  end.

(** The second normalisation of [binary_round_aux] for a positive
    number: the mantissa [m1] that the first one left, at exponent [e1],
    is shifted once more when rounding carried it to 54 bits. *)
Definition secondStage (m1 e1 : Z) : spec_float :=
  let '(mrs, e) := shr_fexp prec emax m1 e1 loc_Exact in
  match shr_m mrs with
  | Z0 => S754_zero false
  | Zpos m => if (e <=? emax - prec)%Z then S754_finite false m e
              else S754_infinity false
  | Zneg _ => S754_nan
  end.

(** ** A sample environment, for evaluating the model

    [Math.pow] by repeated multiplication for integer exponents (the
    pipeline's own calls have integer exponents); cosine, sine and the
    logarithm by their series. *)
Module Sample.

Fixpoint powNat (b : float) (n : nat) : float :=
  match n with
  | O => 1
  | S n' => b * powNat b n'
  end.

Definition pow (b e : float) : float :=
  match Number.toInteger e with
  | Some z => if (z <? 0)%Z then 1 / powNat b (Z.to_nat (- z))
              else powNat b (Z.to_nat z)
  | None => nan
  end.

(** [sum_k term_k] with [term_(k+1) = term_k * step k]. *)
Fixpoint series (fuel : nat) (k : nat) (term acc : float)
  (step : nat -> float) : float :=
  match fuel with
  | O => acc
  | S fuel' => series fuel' (S k) (term * step k) (acc + term) step
  end.

Definition cos (a : float) : float :=
  let a := abs a in
  let turns := Math.floor (a / (2 * Math_PI)) in
  let r := a - turns * (2 * Math_PI) in
  let r := if Math_PI <? r then r - 2 * Math_PI else r in
  series 14 0 1 0
    (fun k => - (r * r)
              / (Number.of_nat (2 * k + 1) * Number.of_nat (2 * k + 2))).

Definition sin (a : float) : float := cos (a - Math_PI / 2).

Definition log (a : float) : float :=
  if is_nan a || (a <? 0) then nan
  else if a =? 0 then neg_infinity
  else if a =? infinity then infinity
  else
    let (m, e) := Z.frexp a in
    let z := (m - 1) / (m + 1) in
    Number.of_Z e * 0.6931471805599453
    + 2 * series 40 0 z 0
            (fun k => z * z * Number.of_nat (2 * k + 1)
                      / Number.of_nat (2 * k + 3)).

(** A stream of draws that repeats the given values. *)
Definition cycle (l : list float) (k : nat) : float :=
  nth (k mod (length l)) l 0.5.

(** The default options but for a [distortionMean] that is NaN. *)
Definition optionsNaNMean : HumanCurveOptions :=
  {| offsetBoundaryX := None; offsetBoundaryY := None;
     leftBoundary := None; rightBoundary := None;
     downBoundary := None; upBoundary := None;
     knotsCount := None; distortionMean := Some nan;
     distortionStDev := None; distortionFrequency := None;
     tweening := None; targetPoints := None |}.

Definition draws : nat -> float :=
  cycle [0.5; 0.25; 0.75; 0.125; 0.625; 0.9; 0.3; 0.05; 0.45; 0.8; 0.6].

(** Options that ask for 5 points and leave the rest to the
    defaults. *)
Definition options : HumanCurveOptions :=
  {| offsetBoundaryX := None; offsetBoundaryY := None;
     leftBoundary := None; rightBoundary := None;
     downBoundary := None; upBoundary := None;
     knotsCount := None; distortionMean := None;
     distortionStDev := None; distortionFrequency := None;
     tweening := None; targetPoints := Some 5 |}.

End Sample.

(** * Proofs *)

Local Close Scope float_scope.

(** * Facts on binary64 numbers *)

Lemma digits2_pos_bounds (m : positive) :
  2 ^ (Z.pos (digits2_pos m) - 1) <= Z.pos m < 2 ^ Z.pos (digits2_pos m).
Proof.
  induction m as [p IH | p IH | ]; cbn [digits2_pos].
  - rewrite Pos2Z.inj_succ.
    replace (Z.succ (Z.pos (digits2_pos p)) - 1) with (Z.succ (Z.pos (digits2_pos p) - 1)) by lia.
    rewrite !Z.pow_succ_r by lia.
    destruct IH; split; lia.
  - rewrite Pos2Z.inj_succ.
    replace (Z.succ (Z.pos (digits2_pos p)) - 1) with (Z.succ (Z.pos (digits2_pos p) - 1)) by lia.
    rewrite !Z.pow_succ_r by lia.
    destruct IH; split; lia.
  - cbn. lia.
Qed.

Lemma digits2_pos_unique (m : positive) (d : Z) :
  2 ^ (d - 1) <= Z.pos m < 2 ^ d -> Z.pos (digits2_pos m) = d.
Proof.
  intros [Hlo Hhi]. pose proof (digits2_pos_bounds m) as [Blo Bhi].
  assert (0 < d).
  { destruct (Z_lt_le_dec 0 d) as [|Hd]; [assumption|].
    exfalso. destruct (Z.eq_dec d 0) as [->|]; [cbn in Hhi; lia|].
    rewrite Z.pow_neg_r in Hhi by lia. lia. }
  destruct (Z_lt_le_dec (Z.pos (digits2_pos m)) d) as [Hlt|Hge].
  - assert (2 ^ Z.pos (digits2_pos m) <= 2 ^ (d - 1)) by (apply Z.pow_le_mono_r; lia). lia.
  - destruct (Z.eq_dec (Z.pos (digits2_pos m)) d) as [|Hne]; [assumption|].
    assert (2 ^ d <= 2 ^ (Z.pos (digits2_pos m) - 1)) by (apply Z.pow_le_mono_r; lia). lia.
Qed.

(** What [valid_binary] says of a finite number. *)
Lemma bounded_facts (m : positive) (e : Z) :
  bounded prec emax m e = true ->
  -1074 <= e <= 971 /\ Z.pos m < 2 ^ 53 /\ (-1074 < e -> 2 ^ 52 <= Z.pos m).
Proof.
  unfold bounded, canonical_mantissa, fexp, SpecFloat.emin, prec, emax.
  rewrite andb_true_iff, Z.eqb_eq, Z.leb_le. intros [Hc He].
  pose proof (digits2_pos_bounds m) as [Blo Bhi].
  assert (Hd : Z.pos (digits2_pos m) <= 53) by lia.
  split; [lia|]. split.
  - assert (2 ^ Z.pos (digits2_pos m) <= 2 ^ 53) by (apply Z.pow_le_mono_r; lia). lia.
  - intros Hn. assert (Z.pos (digits2_pos m) = 53) as E by lia.
    rewrite E in Blo. exact Blo.
Qed.

Lemma scaled_pos_lt m1 e1 m2 e2 :
  bounded prec emax m1 e1 = true -> bounded prec emax m2 e2 = true ->
  e1 < e2 -> Z.pos m1 * 2 ^ (e1 + 1074) < Z.pos m2 * 2 ^ (e2 + 1074).
Proof.
  intros B1 B2 H.
  apply bounded_facts in B1 as (He1 & Hm1 & _).
  apply bounded_facts in B2 as (He2 & _ & Hm2).
  specialize (Hm2 ltac:(lia)).
  replace (e2 + 1074) with ((e1 + 1074) + (e2 - e1)) by lia.
  rewrite (Z.pow_add_r 2 (e1 + 1074) (e2 - e1)) by lia.
  assert (0 < 2 ^ (e1 + 1074)) by (apply Z.pow_pos_nonneg; lia).
  assert (2 ^ 1 <= 2 ^ (e2 - e1)) by (apply Z.pow_le_mono_r; lia).
  change (2 ^ 1) with 2 in *.
  set (A := 2 ^ (e1 + 1074)) in *. set (B := 2 ^ (e2 - e1)) in *.
  assert (Z.pos m1 * A < 2 ^ 53 * A) by (apply Z.mul_lt_mono_pos_r; lia).
  assert (2 ^ 52 * A <= Z.pos m2 * A) by (apply Z.mul_le_mono_nonneg_r; lia).
  assert (Z.pos m2 * A * 2 <= Z.pos m2 * A * B) by (apply Z.mul_le_mono_nonneg_l; lia).
  change (2 ^ 53) with (2 ^ 52 * 2) in *. lia.
Qed.

Lemma SFcompare_scaled (x y : spec_float) :
  valid_binary x = true -> valid_binary y = true ->
  SFfinite x = true -> SFfinite y = true ->
  SFcompare x y = Some (scaled x ?= scaled y).
Proof.
  destruct x as [sx | sx | | sx mx ex], y as [sy | sy | | sy my ey];
    cbn [valid_binary SFfinite scaled SFcompare]; intros Vx Vy Fx Fy;
    try discriminate; try reflexivity.
  - (* zero, finite *)
    f_equal. symmetry.
    assert (0 < 2 ^ (ey + 1074)) by (apply bounded_facts in Vy; apply Z.pow_pos_nonneg; lia).
    destruct sy; cbn [Number.signed]; [apply Z.compare_gt_iff | apply Z.compare_lt_iff]; nia.
  - f_equal. symmetry.
    assert (0 < 2 ^ (ex + 1074)) by (apply bounded_facts in Vx; apply Z.pow_pos_nonneg; lia).
    destruct sx; cbn [Number.signed]; [apply Z.compare_lt_iff | apply Z.compare_gt_iff]; nia.
  - f_equal.
    assert (Px : 0 < 2 ^ (ex + 1074)) by (apply bounded_facts in Vx; apply Z.pow_pos_nonneg; lia).
    assert (Py : 0 < 2 ^ (ey + 1074)) by (apply bounded_facts in Vy; apply Z.pow_pos_nonneg; lia).
    destruct sx, sy; cbn [Number.signed]; symmetry.
    + (* both negative *)
      destruct (Z.compare_spec ex ey) as [E | L | G].
      * subst ey. rewrite Pos.compare_cont_spec. cbn [Pos.switch_Eq].
        destruct (Pos.compare_spec mx my) as [E' | L' | G']; cbn [CompOpp].
        -- subst. apply Z.compare_eq_iff. reflexivity.
        -- apply Z.compare_gt_iff. nia.
        -- apply Z.compare_lt_iff. nia.
      * apply Z.compare_gt_iff. pose proof (scaled_pos_lt _ _ _ _ Vx Vy L). lia.
      * apply Z.compare_lt_iff. pose proof (scaled_pos_lt _ _ _ _ Vy Vx ltac:(lia)). lia.
    + apply Z.compare_lt_iff. nia.
    + apply Z.compare_gt_iff. nia.
    + destruct (Z.compare_spec ex ey) as [E | L | G].
      * subst ey. rewrite Pos.compare_cont_spec. cbn [Pos.switch_Eq].
        destruct (Pos.compare_spec mx my) as [E' | L' | G'].
        -- subst. apply Z.compare_eq_iff. reflexivity.
        -- apply Z.compare_lt_iff. nia.
        -- apply Z.compare_gt_iff. nia.
      * apply Z.compare_lt_iff. exact (scaled_pos_lt _ _ _ _ Vx Vy L).
      * apply Z.compare_gt_iff. exact (scaled_pos_lt _ _ _ _ Vy Vx ltac:(lia)).
Qed.

Lemma ceil_floor_exact (a P : Z) :
  0 < P -> a / P = - ((- a) / P) -> a = (a / P) * P.
Proof.
  intros HP H.
  destruct (Z.eq_dec (a mod P) 0) as [E | N].
  - pose proof (Z.div_mod a P ltac:(lia)). lia.
  - rewrite Z.div_opp_l_nz in H by lia. lia.
Qed.

(** A number that is an integer [z] has the value [z]. *)
Lemma toInteger_scaled (x : float) (z : Z) :
  Number.toInteger x = Some z ->
  SFfinite (Prim2SF x) = true /\ scaled (Prim2SF x) = z * 2 ^ 1074.
Proof.
  unfold Number.toInteger, Number.floorZ, Number.ceilZ.
  pose proof (Prim2SF_valid x) as V.
  destruct (Prim2SF x) as [s | s | | s m e]; try discriminate.
  - intros [= <-]. split; reflexivity.
  - cbn [valid_binary] in V. apply bounded_facts in V as (He & _ & _).
    destruct (Z.eqb_spec (Z.shiftl (Number.signed s m) e)
                (- Z.shiftl (- Number.signed s m) e)) as [E | N]; [|discriminate].
    intros [= <-]. split; [reflexivity|]. cbn [scaled].
    destruct (Z_le_gt_dec 0 e) as [Hp | Hn].
    + rewrite Z.shiftl_mul_pow2 by lia.
      rewrite (Z.pow_add_r 2 e 1074) by lia. ring.
    + rewrite !Z.shiftl_div_pow2 in E by lia.
      rewrite Z.shiftl_div_pow2 by lia.
      assert (HP : 0 < 2 ^ (- e)) by (apply Z.pow_pos_nonneg; lia).
      pose proof (ceil_floor_exact _ _ HP E) as D.
      rewrite D at 1.
      replace 1074 with ((- e) + (e + 1074)) at 2 by lia.
      rewrite (Z.pow_add_r 2 (- e) (e + 1074)) by lia. ring.
Qed.

Lemma SFcompare_integers (a b : float) (x y : Z) :
  Number.toInteger a = Some x -> Number.toInteger b = Some y ->
  SFcompare (Prim2SF a) (Prim2SF b) = Some (x ?= y).
Proof.
  intros Ha Hb.
  apply toInteger_scaled in Ha as [Fa Sa]. apply toInteger_scaled in Hb as [Fb Sb].
  rewrite SFcompare_scaled by auto using Prim2SF_valid.
  rewrite Sa, Sb. f_equal.
  assert (0 < 2 ^ 1074) by (apply Z.pow_pos_nonneg; lia).
  destruct (Z.compare_spec x y) as [E | L | G].
  - subst. apply Z.compare_refl.
  - apply Z.compare_lt_iff. apply Z.mul_lt_mono_pos_r; assumption.
  - apply Z.compare_gt_iff. apply Z.mul_lt_mono_pos_r; assumption.
Qed.

Lemma ltb_integers (a b : float) (x y : Z) :
  Number.toInteger a = Some x -> Number.toInteger b = Some y ->
  (a <? b)%float = (x <? y).
Proof.
  intros Ha Hb. rewrite ltb_spec. unfold SFltb.
  rewrite (SFcompare_integers _ _ _ _ Ha Hb). unfold Z.ltb.
  destruct (x ?= y); reflexivity.
Qed.

Lemma leb_integers (a b : float) (x y : Z) :
  Number.toInteger a = Some x -> Number.toInteger b = Some y ->
  (a <=? b)%float = (x <=? y).
Proof.
  intros Ha Hb. rewrite leb_spec. unfold SFleb.
  rewrite (SFcompare_integers _ _ _ _ Ha Hb). unfold Z.leb.
  destruct (x ?= y); reflexivity.
Qed.

Lemma eqb_integers (a b : float) (x y : Z) :
  Number.toInteger a = Some x -> Number.toInteger b = Some y ->
  (a =? b)%float = (x =? y).
Proof.
  intros Ha Hb. rewrite eqb_spec. unfold SFeqb.
  rewrite (SFcompare_integers _ _ _ _ Ha Hb).
  destruct (Z.compare_spec x y), (Z.eqb_spec x y); try reflexivity; lia.
Qed.

Lemma is_nan_integer (a : float) (x : Z) :
  Number.toInteger a = Some x -> is_nan a = false.
Proof.
  intros Ha. unfold is_nan. rewrite (eqb_integers _ _ _ _ Ha Ha), Z.eqb_refl.
  reflexivity.
Qed.

(** ** Rounding is exact on representable values *)

Lemma iter_pos_nat {A} (f : A -> A) (n : positive) (x : A) :
  iter_pos f n x = Nat.iter (Pos.to_nat n) f x.
Proof.
  revert x. induction n as [n IH | n IH | ]; intros x; cbn [iter_pos].
  - rewrite !IH, Pos2Nat.inj_xI.
    replace (S (2 * Pos.to_nat n)) with (Pos.to_nat n + (Pos.to_nat n + 1))%nat by lia.
    rewrite !Nat.iter_add. reflexivity.
  - rewrite !IH, Pos2Nat.inj_xO.
    replace (2 * Pos.to_nat n)%nat with (Pos.to_nat n + Pos.to_nat n)%nat by lia.
    rewrite Nat.iter_add. reflexivity.
  - reflexivity.
Qed.

Lemma iter_xO_mul (k : nat) (m : positive) :
  Z.pos (Nat.iter k xO m) = Z.pos m * 2 ^ Z.of_nat k.
Proof.
  induction k as [| k IH].
  - cbn. lia.
  - rewrite Nat.iter_succ, Nat2Z.inj_succ, Z.pow_succ_r by lia.
    change (Z.pos (Nat.iter k xO m)~0) with (2 * Z.pos (Nat.iter k xO m)).
    rewrite IH. ring.
Qed.

Lemma Pos_iter_xO_mul (d m : positive) :
  Z.pos (Pos.iter xO m d) = Z.pos m * 2 ^ Z.pos d.
Proof.
  rewrite Pos2Nat.inj_iter. 
  change (nat_rect (fun _ => positive) m (fun _ => xO) (Pos.to_nat d))
    with (Nat.iter (Pos.to_nat d) xO m).
  rewrite iter_xO_mul, positive_nat_Z. reflexivity.
Qed.

Lemma shr_exact (k : nat) (m : positive) :
  Nat.iter k shr_1 (Build_shr_record (Z.pos (Nat.iter k xO m)) false false)
  = Build_shr_record (Z.pos m) false false.
Proof.
  induction k as [| k IH]; [reflexivity|].
  rewrite Nat.iter_succ_r, (Nat.iter_succ k _ xO m). cbn [shr_1 orb]. exact IH.
Qed.

Lemma digits2_pos_shift (p m : positive) (k : Z) :
  0 <= k -> Z.pos m = Z.pos p * 2 ^ k ->
  Z.pos (digits2_pos m) = Z.pos (digits2_pos p) + k.
Proof.
  intros Hk E. apply digits2_pos_unique. rewrite E.
  pose proof (digits2_pos_bounds p) as [Lo Hi].
  assert (0 < 2 ^ k) by (apply Z.pow_pos_nonneg; lia).
  replace (Z.pos (digits2_pos p) + k - 1) with ((Z.pos (digits2_pos p) - 1) + k) by lia.
  rewrite !Z.pow_add_r by lia. split.
  - apply Z.mul_le_mono_nonneg_r; lia.
  - apply Z.mul_lt_mono_pos_r; lia.
Qed.

Lemma bounded_canonical (m : positive) (e : Z) :
  bounded prec emax m e = true ->
  fexp prec emax (Z.pos (digits2_pos m) + e) = e /\ (e <=? emax - prec) = true.
Proof.
  unfold bounded, canonical_mantissa. rewrite andb_true_iff, Z.eqb_eq. tauto.
Qed.

Lemma binary_round_aux_canonical (s : bool) (m : positive) (e : Z) :
  bounded prec emax m e = true ->
  binary_round_aux prec emax s (Z.pos m) e loc_Exact = S754_finite s m e.
Proof.
  intros B. apply bounded_canonical in B as [C L].
  unfold binary_round_aux, shr_fexp. cbn [Zdigits2 shr_record_of_loc].
  rewrite C, Z.sub_diag. cbn [shr shr_m loc_of_shr_record round_nearest_even Zdigits2 shr_record_of_loc].
  rewrite C, Z.sub_diag. cbn [shr shr_m]. rewrite L. reflexivity.
Qed.

(** The mantissa is too short: it is shifted left. *)
Lemma binary_round_left (s : bool) (p : positive) (e0 : Z) (m : positive) (e : Z) :
  bounded prec emax m e = true -> e <= e0 ->
  Z.pos m = Z.pos p * 2 ^ (e0 - e) ->
  binary_round prec emax s p e0 = S754_finite s m e.
Proof.
  intros B Le E. pose proof (bounded_canonical _ _ B) as [C _].
  unfold binary_round.
  rewrite (digits2_pos_shift p m (e0 - e)) in C by (lia || assumption).
  replace (Z.pos (digits2_pos p) + e0) with (Z.pos (digits2_pos p) + (e0 - e) + e) by lia.
  rewrite C. unfold shl_align.
  destruct (e - e0) as [| d | d] eqn:D; try lia.
  - assert (e0 = e) by lia. subst e0. rewrite Z.sub_diag in E. cbn in E.
    assert (m = p) by lia. subst p. apply binary_round_aux_canonical, B.
  - assert (Pos.iter xO p d = m) as ->.
    { apply Pos2Z.inj. rewrite Pos_iter_xO_mul, E. f_equal. f_equal. lia. }
    apply binary_round_aux_canonical, B.
Qed.

(** The mantissa is too long by zeros: it is shifted right, exactly. *)
Lemma binary_round_right (s : bool) (p : positive) (e0 : Z) (m : positive) (e : Z) :
  bounded prec emax m e = true -> e0 < e ->
  Z.pos p = Z.pos m * 2 ^ (e - e0) ->
  binary_round prec emax s p e0 = S754_finite s m e.
Proof.
  intros B Lt E. pose proof (bounded_canonical _ _ B) as [C L].
  pose proof (digits2_pos_shift m p (e - e0) ltac:(lia) E) as D.
  unfold binary_round.
  replace (Z.pos (digits2_pos p) + e0) with (Z.pos (digits2_pos m) + e) by lia.
  rewrite C. unfold shl_align.
  destruct (e - e0) as [| d | d] eqn:K; try lia.
  unfold binary_round_aux, shr_fexp. cbn [Zdigits2 shr_record_of_loc].
  replace (Z.pos (digits2_pos p) + e0) with (Z.pos (digits2_pos m) + e) by lia.
  rewrite C, K. cbn [shr]. rewrite iter_pos_nat.
  assert (p = Nat.iter (Pos.to_nat d) xO m) as ->.
  { apply Pos2Z.inj. rewrite iter_xO_mul, positive_nat_Z. exact E. }
  rewrite shr_exact.
  cbn [shr_m loc_of_shr_record round_nearest_even Zdigits2 shr_record_of_loc].
  replace (e0 + Z.pos d) with e by lia.
  rewrite C, Z.sub_diag. cbn [shr shr_m]. rewrite L. reflexivity.
Qed.

(** [binary_normalize] returns the number that has the value it is
    given, when there is one. *)
Lemma binary_normalize_exact (q e0 : Z) (s : bool) (m : positive) (e : Z) :
  bounded prec emax m e = true -> -1074 <= e0 ->
  q * 2 ^ (e0 + 1074) = Number.signed s m * 2 ^ (e + 1074) ->
  binary_normalize prec emax q e0 false = S754_finite s m e.
Proof.
  intros B H0 E. pose proof (bounded_facts _ _ B) as (He & _ & _).
  assert (P0 : 0 < 2 ^ (e0 + 1074)) by (apply Z.pow_pos_nonneg; lia).
  assert (P1 : 0 < 2 ^ (e + 1074)) by (apply Z.pow_pos_nonneg; lia).
  assert (exists p, q = Number.signed s p) as [p ->].
  { destruct q as [| p | p], s; cbn [Number.signed] in *; try nia; eauto. }
  assert (E' : Z.pos p * 2 ^ (e0 + 1074) = Z.pos m * 2 ^ (e + 1074)).
  { destruct s; cbn [Number.signed] in E; lia. }
  assert (binary_round prec emax s p e0 = S754_finite s m e) as R.
  { destruct (Z_le_gt_dec e e0) as [Le | Gt].
    - apply binary_round_left; [assumption | assumption |].
      replace (e0 + 1074) with ((e0 - e) + (e + 1074)) in E' by lia.
      rewrite (Z.pow_add_r 2 (e0 - e) (e + 1074)) in E' by lia.
      rewrite Z.mul_assoc in E'. apply Z.mul_reg_r in E'; lia.
    - apply binary_round_right; [assumption | lia |].
      replace (e + 1074) with ((e - e0) + (e0 + 1074)) in E' by lia.
      rewrite (Z.pow_add_r 2 (e - e0) (e0 + 1074)) in E' by lia.
      rewrite Z.mul_assoc in E'. apply Z.mul_reg_r in E'; lia. }
  destruct s; cbn [Number.signed binary_normalize]; exact R.
Qed.

(** ** Integers in numbers *)

(** Every integer of at most 53 bits is a number. *)
Lemma canonical_integer (z : positive) :
  Z.pos z < 2 ^ 53 ->
  exists m e, bounded prec emax m e = true
              /\ Z.pos m * 2 ^ (e + 1074) = Z.pos z * 2 ^ 1074.
Proof.
  intros Hz. pose proof (digits2_pos_bounds z) as [Lo Hi].
  set (d := Z.pos (digits2_pos z)) in *.
  assert (Hd : d <= 53).
  { destruct (Z_le_gt_dec d 53); [assumption|].
    assert (2 ^ 53 <= 2 ^ (d - 1)) by (apply Z.pow_le_mono_r; lia). lia. }
  set (k := Z.to_nat (53 - d)).
  exists (Nat.iter k xO z), (d - 53).
  assert (Em : Z.pos (Nat.iter k xO z) = Z.pos z * 2 ^ (53 - d)).
  { rewrite iter_xO_mul. unfold k. rewrite Z2Nat.id by lia. reflexivity. }
  split.
  - unfold bounded, canonical_mantissa.
    rewrite (digits2_pos_shift z _ (53 - d) ltac:(lia) Em).
    fold d. unfold fexp, SpecFloat.emin, prec, emax.
    apply andb_true_iff. split; [apply Z.eqb_eq | apply Z.leb_le]; lia.
  - rewrite Em. rewrite <- Z.mul_assoc, <- Z.pow_add_r by lia.
    f_equal. f_equal. lia.
Qed.

(** The converse of [toInteger_scaled]. *)
Lemma toInteger_spec (x : float) (s : bool) (m : positive) (e z : Z) :
  Prim2SF x = S754_finite s m e ->
  Number.signed s m * 2 ^ (e + 1074) = z * 2 ^ 1074 ->
  Number.toInteger x = Some z.
Proof.
  intros Hx E. pose proof (Prim2SF_valid x) as V. rewrite Hx in V.
  cbn [valid_binary] in V. apply bounded_facts in V as (He & _ & _).
  unfold Number.toInteger, Number.floorZ, Number.ceilZ. rewrite Hx.
  set (a := Number.signed s m) in *.
  destruct (Z_le_gt_dec 0 e) as [Hp | Hn].
  - rewrite !Z.shiftl_mul_pow2 by lia.
    rewrite (Z.pow_add_r 2 e 1074), Z.mul_assoc in E by lia.
    apply Z.mul_reg_r in E; [| lia].
    replace (- (- a * 2 ^ e)) with (a * 2 ^ e) by ring.
    rewrite Z.eqb_refl, E. reflexivity.
  - rewrite !Z.shiftl_div_pow2 by lia.
    assert (HP : 0 < 2 ^ (- e)) by (apply Z.pow_pos_nonneg; lia).
    replace 1074 with ((- e) + (e + 1074)) in E at 2 by lia.
    rewrite (Z.pow_add_r 2 (- e) (e + 1074)), Z.mul_assoc in E by lia.
    apply Z.mul_reg_r in E.
    2:{ assert (0 < 2 ^ (e + 1074)) by (apply Z.pow_pos_nonneg; lia). lia. }
    rewrite E. replace (- (z * 2 ^ (- e))) with ((- z) * 2 ^ (- e)) by ring.
    rewrite !Z.div_mul by lia. rewrite Z.opp_involutive, Z.eqb_refl. reflexivity.
Qed.

Lemma toInteger_zero (x : float) (s : bool) :
  Prim2SF x = S754_zero s -> Number.toInteger x = Some 0.
Proof.
  intros Hx. unfold Number.toInteger, Number.floorZ, Number.ceilZ.
  rewrite Hx. reflexivity.
Qed.

(** A number whose value [binary_normalize] was given is that integer. *)
Lemma normalize_integer (q e0 v : Z) (f : float) :
  -1074 <= e0 -> q * 2 ^ (e0 + 1074) = v * 2 ^ 1074 -> Z.abs v < 2 ^ 53 ->
  Prim2SF f = binary_normalize prec emax q e0 false ->
  Number.toInteger f = Some v.
Proof.
  intros H0 E Hv Hf.
  assert (P0 : 0 < 2 ^ (e0 + 1074)) by (apply Z.pow_pos_nonneg; lia).
  assert (P1 : 0 < 2 ^ 1074) by (apply Z.pow_pos_nonneg; lia).
  destruct v as [| p | p].
  - assert (q = 0) by nia. subst q. cbn [binary_normalize] in Hf.
    exact (toInteger_zero _ _ Hf).
  - destruct (canonical_integer p ltac:(lia)) as (m & e & B & Em).
    rewrite (binary_normalize_exact q e0 false m e B H0) in Hf
      by (cbn [Number.signed]; lia).
    apply (toInteger_spec f false m e _ Hf). cbn [Number.signed]. exact Em.
  - destruct (canonical_integer p ltac:(lia)) as (m & e & B & Em).
    rewrite (binary_normalize_exact q e0 true m e B H0) in Hf
      by (cbn [Number.signed]; lia).
    apply (toInteger_spec f true m e _ Hf). cbn [Number.signed]. lia.
Qed.

Lemma toInteger_of_Z (z : Z) :
  Z.abs z < 2 ^ 53 -> Number.toInteger (Number.of_Z z) = Some z.
Proof.
  intros Hz.
  assert (P1 : 0 < 2 ^ 1074) by (apply Z.pow_pos_nonneg; lia).
  destruct (Z.eq_dec z 0) as [-> | Nz]; [reflexivity|].
  assert (exists s p, z = Number.signed s p) as (s & p & ->).
  { destruct z as [| p | p]; [lia | exists false, p | exists true, p]; reflexivity. }
  destruct (canonical_integer p) as (m & e & B & Em).
  { destruct s; cbn [Number.signed] in Hz; lia. }
  unfold Number.of_Z.
  rewrite (binary_normalize_exact _ 0 s m e B ltac:(lia)).
  2:{ change (0 + 1074) with 1074. destruct s; cbn [Number.signed]; lia. }
  apply (toInteger_spec _ s m e).
  - apply Prim2SF_SF2Prim. exact B.
  - destruct s; cbn [Number.signed]; lia.
Qed.

Lemma toInteger_of_nat (n : nat) :
  Z.of_nat n < 2 ^ 53 -> Number.toInteger (Number.of_nat n) = Some (Z.of_nat n).
Proof. intros H. apply toInteger_of_Z. lia. Qed.

Lemma shl_align_value (m : positive) (e ez : Z) :
  -1074 <= ez <= e ->
  Z.pos (fst (shl_align m e ez)) * 2 ^ (ez + 1074) = Z.pos m * 2 ^ (e + 1074).
Proof.
  intros H. unfold shl_align.
  destruct (ez - e) as [| d | d] eqn:D; cbn [fst]; try lia.
  - replace ez with e by lia. reflexivity.
  - rewrite Pos_iter_xO_mul, <- Z.mul_assoc, <- Z.pow_add_r by lia.
    f_equal. f_equal. lia.
Qed.

Lemma cond_Zopp_signed (s : bool) (m : positive) :
  cond_Zopp s (Z.pos m) = Number.signed s m.
Proof. destruct s; reflexivity. Qed.

Ltac finite_cases a b Ha Hb :=
  pose proof (Prim2SF_valid a) as Va; pose proof (Prim2SF_valid b) as Vb;
  pose proof (toInteger_scaled _ _ Ha) as [Fa Sa];
  pose proof (toInteger_scaled _ _ Hb) as [Fb Sb];
  destruct (Prim2SF a) as [sa | sa | | sa ma ea] eqn:Pa; try discriminate Fa;
  destruct (Prim2SF b) as [sb | sb | | sb mb eb] eqn:Pb; try discriminate Fb;
  cbn [scaled valid_binary] in *.

(** Addition and subtraction of integers are exact while the result has
    at most 53 bits. *)
Lemma add_integers (a b : float) (x y : Z) :
  Number.toInteger a = Some x -> Number.toInteger b = Some y ->
  Z.abs (x + y) < 2 ^ 53 ->
  Number.toInteger (a + b)%float = Some (x + y).
Proof.
  intros Ha Hb Hxy.
  assert (P1 : 0 < 2 ^ 1074) by (apply Z.pow_pos_nonneg; lia).
  pose proof (add_spec a b) as S. unfold SF64add in S.
  finite_cases a b Ha Hb.
  - assert (x = 0) by lia. assert (y = 0) by lia. subst.
    destruct sa, sb; cbn [SFadd] in S; exact (toInteger_zero _ _ S).
  - assert (x = 0) by lia. subst x. cbn [SFadd] in S.
    rewrite <- Pb in S. apply Prim2SF_inj in S. rewrite S. exact Hb.
  - assert (y = 0) by lia. subst y. cbn [SFadd] in S.
    rewrite <- Pa in S. apply Prim2SF_inj in S. rewrite S, Z.add_0_r. exact Ha.
  - cbn [SFadd] in S.
    pose proof (bounded_facts _ _ Va) as (Hea & _). pose proof (bounded_facts _ _ Vb) as (Heb & _).
    refine (normalize_integer _ (Z.min ea eb) _ _ ltac:(lia) _ Hxy S).
    rewrite Z.mul_add_distr_r.
    assert (forall s m e, -1074 <= Z.min ea eb <= e ->
              cond_Zopp s (Z.pos (fst (shl_align m e (Z.min ea eb)))) * 2 ^ (Z.min ea eb + 1074)
              = Number.signed s m * 2 ^ (e + 1074)) as K.
    { intros s m e He. pose proof (shl_align_value m e _ He).
      destruct s; cbn [cond_Zopp Number.signed]; lia. }
    rewrite !K by lia. lia.
Qed.

Lemma sub_integers (a b : float) (x y : Z) :
  Number.toInteger a = Some x -> Number.toInteger b = Some y ->
  Z.abs (x - y) < 2 ^ 53 ->
  Number.toInteger (a - b)%float = Some (x - y).
Proof.
  intros Ha Hb Hxy.
  assert (P1 : 0 < 2 ^ 1074) by (apply Z.pow_pos_nonneg; lia).
  pose proof (sub_spec a b) as S. unfold SF64sub in S.
  finite_cases a b Ha Hb.
  - assert (x = 0) by lia. assert (y = 0) by lia. subst.
    destruct sa, sb; cbn [SFsub] in S; exact (toInteger_zero _ _ S).
  - assert (x = 0) by lia. subst x. cbn [SFsub] in S.
    apply (toInteger_spec _ _ _ _ _ S).
    destruct sb; cbn [negb Number.signed] in *; lia.
  - assert (y = 0) by lia. subst y. cbn [SFsub] in S.
    rewrite <- Pa in S. apply Prim2SF_inj in S. rewrite S, Z.sub_0_r. exact Ha.
  - cbn [SFsub] in S.
    pose proof (bounded_facts _ _ Va) as (Hea & _). pose proof (bounded_facts _ _ Vb) as (Heb & _).
    refine (normalize_integer _ (Z.min ea eb) _ _ ltac:(lia) _ Hxy S).
    rewrite Z.mul_sub_distr_r.
    assert (forall s m e, -1074 <= Z.min ea eb <= e ->
              cond_Zopp s (Z.pos (fst (shl_align m e (Z.min ea eb)))) * 2 ^ (Z.min ea eb + 1074)
              = Number.signed s m * 2 ^ (e + 1074)) as K.
    { intros s m e He. pose proof (shl_align_value m e _ He).
      destruct s; cbn [cond_Zopp Number.signed]; lia. }
    rewrite !K by lia. lia.
Qed.

(** Two numbers that are the same integer, not zero, are the same
    number. *)
Lemma toInteger_inj (a b : float) (x : Z) :
  Number.toInteger a = Some x -> Number.toInteger b = Some x -> x <> 0 ->
  a = b.
Proof.
  intros Ha Hb Nx.
  assert (P1 : 0 < 2 ^ 1074) by (apply Z.pow_pos_nonneg; lia).
  pose proof (SFcompare_integers _ _ _ _ Ha Hb) as C. rewrite Z.compare_refl in C.
  apply Prim2SF_inj.
  finite_cases a b Ha Hb; try nia.
  cbn [SFcompare] in C.
  assert (0 < 2 ^ (ea + 1074)) by (apply bounded_facts in Va; apply Z.pow_pos_nonneg; lia).
  assert (0 < 2 ^ (eb + 1074)) by (apply bounded_facts in Vb; apply Z.pow_pos_nonneg; lia).
  destruct sa, sb; cbn [Number.signed] in *; try nia.
  - destruct (Z.compare_spec ea eb); try discriminate. subst eb.
    rewrite Pos.compare_cont_spec in C. cbn [Pos.switch_Eq] in C.
    destruct (Pos.compare_spec ma mb); try discriminate. subst. reflexivity.
  - destruct (Z.compare_spec ea eb); try discriminate. subst eb.
    rewrite Pos.compare_cont_spec in C. cbn [Pos.switch_Eq] in C.
    destruct (Pos.compare_spec ma mb); try discriminate. subst. reflexivity.
Qed.

(** ** [Math.floor], [Math.max], [Math.min] and loops on integers *)

Lemma not_finite_cases (d : float) :
  SFfinite (Prim2SF d) = false -> d = nan \/ d = infinity \/ d = neg_infinity.
Proof.
  intros H. rewrite <- (SF2Prim_Prim2SF d).
  destruct (Prim2SF d) as [s | [|] | | s m e]; try discriminate; cbn; auto.
Qed.

(** [Math.floor d] is [d] itself when [d] is NaN or infinite, and the
    integer [floorZ d] otherwise. *)
Lemma floor_cases (d : float) :
  (SFfinite (Prim2SF d) = false /\ Math.floor d = d)
  \/ exists z, Number.floorZ d = Some z /\ Number.toInteger (Math.floor d) = Some z.
Proof.
  pose proof (Prim2SF_valid d) as V.
  unfold Math.floor, Number.floorZ.
  destruct (Prim2SF d) as [s | s | | s m e] eqn:P; cbn [SFfinite]; auto.
  - right. exists 0. split; [reflexivity|]. exact (toInteger_zero _ _ P).
  - right. cbn [valid_binary] in V. pose proof (bounded_facts _ _ V) as (He & Hm & _).
    eexists. split; [reflexivity|].
    destruct (Z.leb_spec 0 e) as [Hp | Hn].
    + apply (toInteger_spec _ _ _ _ _ P).
      rewrite Z.shiftl_mul_pow2, (Z.pow_add_r 2 e 1074) by lia. ring.
    + apply toInteger_of_Z. rewrite Z.shiftl_div_pow2 by lia.
      assert (HP : 0 < 2 ^ (- e)) by (apply Z.pow_pos_nonneg; lia).
      assert (Z.abs (Number.signed s m) < 2 ^ 53) by (destruct s; cbn [Number.signed]; lia).
      destruct s; cbn [Number.signed] in *.
      * assert (Z.neg m <= Z.neg m / 2 ^ (- e)) by (apply Z.div_le_lower_bound; nia).
        assert (Z.neg m / 2 ^ (- e) <= 0) by (apply Z.div_le_upper_bound; lia).
        lia.
      * assert (0 <= Z.pos m / 2 ^ (- e)) by (apply Z.div_pos; lia).
        assert (Z.pos m / 2 ^ (- e) <= Z.pos m) by (apply Z.div_le_upper_bound; nia).
        lia.
Qed.

Lemma max_integers (a b : float) (x y : Z) :
  Number.toInteger a = Some x -> Number.toInteger b = Some y ->
  Number.toInteger (Math.max a b) = Some (Z.max x y).
Proof.
  intros Ha Hb. unfold Math.max.
  rewrite (is_nan_integer _ _ Ha), (is_nan_integer _ _ Hb). cbn [orb].
  rewrite (ltb_integers _ _ _ _ Ha Hb), (ltb_integers _ _ _ _ Hb Ha).
  destruct (Z.ltb_spec x y); [rewrite Z.max_r by lia; exact Hb|].
  destruct (Z.ltb_spec y x); [rewrite Z.max_l by lia; exact Ha|].
  assert (x = y) by lia. subst y. rewrite Z.max_id.
  destruct (get_sign a); assumption.
Qed.


(** [Math.max(Math.floor(d), 50)] is NaN, [Infinity] or an integer from
    50 on. *)
Lemma max_floor_50_cases (d : float) :
  Math.max (Math.floor d) 50 = nan
  \/ Math.max (Math.floor d) 50 = infinity
  \/ exists k, Number.toInteger (Math.max (Math.floor d) 50) = Some k /\ 50 <= k.
Proof.
  destruct (floor_cases d) as [[F E] | (z & _ & Hz)].
  - rewrite E. destruct (not_finite_cases d F) as [-> | [-> | ->]].
    + left. reflexivity.
    + right. left. reflexivity.
    + right. right. exists 50. split; [reflexivity | lia].
  - right. right. exists (Z.max z 50). split; [| lia].
    apply max_integers; [exact Hz | reflexivity].
Qed.

Lemma ceilZ_integer (n : float) (N : Z) :
  Number.toInteger n = Some N -> Number.ceilZ n = Some N.
Proof.
  unfold Number.toInteger.
  destruct (Number.floorZ n) as [lo|]; [| discriminate].
  destruct (Number.ceilZ n) as [hi|]; [| discriminate].
  destruct (Z.eqb_spec lo hi); [| discriminate]. congruence.
Qed.

Lemma trips_integer (n : float) (N : Z) :
  Number.toInteger n = Some N -> Array.trips n = Some (Z.max 0 N).
Proof.
  intros H. pose proof (ceilZ_integer _ _ H) as C.
  pose proof (toInteger_scaled _ _ H) as [F S].
  pose proof (Prim2SF_valid n) as V.
  assert (P1 : 0 < 2 ^ 1074) by (apply Z.pow_pos_nonneg; lia).
  unfold Array.trips. rewrite C.
  destruct (Prim2SF n) as [s | s | | s m e]; try discriminate; cbn [scaled valid_binary] in *.
  - f_equal. nia.
  - assert (0 < 2 ^ (e + 1074)) by (apply bounded_facts in V; apply Z.pow_pos_nonneg; lia).
    destruct s; cbn [Number.signed] in S; f_equal; nia.
Qed.

Lemma pushes_integer (n : float) (N : Z) :
  Number.toInteger n = Some N -> 0 <= N <= Array.MAX_LENGTH ->
  Array.pushes n = Ok (seq 0 (Z.to_nat N)).
Proof.
  intros H B. unfold Array.pushes. rewrite (trips_integer _ _ H).
  rewrite Z.max_r by lia. destruct (Z.leb_spec N Array.MAX_LENGTH); [reflexivity | lia].
Qed.

Lemma pushes_too_many (n : float) (N : Z) :
  Number.toInteger n = Some N -> Array.MAX_LENGTH < N ->
  Array.pushes n = Throw (RangeError "Invalid array length").
Proof.
  intros H B. unfold Array.pushes. rewrite (trips_integer _ _ H).
  rewrite Z.max_r by (unfold Array.MAX_LENGTH in *; lia).
  destruct (Z.leb_spec N Array.MAX_LENGTH); [lia | reflexivity].
Qed.

Lemma get_integer {A} (a : list A) (i : float) (z : Z) :
  Number.toInteger i = Some z -> 0 <= z ->
  Array.get a i = nth_error a (Z.to_nat z).
Proof.
  intros H Hz. unfold Array.get. rewrite H.
  destruct (Z.ltb_spec z 0); [lia | reflexivity].
Qed.

(** ** Rounding a product *)

Lemma shr_1_nonneg (m : Z) (r s : bool) :
  0 <= m ->
  shr_1 (Build_shr_record m r s) = Build_shr_record (m / 2) (Z.odd m) (r || s).
Proof.
  intros H. rewrite <- Z.div2_div.
  destruct m as [| [p | p |] | p]; try lia; reflexivity.
Qed.

(** After [n >= 1] shifts the mantissa is the quotient by [2^n], and the
    round bit is set only when the remainder is at least half of
    [2^n]. *)
Lemma shr_weak (n : nat) (m : Z) (r s : bool) :
  0 <= m -> (0 < n)%nat ->
  let res := Nat.iter n shr_1 (Build_shr_record m r s) in
  shr_m res = m / 2 ^ Z.of_nat n
  /\ (shr_r res = true -> 2 ^ (Z.of_nat n - 1) <= m mod 2 ^ Z.of_nat n).
Proof.
  intros Hm Hn. induction n as [| n IH]; [lia|].
  destruct (Nat.eq_dec n 0) as [-> | N0].
  - cbn [Nat.iter nat_rect]. rewrite shr_1_nonneg by assumption. cbn [shr_m shr_r].
    change (2 ^ Z.of_nat 1) with 2. change (2 ^ (Z.of_nat 1 - 1)) with 1.
    split; [reflexivity|]. intros O. rewrite Zmod_odd, O. lia.
  - specialize (IH ltac:(lia)). cbv zeta in IH. destruct IH as [IHm IHr].
    cbv zeta. rewrite Nat.iter_succ.
    destruct (Nat.iter n shr_1 (Build_shr_record m r s)) as [mk rk sk] eqn:E.
    cbn [shr_m shr_r] in IHm, IHr.
    assert (P : 0 < 2 ^ Z.of_nat n) by (apply Z.pow_pos_nonneg; lia).
    assert (0 <= mk) by (subst mk; apply Z.div_pos; lia).
    rewrite shr_1_nonneg by assumption. cbn [shr_m shr_r].
    rewrite Nat2Z.inj_succ, Z.pow_succ_r by lia.
    replace (Z.succ (Z.of_nat n) - 1) with (Z.of_nat n) by lia.
    split.
    + subst mk. rewrite Z.div_div by lia. f_equal. ring.
    + intros O. rewrite (Z.mul_comm 2), Z.rem_mul_r by lia.
      rewrite <- IHm, Zmod_odd, O.
      pose proof (Z.mod_pos_bound m (2 ^ Z.of_nat n) P). lia.
Qed.

Lemma round_nearest_even_cases (q : Z) (r s : bool) :
  let m1 := round_nearest_even q (loc_of_shr_record (Build_shr_record q r s)) in
  m1 = q \/ (m1 = q + 1 /\ r = true).
Proof.
  destruct r, s; cbn [loc_of_shr_record round_nearest_even]; auto.
  destruct (Z.even q); auto.
Qed.

Lemma Zdigits2_bounds (m : Z) :
  0 < m -> 2 ^ (Zdigits2 m - 1) <= m < 2 ^ Zdigits2 m.
Proof.
  destruct m as [| p | p]; try lia. intros _. apply digits2_pos_bounds.
Qed.

Lemma Zdigits2_le (m : Z) (d : Z) :
  0 <= d -> 0 <= m < 2 ^ d -> Zdigits2 m <= d.
Proof.
  intros Hd [H0 H]. destruct (Z.eq_dec m 0) as [-> | N]; [cbn; lia|].
  pose proof (Zdigits2_bounds m ltac:(lia)) as [Lo _].
  destruct (Z_le_gt_dec (Zdigits2 m) d); [assumption|].
  assert (2 ^ d <= 2 ^ (Zdigits2 m - 1)) by (apply Z.pow_le_mono_r; lia). lia.
Qed.

(** The second normalisation of [binary_round_aux], on a mantissa of at
    most 53 bits or on [2^53]. *)
Lemma round_aux_second (m1 e1 : Z) :
  0 <= m1 <= 2 ^ 53 -> -1074 <= e1 ->
  (m1 = 2 ^ 53 -> e1 + 1 <= 971) -> e1 <= 971 ->
  let R := (let '(mrs, e) := shr_fexp prec emax m1 e1 loc_Exact in
            match shr_m mrs with
            | Z0 => S754_zero false
            | Zpos m => if e <=? emax - prec then S754_finite false m e
                        else S754_infinity false
            | Zneg _ => S754_nan
            end) in
  SFfinite R = true /\ scaled R = m1 * 2 ^ (e1 + 1074)
  /\ match R with S754_finite s _ _ => s = false | _ => True end.
Proof.
  intros Hm He Htop He1. unfold shr_fexp, fexp, SpecFloat.emin, prec, emax.
  cbn [shr_record_of_loc].
  destruct (Z.eq_dec m1 0) as [-> | N0].
  { cbn [Zdigits2]. replace (Z.max (0 + e1 - 53) (3 - 1024 - 53) - e1) with
      (Z.max (e1 - 53) (-1074) - e1) by lia.
    destruct (Z.max (e1 - 53) (-1074) - e1) eqn:D; try lia; cbn; auto. }
  destruct (Z.eq_dec m1 (2 ^ 53)) as [-> | Ntop].
  { specialize (Htop eq_refl).
    change (2 ^ 53) with 9007199254740992.
    cbn [Zdigits2 digits2_pos Pos.succ].
    replace (Z.max (54 + e1 - 53) (3 - 1024 - 53) - e1) with 1 by lia.
    cbn [shr iter_pos shr_1 shr_m orb].
    destruct (Z.leb_spec (e1 + 1) (1024 - 53)); [| lia].
    cbn [SFfinite scaled Number.signed]. split; [reflexivity|]. split; [| reflexivity].
    replace (e1 + 1 + 1074) with (Z.succ (e1 + 1074)) by lia.
    rewrite Z.pow_succ_r by lia. lia. }
  assert (Hd : Zdigits2 m1 <= 53) by (apply Zdigits2_le; lia).
  destruct (Z.max (Zdigits2 m1 + e1 - 53) (3 - 1024 - 53) - e1) eqn:D; try lia.
  - cbn [shr shr_m]. destruct m1 as [| p | p]; try lia.
    destruct (Z.leb_spec e1 (1024 - 53)); [| lia].
    cbn [SFfinite scaled Number.signed]. auto.
  - cbn [shr shr_m]. destruct m1 as [| p' | p']; try lia.
    destruct (Z.leb_spec e1 (1024 - 53)); [| lia].
    cbn [SFfinite scaled Number.signed]. auto.
Qed.

(** The first normalisation: nothing is shifted out when the mantissa
    fits, and else the quotient is rounded to nearest. *)
Lemma round_aux_shape (P : positive) (E : Z) :
  let e1 := fexp prec emax (Z.pos (digits2_pos P) + E) in
  exists m1,
    binary_round_aux prec emax false (Z.pos P) E loc_Exact
    = secondStage m1 (Z.max e1 E)
    /\ (e1 <= E -> m1 = Z.pos P)
    /\ (E < e1 ->
        m1 = Z.pos P / 2 ^ (e1 - E)
        \/ (m1 = Z.pos P / 2 ^ (e1 - E) + 1
            /\ 2 ^ (e1 - E - 1) <= Z.pos P mod 2 ^ (e1 - E))).
Proof.
  intros e1. unfold binary_round_aux, secondStage.
  unfold shr_fexp at 1. cbn [Zdigits2 shr_record_of_loc]. fold e1.
  destruct (e1 - E) as [| n | n] eqn:D; cbn [shr].
  - exists (Z.pos P). cbn [shr_m loc_of_shr_record round_nearest_even].
    replace (Z.max e1 E) with E by lia. split; [reflexivity|]. split; [auto | lia].
  - rewrite iter_pos_nat.
    pose proof (shr_weak (Pos.to_nat n) (Z.pos P) false false ltac:(lia) ltac:(lia)) as W.
    cbv zeta in W. rewrite positive_nat_Z in W.
    destruct (Nat.iter (Pos.to_nat n) shr_1 _) as [q r s].
    cbn [shr_m shr_r] in W. destruct W as [Wq Wr].
    exists (round_nearest_even q (loc_of_shr_record (Build_shr_record q r s))).
    replace (Z.max e1 E) with (E + Z.pos n) by lia.
    cbn [shr_m]. split; [reflexivity|]. split; [lia|]. intros _.
    destruct (round_nearest_even_cases q r s) as [-> | [-> R]]; subst q; auto.
  - exists (Z.pos P). cbn [shr_m loc_of_shr_record round_nearest_even].
    replace (Z.max e1 E) with E by lia. split; [reflexivity|]. split; [auto | lia].
Qed.

Lemma pow2_pos (k : Z) : 0 <= k -> 0 < 2 ^ k.
Proof. intros. apply Z.pow_pos_nonneg; lia. Qed.

Lemma pow2_split (a b : Z) : 0 <= a -> 0 <= b -> 2 ^ (a + b) = 2 ^ a * 2 ^ b.
Proof. intros. apply Z.pow_add_r; assumption. Qed.

(** The product of a number [u < 1] and a number [w >= 1] rounds to a
    number below [w]. *)
Lemma mul_below (mu : positive) (eu : Z) (mw : positive) (ew : Z) :
  bounded prec emax mu eu = true -> bounded prec emax mw ew = true ->
  Z.pos mu * 2 ^ (eu + 1074) < 2 ^ 1074 ->
  2 ^ 52 <= Z.pos mw -> -52 <= ew ->
  let R := binary_round_aux prec emax false (Z.pos (mu * mw)) (eu + ew) loc_Exact in
  SFfinite R = true
  /\ 0 <= scaled R < Z.pos mw * 2 ^ (ew + 1074)
  /\ match R with S754_finite s _ _ => s = false | _ => True end.
Proof.
  intros Bu Bw Hu Hw Hew.
  pose proof (bounded_facts _ _ Bu) as (Heu & Hmu & _).
  pose proof (bounded_facts _ _ Bw) as (Hew' & Hmw & _).
  (* u < 1 *)
  assert (Eneg : eu < 0).
  { destruct (Z_lt_le_dec eu 0); [assumption|]. exfalso.
    assert (2 ^ 1074 <= 2 ^ (eu + 1074)) by (apply Z.pow_le_mono_r; lia).
    pose proof (pow2_pos (eu + 1074) ltac:(lia)).
    assert (1 * 2 ^ (eu + 1074) <= Z.pos mu * 2 ^ (eu + 1074)).
    { apply Z.mul_le_mono_nonneg_r; [apply Z.lt_le_incl; assumption|].
      clear; lia. }
    clear - H H1 Hu. set (X := 2 ^ (eu + 1074)) in *. lia. }
  assert (Mu : Z.pos mu < 2 ^ (- eu)).
  { assert (S : 2 ^ 1074 = 2 ^ (- eu) * 2 ^ (eu + 1074)).
    { rewrite <- pow2_split by lia. f_equal. lia. }
    rewrite S in Hu.
    pose proof (pow2_pos (eu + 1074) ltac:(lia)).
    apply Z.mul_lt_mono_pos_r in Hu; assumption. }
  set (P := (mu * mw)%positive). set (E := eu + ew).
  assert (EP : Z.pos P = Z.pos mu * Z.pos mw) by reflexivity.
  pose proof (digits2_pos_bounds P) as [DLo DHi].
  set (dP := Z.pos (digits2_pos P)) in *.
  pose proof (pow2_pos (- eu) ltac:(lia)) as Pu.
  assert (D53 : 53 <= dP).
  { destruct (Z_le_gt_dec 53 dP); [assumption|]. exfalso.
    assert (2 ^ dP <= 2 ^ 52) by (apply Z.pow_le_mono_r; lia). nia. }
  assert (Dup : dP <= 53 - eu).
  { destruct (Z_le_gt_dec dP (53 - eu)); [assumption|]. exfalso.
    assert (2 ^ (53 - eu) <= 2 ^ (dP - 1)) by (apply Z.pow_le_mono_r; lia).
    assert (S : 2 ^ (53 - eu) = 2 ^ 53 * 2 ^ (- eu)).
    { rewrite <- pow2_split by lia. f_equal. }
    assert (Z.pos mu * Z.pos mw < 2 ^ (- eu) * 2 ^ 53).
    { apply Z.mul_lt_mono_nonneg; lia. }
    unfold dP in *. lia. }
  destruct (round_aux_shape P E) as (m1 & -> & Hfit & Hshift).
  fold dP in Hfit, Hshift |- *.
  unfold fexp, SpecFloat.emin, prec, emax in Hfit, Hshift |- *.
  replace (3 - 1024 - 53) with (-1074) in * by lia.
  set (e1 := Z.max (dP + E - 53) (-1074)) in *.
  assert (E1w : e1 <= ew) by (unfold e1, E; lia).
  assert (E1E : E <= e1) by (unfold e1, E; lia).
  replace (Z.max e1 E) with e1 by lia.
  set (Wu := Z.pos mw * 2 ^ (ew - e1)).
  pose proof (pow2_pos (ew - e1) ltac:(lia)) as Pwe.
  pose proof (pow2_pos (e1 + 1074) ltac:(unfold e1; lia)) as Pe1.
  assert (Wscaled : Z.pos mw * 2 ^ (ew + 1074) = Wu * 2 ^ (e1 + 1074)).
  { unfold Wu. rewrite <- Z.mul_assoc, <- pow2_split by (unfold e1; lia).
    f_equal. f_equal. lia. }
  assert (Key : m1 <= Wu - 1 /\ 0 <= m1 <= 2 ^ 53).
  { destruct (Z.eq_dec e1 E) as [EQ | NE].
    - (* nothing is shifted out *)
      rewrite (Hfit ltac:(lia)).
      assert (dP = 53) by (unfold e1 in EQ; lia).
      assert (Z.pos P < 2 ^ 53) by (replace 53 with dP by lia; assumption).
      split; [| lia].
      assert (Wu = Z.pos mw * 2 ^ (- eu)).
      { unfold Wu. f_equal. f_equal. unfold E in EQ. lia. }
      nia.
    - set (n := e1 - E) in *. assert (Hn : 0 < n) by (unfold n; lia).
      pose proof (pow2_pos n ltac:(lia)) as Pn.
      assert (WuN : Wu * 2 ^ n = Z.pos mw * 2 ^ (- eu)).
      { unfold Wu. rewrite <- Z.mul_assoc, <- pow2_split by lia.
        f_equal. f_equal. unfold n, E. lia. }
      assert (Pup : Z.pos P <= Wu * 2 ^ n - Z.pos mw) by (rewrite WuN; nia).
      assert (Q1 : Z.pos P / 2 ^ n <= Wu - 1).
      { assert (Z.pos P / 2 ^ n < Wu); [| lia].
        apply Z.div_lt_upper_bound; [lia | nia]. }
      assert (Q53 : Z.pos P / 2 ^ n < 2 ^ 53).
      { apply Z.div_lt_upper_bound; [lia|].
        assert (2 ^ dP <= 2 ^ (n + 53)) by (apply Z.pow_le_mono_r; unfold n, e1; lia).
        rewrite pow2_split in * by lia. nia. }
      assert (Q0 : 0 <= Z.pos P / 2 ^ n) by (apply Z.div_pos; lia).
      destruct (Hshift ltac:(lia)) as [-> | [-> Hrem]]; [lia|].
      split; [| lia].
      destruct (Z.eq_dec (Z.pos P / 2 ^ n) (Wu - 1)) as [Top | NTop]; [| lia].
      exfalso.
      pose proof (Z.div_mod (Z.pos P) (2 ^ n) ltac:(lia)) as DM.
      rewrite Top in DM.
      assert (Hhalf : 2 * 2 ^ (n - 1) = 2 ^ n).
      { rewrite <- Z.pow_succ_r by lia. f_equal. lia. }
      assert (MW : Z.pos mw <= 2 ^ (n - 1)) by nia.
      destruct (Z_le_gt_dec (-1074) (dP + E - 53)) as [Nrm | Sub].
      + (* a normal result *)
        assert (n = dP - 53) by (unfold n, e1; lia).
        assert (Z.pos P < 2 ^ 53 * 2 ^ (n - 1)) by nia.
        assert (2 ^ (dP - 1) = 2 ^ 53 * 2 ^ (n - 1)).
        { rewrite <- pow2_split by lia. f_equal. lia. }
        lia.
      + (* a subnormal result *)
        assert (e1 = -1074) by (unfold e1; lia).
        assert (2 ^ dP <= 2 ^ (52 + n)) by (apply Z.pow_le_mono_r; unfold n; lia).
        rewrite pow2_split in * by lia.
        assert (Z.pos P / 2 ^ n < 2 ^ 52).
        { apply Z.div_lt_upper_bound; [lia | nia]. }
        assert (2 ^ 1 <= 2 ^ (ew - e1)) by (apply Z.pow_le_mono_r; lia).
        change (2 ^ 1) with 2 in *. unfold Wu in Top. nia. }
  destruct Key as [K1 K2].
  assert (Top53 : m1 = 2 ^ 53 -> e1 + 1 <= 971).
  { intros ->. destruct (Z.eq_dec ew e1) as [EQ | NE]; [| lia].
    exfalso. unfold Wu in K1. rewrite EQ, Z.sub_diag in K1.
    change (2 ^ 0) with 1 in K1. lia. }
  pose proof (round_aux_second m1 e1 K2 ltac:(unfold e1; lia) Top53 ltac:(lia)) as S.
  cbv zeta in S. fold (secondStage m1 e1) in S. destruct S as (SF & SS & Sg).
  split; [exact SF|]. split; [| exact Sg].
  rewrite SS, Wscaled. nia.
Qed.

(** ** Draws of [Math.random()] and what [randomFromRange] makes of them *)

Lemma pow2_sum (c a b : Z) :
  0 <= a -> 0 <= b -> c = a + b -> 2 ^ c = 2 ^ a * 2 ^ b.
Proof. intros ? ? ->. apply pow2_split; assumption. Qed.

Lemma scaled_one :
  scaled (S754_finite false 4503599627370496 (-52)) = 2 ^ 1074.
Proof. vm_compute. reflexivity. Qed.

(** A draw [0 <= u < 1] is a zero or a positive number below 1. *)
Lemma unit_draw (u : float) :
  (0 <=? u)%float = true -> (u <? 1)%float = true ->
  match Prim2SF u with
  | S754_zero _ => True
  | S754_finite s m e => s = false /\ Z.pos m * 2 ^ (e + 1074) < 2 ^ 1074
  | _ => False
  end.
Proof.
  rewrite leb_spec, ltb_spec. unfold SFleb, SFltb.
  pose proof (Prim2SF_valid u) as V.
  change (Prim2SF 0) with (S754_zero false).
  change (Prim2SF 1) with (S754_finite false 4503599627370496 (-52)).
  destruct (Prim2SF u) as [s | [|] | | s m e];
    try (cbn [SFcompare]; try discriminate; auto; fail).
  intros U0 U1.
  assert (Hs : s = false) by (destruct s; [discriminate U0 | reflexivity]).
  subst s. split; [reflexivity|].
  rewrite SFcompare_scaled in U1 by (try exact V; reflexivity).
  rewrite scaled_one in U1. cbn [scaled Number.signed] in U1.
  destruct (Z.compare_spec (Z.pos m * 2 ^ (e + 1074)) (2 ^ 1074));
    try discriminate U1; assumption.
Qed.

(** A number that holds an integer [W >= 1] is normal, with an exponent
    of -52 at the least. *)
Lemma integer_shape (w : float) (W : Z) :
  Number.toInteger w = Some W -> 1 <= W ->
  exists mw ew,
    Prim2SF w = S754_finite false mw ew
    /\ bounded prec emax mw ew = true
    /\ 2 ^ 52 <= Z.pos mw /\ -52 <= ew
    /\ Z.pos mw * 2 ^ (ew + 1074) = W * 2 ^ 1074.
Proof.
  intros H HW. pose proof (Prim2SF_valid w) as V.
  apply toInteger_scaled in H as [F S].
  assert (P1074 : 0 < 2 ^ 1074) by (apply pow2_pos; lia).
  assert (PW : 2 ^ 1074 <= W * 2 ^ 1074).
  { rewrite <- (Z.mul_1_l (2 ^ 1074)) at 1.
    apply Z.mul_le_mono_nonneg_r; lia. }
  destruct (Prim2SF w) as [s | s | | s m e]; try discriminate F;
    cbn [scaled] in S.
  - exfalso. rewrite <- S in PW. lia.
  - cbn [valid_binary] in V. pose proof (bounded_facts _ _ V) as (He & Hm & Hn).
    pose proof (pow2_pos (e + 1074) ltac:(lia)) as Pe.
    destruct s; cbn [Number.signed] in S.
    + exfalso. assert (Z.neg m * 2 ^ (e + 1074) < 0) by (apply Z.mul_neg_pos; lia).
      rewrite S in *. lia.
    + exists m, e. split; [reflexivity|]. split; [exact V|].
      assert (E52 : -52 <= e).
      { destruct (Z_le_gt_dec (-52) e); [assumption|]. exfalso.
        assert (2 ^ (e + 1074) <= 2 ^ 1021) by (apply Z.pow_le_mono_r; lia).
        assert (Z.pos m * 2 ^ (e + 1074) < 2 ^ 53 * 2 ^ 1021).
        { apply Z.le_lt_trans with (Z.pos m * 2 ^ 1021).
          - apply Z.mul_le_mono_nonneg_l; [clear; lia | assumption].
          - apply Z.mul_lt_mono_pos_r; [apply pow2_pos; lia | assumption]. }
        rewrite <- (pow2_sum 1074 53 1021) in * by lia.
        rewrite S in *. apply (Z.lt_irrefl (2 ^ 1074)).
        eapply Z.le_lt_trans; eassumption. }
      repeat split; try assumption. apply Hn. lia.
Qed.

(** [floor(u * w)] for a draw [0 <= u < 1] and an integer [w >= 1] is an
    integer of [0 .. w - 1]: the rounding of the product never reaches
    [w]. *)
Lemma floor_unit_product (u w : float) (W : Z) :
  (0 <=? u)%float = true -> (u <? 1)%float = true ->
  Number.toInteger w = Some W -> 1 <= W ->
  exists j, Number.toInteger (Math.floor (u * w)) = Some j /\ 0 <= j < W.
Proof.
  intros U0 U1 Hw HW.
  pose proof (unit_draw u U0 U1) as Hu.
  destruct (integer_shape w W Hw HW) as (mw & ew & Pw & Bw & M52 & E52 & Sw).
  pose proof (Prim2SF_valid u) as Vu.
  pose proof (mul_spec u w) as M. unfold SF64mul in M. rewrite Pw in M.
  destruct (Prim2SF u) as [su | su | | su mu eu] eqn:Pu; try contradiction.
  - (* u = 0 *)
    cbn [SFmul] in M. exists 0. split; [| lia].
    unfold Math.floor. rewrite M. exact (toInteger_zero _ _ M).
  - destruct Hu as [-> Hu]. cbn [SFmul xorb] in M. cbn [valid_binary] in Vu.
    destruct (mul_below mu eu mw ew Vu Bw Hu M52 E52) as (RF & RS & Rsg).
    rewrite <- M in RF, RS, Rsg. rewrite Sw in RS.
    pose proof (Prim2SF_valid (u * w)) as VR.
    destruct (floor_cases (u * w)) as [[NF _] | (z & Fz & Tz)];
      [rewrite RF in NF; discriminate|].
    exists z. split; [exact Tz|].
    unfold Number.floorZ in Fz.
    destruct (Prim2SF (u * w)) as [s | s | | s m e]; try discriminate RF.
    + injection Fz as <-. lia.
    + subst s. injection Fz as <-. cbn [Number.signed scaled] in *.
      cbn [valid_binary] in VR. pose proof (bounded_facts _ _ VR) as (He & _ & _).
      destruct RS as [_ RS].
      assert (P1074 : 0 < 2 ^ 1074) by (apply pow2_pos; lia).
      destruct (Z_le_gt_dec 0 e) as [Hp | Hn].
      * rewrite Z.shiftl_mul_pow2 by lia.
        pose proof (pow2_pos e Hp) as Pe.
        rewrite (pow2_split e 1074), Z.mul_assoc in RS by lia.
        apply Z.mul_lt_mono_pos_r in RS; [| assumption].
        split; [| exact RS]. apply Z.mul_nonneg_nonneg; lia.
      * rewrite Z.shiftl_div_pow2 by lia.
        pose proof (pow2_pos (- e) ltac:(lia)) as Pe.
        pose proof (pow2_pos (e + 1074) ltac:(lia)) as Pe'.
        assert (S : 2 ^ 1074 = 2 ^ (- e) * 2 ^ (e + 1074)).
        { rewrite <- pow2_split by lia. f_equal. lia. }
        rewrite S, Z.mul_assoc in RS.
        apply Z.mul_lt_mono_pos_r in RS; [| assumption].
        split; [apply Z.div_pos; lia|].
        apply Z.div_lt_upper_bound; [assumption|].
        rewrite Z.mul_comm. exact RS.
Qed.

Lemma toInteger_one : Number.toInteger 1 = Some 1.
Proof. vm_compute. reflexivity. Qed.

Lemma toInteger_zero' : Number.toInteger 0 = Some 0.
Proof. vm_compute. reflexivity. Qed.

(** [floor(u * (hi - lo + 1)) + lo] for integers [lo <= hi] and a draw
    [0 <= u < 1] is an integer of [lo .. hi]. *)
Lemma range_draw (u lo hi : float) (L R : Z) :
  (0 <=? u)%float = true -> (u <? 1)%float = true ->
  Number.toInteger lo = Some L -> Number.toInteger hi = Some R -> L <= R ->
  Z.abs L < 2 ^ 52 -> Z.abs R < 2 ^ 52 ->
  exists j,
    Number.toInteger (Math.floor (u * (hi - lo + 1)) + lo)%float = Some j
    /\ L <= j <= R.
Proof.
  intros U0 U1 HL HR LR BL BR.
  assert (B52 : 2 ^ 53 = 2 * 2 ^ 52) by reflexivity.
  pose proof (sub_integers hi lo R L HR HL ltac:(lia)) as D.
  pose proof (add_integers _ _ _ _ D toInteger_one ltac:(lia)) as W.
  destruct (floor_unit_product u _ _ U0 U1 W ltac:(lia)) as (j & Hj & Bj).
  exists (j + L). split; [| lia].
  apply add_integers; [exact Hj | exact HL | lia].
Qed.

(** ** The order of numbers *)

Lemma SFcompare_antisym (x y : spec_float) :
  SFcompare y x = match SFcompare x y with
                  | Some c => Some (CompOpp c)
                  | None => None
                  end.
Proof.
  destruct x as [sx | sx | | sx mx ex], y as [sy | sy | | sy my ey];
    try destruct sx; try destruct sy; cbn [SFcompare CompOpp]; try reflexivity.
  - rewrite (Z.compare_antisym ex ey).
    destruct (ex ?= ey); cbn [CompOpp]; try reflexivity.
    pose proof (Pos.compare_cont_antisym mx my Eq) as A. cbn [CompOpp] in A.
    rewrite <- A. destruct (Pos.compare_cont Eq mx my); reflexivity.
  - rewrite (Z.compare_antisym ex ey).
    destruct (ex ?= ey); cbn [CompOpp]; try reflexivity.
    pose proof (Pos.compare_cont_antisym mx my Eq) as A. cbn [CompOpp] in A.
    rewrite <- A. reflexivity.
Qed.

(** [a <= b] excludes [a > b]. *)
Lemma leb_not_gt (a b : float) :
  (a <=? b)%float = true -> (b <? a)%float = false.
Proof.
  rewrite leb_spec, ltb_spec. unfold SFleb, SFltb.
  rewrite (SFcompare_antisym (Prim2SF a) (Prim2SF b)).
  destruct (SFcompare (Prim2SF a) (Prim2SF b)) as [[| |] |]; cbn [CompOpp];
    congruence.
Qed.

Lemma SFcompare_refl (x : spec_float) :
  x <> S754_nan -> SFcompare x x = Some Eq.
Proof.
  destruct x as [s | s | | s m e]; try congruence; intros _; cbn [SFcompare].
  - reflexivity.
  - destruct s; reflexivity.
  - rewrite Z.compare_refl. fold (Pos.compare m m). rewrite Pos.compare_refl.
    destruct s; reflexivity.
Qed.

(** ** Rounding against a representable bound

    [binary_round_aux] on a positive mantissa [P] at exponent [E], when
    no shift to the left is due ([E] is at most the exponent [fexp]
    assigns to the number): the mantissa is divided by [2^n] and the
    quotient is kept or increased by one. *)

Lemma round_aux_aligned (P : positive) (E : Z) :
  let e1 := fexp prec emax (Z.pos (digits2_pos P) + E) in
  E <= e1 ->
  exists m1,
    binary_round_aux prec emax false (Z.pos P) E loc_Exact = secondStage m1 e1
    /\ (m1 = Z.pos P / 2 ^ (e1 - E)
        \/ (m1 = Z.pos P / 2 ^ (e1 - E) + 1
            /\ 0 < Z.pos P mod 2 ^ (e1 - E))).
Proof.
  intros e1 A. destruct (round_aux_shape P E) as (m1 & R & Fit & Shift).
  fold e1 in R, Fit, Shift. exists m1.
  replace (Z.max e1 E) with e1 in R by lia. split; [exact R|].
  destruct (Z.eq_dec e1 E) as [EQ | NE].
  - left. rewrite (Fit ltac:(lia)), EQ, Z.sub_diag.
    change (2 ^ 0) with 1. rewrite Z.div_1_r. reflexivity.
  - destruct (Shift ltac:(lia)) as [-> | [-> H]]; [left; reflexivity|].
    right. split; [reflexivity|].
    pose proof (pow2_pos (e1 - E - 1) ltac:(lia)). lia.
Qed.

(** The quotient has at most 53 bits, and exactly 53 when the number is
    normal. *)
Lemma quotient_bounds (P : positive) (E : Z) :
  let e1 := fexp prec emax (Z.pos (digits2_pos P) + E) in
  E <= e1 ->
  0 <= Z.pos P / 2 ^ (e1 - E) < 2 ^ 53
  /\ (-1074 < e1 -> 2 ^ 52 <= Z.pos P / 2 ^ (e1 - E))
  /\ -1074 <= e1.
Proof.
  intros e1 A. pose proof (digits2_pos_bounds P) as [DLo DHi].
  set (dP := Z.pos (digits2_pos P)) in *.
  assert (He1 : e1 = Z.max (dP + E - 53) (-1074)) by reflexivity.
  set (n := e1 - E). assert (Hn : 0 <= n) by (unfold n; lia).
  pose proof (pow2_pos n Hn) as Pn.
  split; [split|split].
  - apply Z.div_pos; lia.
  - apply Z.div_lt_upper_bound; [assumption|].
    assert (2 ^ dP <= 2 ^ (n + 53)) by (apply Z.pow_le_mono_r; unfold n; lia).
    rewrite (pow2_split n 53) in * by lia. lia.
  - intros Nrm. assert (Hd : n = dP - 53) by (unfold n; lia).
    apply Z.div_le_lower_bound; [assumption|].
    rewrite <- pow2_split by lia. replace (n + 52) with (dP - 1) by lia. exact DLo.
  - lia.
Qed.

(** What the second normalisation returns. *)
Lemma secondStage_cases (m1 e1 : Z) :
  0 <= m1 <= 2 ^ 53 -> -1074 <= e1 ->
  (secondStage m1 e1 = S754_infinity false
   /\ 0 < m1 /\ (971 < e1 \/ (m1 = 2 ^ 53 /\ e1 = 971)))
  \/ (SFfinite (secondStage m1 e1) = true
      /\ scaled (secondStage m1 e1) = m1 * 2 ^ (e1 + 1074)
      /\ match secondStage m1 e1 with
         | S754_finite s _ _ => s = false
         | _ => True
         end).
Proof.
  intros Hm He.
  destruct (Z.eq_dec m1 0) as [-> | N0].
  { right. unfold secondStage, shr_fexp, fexp, SpecFloat.emin, prec, emax.
    cbn [Zdigits2 shr_record_of_loc].
    destruct (Z.max (0 + e1 - 53) (3 - 1024 - 53) - e1) eqn:D; try lia; cbn; auto. }
  destruct (Z_le_gt_dec e1 971) as [Le | Gt].
  - destruct (Z.eq_dec m1 (2 ^ 53)) as [Top | NTop].
    + destruct (Z.eq_dec e1 971) as [-> | Ne].
      * left. subst m1. split; [vm_compute; reflexivity|]. split; [lia | auto].
      * right. apply (round_aux_second m1 e1); lia.
    + right. apply (round_aux_second m1 e1); lia.
  - left. split; [| split; [lia | left; lia]].
    unfold secondStage, shr_fexp, fexp, SpecFloat.emin, prec, emax.
    cbn [shr_record_of_loc].
    destruct (Z.eq_dec m1 (2 ^ 53)) as [-> | NTop].
    + change (2 ^ 53) with 9007199254740992.
      cbn [Zdigits2 digits2_pos Pos.succ].
      replace (Z.max (54 + e1 - 53) (3 - 1024 - 53) - e1) with 1 by lia.
      cbn [shr iter_pos shr_1 shr_m orb].
      destruct (Z.leb_spec (e1 + 1) (1024 - 53)); [lia | reflexivity].
    + assert (Hd : Zdigits2 m1 <= 53) by (apply Zdigits2_le; lia).
      destruct (Z.max (Zdigits2 m1 + e1 - 53) (3 - 1024 - 53) - e1) eqn:D; try lia.
      * cbn [shr shr_m]. destruct m1 as [| p | p]; try lia.
        destruct (Z.leb_spec e1 (1024 - 53)); [lia | reflexivity].
      * cbn [shr shr_m]. destruct m1 as [| p' | p']; try lia.
        destruct (Z.leb_spec e1 (1024 - 53)); [lia | reflexivity].
Qed.

(** A representable positive number [mc * 2^ec] that is at most the exact
    value [P * 2^E] is at most its rounding (values are compared in units
    of [2^-K], for a [K] that makes every exponent non-negative). *)
Lemma round_aux_lower (P : positive) (E : Z) (mc : positive) (ec K : Z) :
  E <= fexp prec emax (Z.pos (digits2_pos P) + E) ->
  bounded prec emax mc ec = true -> 0 <= E + K -> 1074 <= K ->
  Z.pos mc * 2 ^ (ec + K) <= Z.pos P * 2 ^ (E + K) ->
  let R := binary_round_aux prec emax false (Z.pos P) E loc_Exact in
  R = S754_infinity false
  \/ (SFfinite R = true /\ Z.pos mc * 2 ^ (ec + 1074) <= scaled R
      /\ match R with S754_finite s _ _ => s = false | _ => True end).
Proof.
  intros A Bc HK K1074 Le R. subst R.
  destruct (round_aux_aligned P E A) as (m1 & -> & Hm1).
  destruct (quotient_bounds P E A) as ((Q0 & Q53) & Qnorm & He1).
  set (e1 := fexp prec emax (Z.pos (digits2_pos P) + E)) in *.
  set (n := e1 - E) in *. assert (Hn : 0 <= n) by (unfold n; lia).
  set (q := Z.pos P / 2 ^ n) in *.
  assert (Hq : q <= m1 <= q + 1) by (destruct Hm1 as [-> | [-> _]]; lia).
  destruct (secondStage_cases m1 e1 ltac:(lia) He1) as [[Inf _] | (F & S & Sg)];
    [left; exact Inf | right].
  split; [exact F|]. split; [| exact Sg]. rewrite S.
  pose proof (bounded_facts _ _ Bc) as (Hec & Hmc & Hcn).
  pose proof (pow2_pos (e1 + 1074) ltac:(lia)) as Pe1.
  pose proof (pow2_pos n Hn) as Pn.
  destruct (Z_le_gt_dec e1 ec) as [Hle | Hgt].
  - (* the bound is a multiple of the result's unit *)
    pose proof (pow2_pos (ec - e1) ltac:(lia)) as Pd.
    assert (C : Z.pos mc * 2 ^ (ec - e1) <= q).
    { apply Z.div_le_lower_bound; [exact Pn|].
      pose proof (pow2_pos (E + K) HK) as PEK.
      assert (S1 : 2 ^ (ec + K) = 2 ^ (ec - e1) * (2 ^ n * 2 ^ (E + K))).
      { rewrite <- !pow2_split by lia. f_equal. unfold n. lia. }
      rewrite S1 in Le.
      apply (Z.mul_le_mono_pos_r _ _ (2 ^ (E + K))); [exact PEK|].
      replace (2 ^ n * (Z.pos mc * 2 ^ (ec - e1)) * 2 ^ (E + K))
        with (Z.pos mc * (2 ^ (ec - e1) * (2 ^ n * 2 ^ (E + K)))) by ring.
      exact Le. }
    replace (ec + 1074) with ((ec - e1) + (e1 + 1074)) by lia.
    rewrite (pow2_split (ec - e1) (e1 + 1074)), Z.mul_assoc by lia.
    apply Z.mul_le_mono_nonneg_r; lia.
  - (* the result is normal and above every number of a smaller exponent *)
    specialize (Qnorm ltac:(lia)). fold n q in Qnorm.
    assert (2 ^ (ec + 1074) * 2 <= 2 ^ (e1 + 1074)).
    { rewrite Z.mul_comm, <- (Z.pow_succ_r 2 (ec + 1074)) by lia.
      apply Z.pow_le_mono_r; lia. }
    pose proof (pow2_pos (ec + 1074) ltac:(lia)) as Pec.
    apply Z.le_trans with (2 ^ 52 * 2 ^ (e1 + 1074)).
    + apply Z.le_trans with (2 ^ 53 * 2 ^ (ec + 1074)).
      * apply Z.mul_le_mono_nonneg_r; lia.
      * change (2 ^ 53) with (2 ^ 52 * 2). rewrite <- Z.mul_assoc.
        apply Z.mul_le_mono_nonneg_l; [lia|]. rewrite Z.mul_comm. assumption.
    + apply Z.mul_le_mono_nonneg_r; lia.
Qed.

(** A representable positive number that is at least the exact value is
    at least its rounding, which is finite then. *)
Lemma round_aux_upper (P : positive) (E : Z) (mc : positive) (ec K : Z) :
  E <= fexp prec emax (Z.pos (digits2_pos P) + E) ->
  bounded prec emax mc ec = true -> 0 <= E + K -> 1074 <= K ->
  Z.pos P * 2 ^ (E + K) <= Z.pos mc * 2 ^ (ec + K) ->
  let R := binary_round_aux prec emax false (Z.pos P) E loc_Exact in
  SFfinite R = true /\ scaled R <= Z.pos mc * 2 ^ (ec + 1074)
  /\ match R with S754_finite s _ _ => s = false | _ => True end.
Proof.
  intros A Bc HK K1074 Le R. subst R.
  destruct (round_aux_aligned P E A) as (m1 & -> & Hm1).
  destruct (quotient_bounds P E A) as ((Q0 & Q53) & Qnorm & He1).
  set (e1 := fexp prec emax (Z.pos (digits2_pos P) + E)) in *.
  set (n := e1 - E) in *. assert (Hn : 0 <= n) by (unfold n; lia).
  set (q := Z.pos P / 2 ^ n) in *.
  pose proof (bounded_facts _ _ Bc) as (Hec & Hmc & Hcn).
  pose proof (pow2_pos n Hn) as Pn.
  pose proof (pow2_pos (E + K) HK) as PEK.
  pose proof (pow2_pos (ec + K) ltac:(lia)) as PcK.
  pose proof (Z.mul_div_le (Z.pos P) (2 ^ n) Pn) as QP. fold q in QP.
  destruct (Z_le_gt_dec e1 ec) as [Hle | Hgt].
  2:{ (* a number of a smaller exponent is below the exact value *)
    exfalso. specialize (Qnorm ltac:(lia)). fold n q in Qnorm.
    assert (S1 : 2 ^ (e1 + K) = 2 ^ n * 2 ^ (E + K)).
    { rewrite <- pow2_split by lia. f_equal. unfold n. lia. }
    assert (S2 : 2 ^ (ec + K) * 2 <= 2 ^ (e1 + K)).
    { rewrite Z.mul_comm, <- (Z.pow_succ_r 2 (ec + K)) by lia.
      apply Z.pow_le_mono_r; lia. }
    assert (B1 : 2 ^ 52 * 2 ^ (e1 + K) <= Z.pos P * 2 ^ (E + K)).
    { rewrite S1, Z.mul_assoc. apply Z.mul_le_mono_nonneg_r; [lia|].
      apply Z.le_trans with (2 ^ n * q); [| exact QP].
      rewrite (Z.mul_comm (2 ^ 52)). apply Z.mul_le_mono_nonneg_l; lia. }
    assert (B2 : Z.pos mc * 2 ^ (ec + K) < 2 ^ 53 * 2 ^ (ec + K))
      by (apply Z.mul_lt_mono_pos_r; assumption).
    assert (B3 : 2 ^ 53 * 2 ^ (ec + K) <= 2 ^ 52 * 2 ^ (e1 + K)).
    { change (2 ^ 53) with (2 ^ 52 * 2). rewrite <- Z.mul_assoc.
      apply Z.mul_le_mono_nonneg_l; [lia|]. rewrite Z.mul_comm. exact S2. }
    apply (Z.lt_irrefl (Z.pos mc * 2 ^ (ec + K))).
    eapply Z.lt_le_trans; [exact B2|].
    eapply Z.le_trans; [exact B3|]. eapply Z.le_trans; [exact B1 | exact Le]. }
  pose proof (pow2_pos (ec - e1) ltac:(lia)) as Pd.
  set (C := Z.pos mc * 2 ^ (ec - e1)).
  assert (PC : Z.pos P <= 2 ^ n * C).
  { assert (S1 : 2 ^ (ec + K) = 2 ^ (ec - e1) * (2 ^ n * 2 ^ (E + K))).
    { rewrite <- !pow2_split by lia. f_equal. unfold n. lia. }
    rewrite S1 in Le.
    apply (Z.mul_le_mono_pos_r _ _ (2 ^ (E + K))); [exact PEK|].
    unfold C.
    replace (2 ^ n * (Z.pos mc * 2 ^ (ec - e1)) * 2 ^ (E + K))
      with (Z.pos mc * (2 ^ (ec - e1) * (2 ^ n * 2 ^ (E + K)))) by ring.
    exact Le. }
  assert (M1 : 0 <= m1 <= C).
  { destruct Hm1 as [-> | [-> Rem]].
    - split; [exact Q0|]. apply Z.div_le_upper_bound; assumption.
    - split; [lia|].
      pose proof (Z.div_mod (Z.pos P) (2 ^ n) ltac:(lia)) as DM. fold q in DM.
      assert (2 ^ n * q < 2 ^ n * C) by lia.
      assert (q < C) by (apply (Z.mul_lt_mono_pos_l (2 ^ n)); assumption).
      lia. }
  assert (M53 : m1 <= 2 ^ 53) by (destruct Hm1 as [-> | [-> _]]; lia).
  assert (Top : m1 = 2 ^ 53 -> e1 + 1 <= 971).
  { intros ->. destruct (Z.eq_dec ec e1) as [EQ | NE]; [| lia].
    exfalso. unfold C in M1. rewrite EQ, Z.sub_diag in M1.
    change (2 ^ 0) with 1 in M1. lia. }
  assert (E971 : e1 <= 971) by (clear - Hle Hec; lia).
  pose proof (round_aux_second m1 e1 (conj (proj1 M1) M53) He1 Top E971) as S.
  cbv zeta in S. fold (secondStage m1 e1) in S. destruct S as (SF & SS & Sg).
  split; [exact SF|]. split; [| exact Sg]. rewrite SS.
  pose proof (pow2_pos (e1 + 1074) ltac:(lia)) as Pe1.
  replace (ec + 1074) with ((ec - e1) + (e1 + 1074)) by lia.
  rewrite (pow2_split (ec - e1) (e1 + 1074)), Z.mul_assoc by lia. fold C.
  apply Z.mul_le_mono_nonneg_r; lia.
Qed.

(** The sign only labels the result. *)
Lemma round_aux_sign (P : positive) (E : Z) :
  binary_round_aux prec emax true (Z.pos P) E loc_Exact
  = SFopp (binary_round_aux prec emax false (Z.pos P) E loc_Exact).
Proof.
  unfold binary_round_aux.
  destruct (shr_fexp prec emax (Z.pos P) E loc_Exact) as [mrs e].
  destruct (shr_fexp prec emax _ e loc_Exact) as [mrs' e'].
  destruct (shr_m mrs'); try reflexivity.
  destruct (e' <=? emax - prec); reflexivity.
Qed.

(** ** [binary_round] and [binary_normalize] *)

Lemma shl_align_aligned (mx : positive) (ex : Z) :
  -1074 <= ex ->
  let mz := fst (shl_align mx ex (fexp prec emax (Z.pos (digits2_pos mx) + ex))) in
  let ez := snd (shl_align mx ex (fexp prec emax (Z.pos (digits2_pos mx) + ex))) in
  ez <= fexp prec emax (Z.pos (digits2_pos mz) + ez)
  /\ -1074 <= ez
  /\ Z.pos mz * 2 ^ (ez + 1074) = Z.pos mx * 2 ^ (ex + 1074).
Proof.
  intros Hex. unfold shl_align.
  set (e' := fexp prec emax (Z.pos (digits2_pos mx) + ex)).
  assert (He' : e' = Z.max (Z.pos (digits2_pos mx) + ex - 53) (-1074)) by reflexivity.
  destruct (e' - ex) as [| d | d] eqn:D; cbn [fst snd].
  - fold e'. split; [lia|]. split; [lia | reflexivity].
  - fold e'. split; [lia|]. split; [lia | reflexivity].
  - assert (Hd : ex = e' + Z.pos d) by lia.
    rewrite (digits2_pos_shift mx (Pos.iter xO mx d) (Z.pos d)) by
      (try lia; apply Pos_iter_xO_mul).
    replace (Z.pos (digits2_pos mx) + Z.pos d + e')
      with (Z.pos (digits2_pos mx) + ex) by lia.
    fold e'. split; [lia|]. split; [lia|].
    rewrite Pos_iter_xO_mul, Hd, <- Z.mul_assoc. f_equal.
    rewrite <- pow2_split by lia. f_equal. lia.
Qed.

Lemma round_sign (mx : positive) (ex : Z) :
  binary_round prec emax true mx ex = SFopp (binary_round prec emax false mx ex).
Proof.
  unfold binary_round. destruct (shl_align mx ex _) as [mz ez].
  apply round_aux_sign.
Qed.

Lemma round_lower (mx : positive) (ex : Z) (mc : positive) (ec : Z) :
  -1074 <= ex -> bounded prec emax mc ec = true ->
  Z.pos mc * 2 ^ (ec + 1074) <= Z.pos mx * 2 ^ (ex + 1074) ->
  let R := binary_round prec emax false mx ex in
  R = S754_infinity false
  \/ (SFfinite R = true /\ Z.pos mc * 2 ^ (ec + 1074) <= scaled R
      /\ match R with S754_finite s _ _ => s = false | _ => True end).
Proof.
  intros Hex Bc Le. unfold binary_round.
  pose proof (shl_align_aligned mx ex Hex) as A. cbv zeta in A.
  destruct (shl_align mx ex _) as [mz ez]. cbn [fst snd] in A.
  destruct A as (Al & Hez & V).
  apply (round_aux_lower mz ez mc ec 1074 Al Bc); [lia | lia |].
  rewrite V. exact Le.
Qed.

Lemma round_upper (mx : positive) (ex : Z) (mc : positive) (ec : Z) :
  -1074 <= ex -> bounded prec emax mc ec = true ->
  Z.pos mx * 2 ^ (ex + 1074) <= Z.pos mc * 2 ^ (ec + 1074) ->
  let R := binary_round prec emax false mx ex in
  SFfinite R = true /\ scaled R <= Z.pos mc * 2 ^ (ec + 1074)
  /\ match R with S754_finite s _ _ => s = false | _ => True end.
Proof.
  intros Hex Bc Le. unfold binary_round.
  pose proof (shl_align_aligned mx ex Hex) as A. cbv zeta in A.
  destruct (shl_align mx ex _) as [mz ez]. cbn [fst snd] in A.
  destruct A as (Al & Hez & V).
  apply (round_aux_upper mz ez mc ec 1074 Al Bc); [lia | lia |].
  rewrite V. exact Le.
Qed.

(** The rounding of a positive number is not negative and not NaN. *)
Lemma round_aux_nonneg (P : positive) (E : Z) :
  E <= fexp prec emax (Z.pos (digits2_pos P) + E) ->
  let R := binary_round_aux prec emax false (Z.pos P) E loc_Exact in
  R = S754_infinity false
  \/ (SFfinite R = true /\ 0 <= scaled R
      /\ match R with S754_finite s _ _ => s = false | _ => True end).
Proof.
  intros A R. subst R.
  destruct (round_aux_aligned P E A) as (m1 & -> & Hm1).
  destruct (quotient_bounds P E A) as ((Q0 & Q53) & _ & He1).
  set (e1 := fexp prec emax (Z.pos (digits2_pos P) + E)) in *.
  assert (Hq : 0 <= m1 <= 2 ^ 53) by (destruct Hm1 as [-> | [-> _]]; lia).
  destruct (secondStage_cases m1 e1 Hq He1) as [[Inf _] | (F & S & Sg)];
    [left; exact Inf | right].
  split; [exact F|]. split; [| exact Sg]. rewrite S.
  apply Z.mul_nonneg_nonneg; [lia|]. apply Z.lt_le_incl, pow2_pos. lia.
Qed.

Lemma round_nonneg (mx : positive) (ex : Z) :
  -1074 <= ex ->
  let R := binary_round prec emax false mx ex in
  R = S754_infinity false
  \/ (SFfinite R = true /\ 0 <= scaled R
      /\ match R with S754_finite s _ _ => s = false | _ => True end).
Proof.
  intros Hex. unfold binary_round.
  pose proof (shl_align_aligned mx ex Hex) as A. cbv zeta in A.
  destruct (shl_align mx ex _) as [mz ez]. cbn [fst snd] in A.
  destruct A as (Al & _ & _). apply (round_aux_nonneg mz ez Al).
Qed.

(** ** The order of numbers on the integer scale *)

Lemma INF_pos : 0 < INF.
Proof. apply pow2_pos. lia. Qed.

Lemma scaled_bound (x : spec_float) :
  valid_binary x = true -> - INF < scaled x < INF.
Proof.
  pose proof INF_pos as I.
  destruct x as [s | s | | s m e]; cbn [scaled valid_binary]; try lia.
  intros B. pose proof (bounded_facts _ _ B) as (He & Hm & _).
  pose proof (pow2_pos (e + 1074) ltac:(lia)) as Pe.
  assert (P1 : 2 ^ (e + 1074) <= 2 ^ 2045) by (apply Z.pow_le_mono_r; lia).
  assert (P2 : Z.pos m * 2 ^ (e + 1074) < 2 ^ 53 * 2 ^ 2045).
  { apply Z.le_lt_trans with (Z.pos m * 2 ^ 2045).
    - apply Z.mul_le_mono_nonneg_l; [clear; lia | exact P1].
    - apply Z.mul_lt_mono_pos_r; [apply pow2_pos; clear; lia | exact Hm]. }
  assert (P3 : 2 ^ 53 * 2 ^ 2045 <= INF).
  { unfold INF. rewrite <- pow2_split by (clear; lia).
    apply Z.pow_le_mono_r; clear; lia. }
  assert (P4 : Z.pos m * 2 ^ (e + 1074) < INF)
    by (eapply Z.lt_le_trans; [exact P2 | exact P3]).
  clear P1 P2 P3.
  destruct s; cbn [Number.signed].
  - rewrite <- Pos2Z.opp_pos, Z.mul_opp_l.
    set (v := Z.pos m * 2 ^ (e + 1074)) in *.
    assert (0 < v) by (apply Z.mul_pos_pos; [reflexivity | exact Pe]).
    clearbody v. clear - P4 H I. lia.
  - set (v := Z.pos m * 2 ^ (e + 1074)) in *.
    assert (0 < v) by (apply Z.mul_pos_pos; [reflexivity | exact Pe]).
    clearbody v. clear - P4 H I. lia.
Qed.

Lemma SFcompare_key (x y : spec_float) :
  valid_binary x = true -> valid_binary y = true ->
  numeric x = true -> numeric y = true ->
  SFcompare x y = Some (key x ?= key y).
Proof.
  intros Vx Vy Nx Ny.
  pose proof (scaled_bound x Vx) as Bx. pose proof (scaled_bound y Vy) as By.
  pose proof INF_pos as I.
  destruct x as [sx | [|] | | sx mx ex] eqn:Ex; try discriminate Nx;
    destruct y as [sy | [|] | | sy my ey] eqn:Ey; try discriminate Ny;
    try (rewrite <- Ex, <- Ey; subst; apply SFcompare_scaled; auto; fail);
    cbn [SFcompare key]; f_equal; symmetry;
    try (apply Z.compare_refl);
    try (apply Z.compare_lt_iff; cbn [scaled] in *; lia);
    try (apply Z.compare_gt_iff; cbn [scaled] in *; lia).
  all: destruct sx || destruct sy.
  all: try (apply Z.compare_lt_iff; cbn [scaled] in *; lia).
  all: try (apply Z.compare_gt_iff; cbn [scaled] in *; lia).
Qed.

Lemma key_opp (x : spec_float) : key (SFopp x) = - key x.
Proof.
  destruct x as [s | [|] | | s m e]; cbn [SFopp key scaled negb]; try lia.
  destruct s; cbn [negb Number.signed]; rewrite <- ?Pos2Z.opp_pos; ring.
Qed.

Lemma key_finite (x : spec_float) : SFfinite x = true -> key x = scaled x.
Proof. destruct x as [s | s | | s m e]; try discriminate; reflexivity. Qed.

(** A finite number is a zero or [+- m * 2^e]. *)
Lemma finite_cases (c : spec_float) :
  valid_binary c = true -> SFfinite c = true ->
  scaled c = 0
  \/ (exists mc ec, c = S754_finite false mc ec /\ bounded prec emax mc ec = true
                    /\ scaled c = Z.pos mc * 2 ^ (ec + 1074) /\ 0 < scaled c)
  \/ (exists mc ec, c = S754_finite true mc ec /\ bounded prec emax mc ec = true
                    /\ scaled c = - (Z.pos mc * 2 ^ (ec + 1074)) /\ scaled c < 0).
Proof.
  intros V F. destruct c as [s | s | | s m e]; try discriminate; [left; reflexivity|].
  cbn [valid_binary] in V. pose proof (bounded_facts _ _ V) as (He & _ & _).
  pose proof (pow2_pos (e + 1074) ltac:(lia)) as Pe.
  assert (0 < Z.pos m * 2 ^ (e + 1074)) by (apply Z.mul_pos_pos; [reflexivity | exact Pe]).
  right. destruct s; [right | left]; exists m, e; cbn [scaled Number.signed].
  - rewrite <- Pos2Z.opp_pos, Z.mul_opp_l. repeat split; auto. lia.
  - repeat split; auto.
Qed.

(** [binary_normalize] against a finite bound [c]: the result is not
    NaN; it is at least [c] when the exact value is, and at most [c] when
    the exact value is. *)
Lemma normalize_bounds (q e0 : Z) (c : spec_float) :
  -1074 <= e0 -> valid_binary c = true -> SFfinite c = true ->
  let R := binary_normalize prec emax q e0 false in
  numeric R = true
  /\ (scaled c <= q * 2 ^ (e0 + 1074) -> key c <= key R)
  /\ (q * 2 ^ (e0 + 1074) <= scaled c -> key R <= key c).
Proof.
  intros He0 Vc Fc R. subst R. rewrite (key_finite c Fc).
  pose proof (scaled_bound c Vc) as Bc. pose proof INF_pos as I.
  pose proof (pow2_pos (e0 + 1074) ltac:(lia)) as Pe.
  destruct q as [| p | p]; cbn [binary_normalize].
  - cbn [numeric key scaled]. rewrite Z.mul_0_l. auto.
  - assert (Pv : 0 < Z.pos p * 2 ^ (e0 + 1074))
      by (apply Z.mul_pos_pos; [reflexivity | exact Pe]).
    set (v := Z.pos p * 2 ^ (e0 + 1074)) in *.
    pose proof (round_nonneg p e0 He0) as NN. cbv zeta in NN.
    split; [| split].
    + destruct NN as [-> | (F & _)]; [reflexivity|].
      destruct (binary_round prec emax false p e0); try discriminate; reflexivity.
    + intros Le.
      destruct (finite_cases c Vc Fc) as [Z0 | [(mc & ec & -> & Bm & Sc & Pc) | (mc & ec & _ & _ & _ & Nc)]].
      * destruct NN as [-> | (F & S0 & _)]; [cbn [key]; lia|].
        rewrite (key_finite _ F). lia.
      * rewrite Sc in Le. unfold v in Le.
        destruct (round_lower p e0 mc ec He0 Bm Le) as [-> | (F & S0 & _)];
          [cbn [key]; lia|].
        rewrite (key_finite _ F). rewrite Sc. exact S0.
      * destruct NN as [-> | (F & S0 & _)]; [cbn [key]; lia|].
        rewrite (key_finite _ F). lia.
    + intros Le.
      destruct (finite_cases c Vc Fc) as [Z0 | [(mc & ec & -> & Bm & Sc & Pc) | (mc & ec & _ & _ & _ & Nc)]];
        [lia | | lia].
      rewrite Sc in Le. unfold v in Le.
      destruct (round_upper p e0 mc ec He0 Bm Le) as (F & S0 & _).
      rewrite (key_finite _ F). rewrite Sc. exact S0.
  - rewrite round_sign, key_opp.
    assert (Pv : 0 < Z.pos p * 2 ^ (e0 + 1074))
      by (apply Z.mul_pos_pos; [reflexivity | exact Pe]).
    rewrite <- Pos2Z.opp_pos, Z.mul_opp_l.
    set (v := Z.pos p * 2 ^ (e0 + 1074)) in *.
    pose proof (round_nonneg p e0 He0) as NN. cbv zeta in NN.
    split; [| split].
    + destruct NN as [-> | (F & _)]; [reflexivity|].
      destruct (binary_round prec emax false p e0); try discriminate; reflexivity.
    + intros Le.
      destruct (finite_cases c Vc Fc) as [Z0 | [(mc & ec & _ & _ & _ & Pc) | (mc & ec & -> & Bm & Sc & Nc)]];
        [lia | lia |].
      rewrite Sc in Le. unfold v in Le.
      assert (Le' : Z.pos p * 2 ^ (e0 + 1074) <= Z.pos mc * 2 ^ (ec + 1074)) by lia.
      destruct (round_upper p e0 mc ec He0 Bm Le') as (F & S0 & _).
      rewrite (key_finite _ F). rewrite Sc. lia.
    + intros Le.
      destruct (finite_cases c Vc Fc) as [Z0 | [(mc & ec & _ & _ & _ & Pc) | (mc & ec & -> & Bm & Sc & Nc)]].
      * destruct NN as [-> | (F & S0 & _)]; [cbn [key]; lia|].
        rewrite (key_finite _ F). lia.
      * destruct NN as [-> | (F & S0 & _)]; [cbn [key]; lia|].
        rewrite (key_finite _ F). lia.
      * rewrite Sc in Le. unfold v in Le.
        assert (Le' : Z.pos mc * 2 ^ (ec + 1074) <= Z.pos p * 2 ^ (e0 + 1074)) by lia.
        destruct (round_lower p e0 mc ec He0 Bm Le') as [-> | (F & S0 & _)];
          [cbn [key]; lia|].
        rewrite (key_finite _ F). rewrite Sc. lia.
Qed.

(** ** Sums and differences against a bound *)

Lemma aligned_value (s : bool) (m : positive) (e ez : Z) :
  -1074 <= ez <= e ->
  cond_Zopp s (Z.pos (fst (shl_align m e ez))) * 2 ^ (ez + 1074)
  = Number.signed s m * 2 ^ (e + 1074).
Proof.
  intros He. pose proof (shl_align_value m e _ He).
  destruct s; cbn [cond_Zopp Number.signed]; lia.
Qed.

Lemma exact_bounds (R c : spec_float) (v : Z) :
  SFfinite R = true -> SFfinite c = true -> scaled R = v ->
  numeric R = true
  /\ (scaled c <= v -> key c <= key R)
  /\ (v <= scaled c -> key R <= key c).
Proof.
  intros FR Fc <-. rewrite (key_finite R FR), (key_finite c Fc).
  split; [destruct R; try discriminate; reflexivity | auto].
Qed.

Lemma SFsub_bounds (x y c : spec_float) :
  valid_binary x = true -> valid_binary y = true -> valid_binary c = true ->
  SFfinite x = true -> SFfinite y = true -> SFfinite c = true ->
  numeric (SFsub prec emax x y) = true
  /\ (scaled c <= scaled x - scaled y -> key c <= key (SFsub prec emax x y))
  /\ (scaled x - scaled y <= scaled c -> key (SFsub prec emax x y) <= key c).
Proof.
  intros Vx Vy Vc Fx Fy Fc.
  destruct x as [sx | sx | | sx mx ex]; try discriminate Fx;
    destruct y as [sy | sy | | sy my ey]; try discriminate Fy; cbn [SFsub].
  - apply exact_bounds; [destruct sx, sy; reflexivity | exact Fc |].
    destruct sx, sy; reflexivity.
  - apply exact_bounds; [reflexivity | exact Fc |].
    cbn [scaled]. destruct sy; cbn [negb Number.signed];
      rewrite <- ?Pos2Z.opp_pos; ring.
  - apply exact_bounds; [reflexivity | exact Fc |]. cbn [scaled]. ring.
  - cbn [valid_binary] in Vx, Vy.
    pose proof (bounded_facts _ _ Vx) as (Hex & _).
    pose proof (bounded_facts _ _ Vy) as (Hey & _).
    pose proof (normalize_bounds
                  (cond_Zopp sx (Z.pos (fst (shl_align mx ex (Z.min ex ey))))
                   - cond_Zopp sy (Z.pos (fst (shl_align my ey (Z.min ex ey)))))
                  (Z.min ex ey) c ltac:(lia) Vc Fc) as N.
    cbv zeta in N. rewrite Z.mul_sub_distr_r, !aligned_value in N by lia.
    exact N.
Qed.

Lemma SFadd_bounds (x y c : spec_float) :
  valid_binary x = true -> valid_binary y = true -> valid_binary c = true ->
  SFfinite x = true -> SFfinite y = true -> SFfinite c = true ->
  numeric (SFadd prec emax x y) = true
  /\ (scaled c <= scaled x + scaled y -> key c <= key (SFadd prec emax x y))
  /\ (scaled x + scaled y <= scaled c -> key (SFadd prec emax x y) <= key c).
Proof.
  intros Vx Vy Vc Fx Fy Fc.
  destruct x as [sx | sx | | sx mx ex]; try discriminate Fx;
    destruct y as [sy | sy | | sy my ey]; try discriminate Fy; cbn [SFadd].
  - apply exact_bounds; [destruct sx, sy; reflexivity | exact Fc |].
    destruct sx, sy; reflexivity.
  - apply exact_bounds; [reflexivity | exact Fc |]. cbn [scaled]. ring.
  - apply exact_bounds; [reflexivity | exact Fc |]. cbn [scaled]. ring.
  - cbn [valid_binary] in Vx, Vy.
    pose proof (bounded_facts _ _ Vx) as (Hex & _).
    pose proof (bounded_facts _ _ Vy) as (Hey & _).
    pose proof (normalize_bounds
                  (cond_Zopp sx (Z.pos (fst (shl_align mx ex (Z.min ex ey))))
                   + cond_Zopp sy (Z.pos (fst (shl_align my ey (Z.min ex ey)))))
                  (Z.min ex ey) c ltac:(lia) Vc Fc) as N.
    cbv zeta in N. rewrite Z.mul_add_distr_r, !aligned_value in N by lia.
    exact N.
Qed.

(** ** Comparisons on the integer scale *)

Lemma is_nan_numeric (a : float) : is_nan a = negb (numeric (Prim2SF a)).
Proof.
  unfold is_nan. rewrite eqb_spec. unfold SFeqb.
  destruct (Prim2SF a) as [s | s | | s m e] eqn:P; try reflexivity;
    rewrite SFcompare_refl by discriminate; reflexivity.
Qed.

Lemma leb_key (a b : float) :
  is_nan a = false -> is_nan b = false ->
  (a <=? b)%float = (key (Prim2SF a) <=? key (Prim2SF b)).
Proof.
  rewrite !is_nan_numeric. intros Na Nb.
  apply negb_false_iff in Na, Nb.
  rewrite leb_spec. unfold SFleb.
  rewrite (SFcompare_key _ _ (Prim2SF_valid a) (Prim2SF_valid b) Na Nb).
  unfold Z.leb. destruct (key (Prim2SF a) ?= key (Prim2SF b)); reflexivity.
Qed.

Lemma ltb_key (a b : float) :
  is_nan a = false -> is_nan b = false ->
  (a <? b)%float = (key (Prim2SF a) <? key (Prim2SF b)).
Proof.
  rewrite !is_nan_numeric. intros Na Nb.
  apply negb_false_iff in Na, Nb.
  rewrite ltb_spec. unfold SFltb.
  rewrite (SFcompare_key _ _ (Prim2SF_valid a) (Prim2SF_valid b) Na Nb).
  unfold Z.ltb. destruct (key (Prim2SF a) ?= key (Prim2SF b)); reflexivity.
Qed.

(** ** Products against a bound *)

Lemma product_aligned (mx : positive) (ex : Z) (my : positive) (ey : Z) :
  bounded prec emax mx ex = true -> bounded prec emax my ey = true ->
  ex + ey <= fexp prec emax (Z.pos (digits2_pos (mx * my)) + (ex + ey)).
Proof.
  intros Bx By.
  pose proof (bounded_canonical _ _ Bx) as [Cx _].
  pose proof (bounded_canonical _ _ By) as [Cy _].
  pose proof (digits2_pos_bounds mx) as [Lx _].
  pose proof (digits2_pos_bounds my) as [Ly _].
  pose proof (digits2_pos_bounds (mx * my)) as [_ HP].
  set (dx := Z.pos (digits2_pos mx)) in *. set (dy := Z.pos (digits2_pos my)) in *.
  set (dP := Z.pos (digits2_pos (mx * my))) in *.
  assert (Hx : ex = Z.max (dx + ex - 53) (-1074)) by (symmetry; exact Cx).
  assert (Hy : ey = Z.max (dy + ey - 53) (-1074)) by (symmetry; exact Cy).
  change (fexp prec emax (dP + (ex + ey))) with (Z.max (dP + (ex + ey) - 53) (-1074)).
  assert (Hdx : 1 <= dx) by (unfold dx; lia). assert (Hdy : 1 <= dy) by (unfold dy; lia).
  assert (D : dx + dy - 1 <= dP).
  { destruct (Z_le_gt_dec (dx + dy - 1) dP); [assumption|]. exfalso.
    assert (2 ^ dP <= 2 ^ (dx + dy - 2)) by (apply Z.pow_le_mono_r; lia).
    assert (S : 2 ^ (dx + dy - 2) = 2 ^ (dx - 1) * 2 ^ (dy - 1)).
    { rewrite <- pow2_split by lia. f_equal. lia. }
    assert (2 ^ (dx - 1) * 2 ^ (dy - 1) <= Z.pos mx * Z.pos my).
    { apply Z.mul_le_mono_nonneg; try assumption;
        apply Z.lt_le_incl, pow2_pos; lia. }
    rewrite Pos2Z.inj_mul in HP. lia. }
  clearbody dx dy dP. clear - Hx Hy Hdx Hdy D. lia.
Qed.

Lemma SFmul_positive_bounds (mx : positive) (ex : Z) (my : positive) (ey : Z)
  (c : spec_float) :
  bounded prec emax mx ex = true -> bounded prec emax my ey = true ->
  valid_binary c = true -> SFfinite c = true ->
  let R := SFmul prec emax (S754_finite false mx ex) (S754_finite false my ey) in
  let v := (Z.pos mx * 2 ^ (ex + 1074)) * (Z.pos my * 2 ^ (ey + 1074)) in
  numeric R = true
  /\ (scaled c * 2 ^ 1074 <= v -> key c <= key R)
  /\ (v <= scaled c * 2 ^ 1074 -> key R <= key c).
Proof.
  intros Bx By Vc Fc R v. subst R. cbn [SFmul xorb].
  pose proof (product_aligned mx ex my ey Bx By) as Al.
  pose proof (bounded_facts _ _ Bx) as (Hex & _).
  pose proof (bounded_facts _ _ By) as (Hey & _).
  pose proof (pow2_pos (ex + 1074) ltac:(lia)) as Px.
  pose proof (pow2_pos (ey + 1074) ltac:(lia)) as Py.
  pose proof (pow2_pos 1074 ltac:(lia)) as P1074.
  assert (Ev : Z.pos (mx * my) * 2 ^ (ex + ey + 2148) = v).
  { unfold v. replace (ex + ey + 2148) with ((ex + 1074) + (ey + 1074)) by lia.
    rewrite pow2_split, Pos2Z.inj_mul by lia. ring. }
  assert (Pv : 0 < v).
  { unfold v. apply Z.mul_pos_pos; apply Z.mul_pos_pos; try reflexivity; assumption. }
  clearbody v.
  pose proof (round_aux_nonneg (mx * my) (ex + ey) Al) as NN. cbv zeta in NN.
  pose proof (scaled_bound c Vc) as Bc. pose proof INF_pos as I.
  rewrite (key_finite c Fc).
  assert (Kc : forall mc ec, -1074 <= ec ->
            Z.pos mc * 2 ^ (ec + 2148) = Z.pos mc * 2 ^ (ec + 1074) * 2 ^ 1074).
  { intros mc ec Hec. replace (ec + 2148) with ((ec + 1074) + 1074) by lia.
    rewrite pow2_split by lia. ring. }
  split; [| split].
  - destruct NN as [-> | (F & _)]; [reflexivity|].
    destruct (binary_round_aux prec emax false _ _ _); try discriminate; reflexivity.
  - intros Le.
    destruct (finite_cases c Vc Fc)
      as [Z0 | [(mc & ec & -> & Bm & Sc & Pc) | (mc & ec & _ & _ & _ & Nc)]].
    + destruct NN as [-> | (F & S0 & _)]; [cbn [key]; lia|].
      rewrite (key_finite _ F). lia.
    + pose proof (bounded_facts _ _ Bm) as (Hec & _).
      rewrite Sc in Le.
      destruct (round_aux_lower (mx * my) (ex + ey) mc ec 2148 Al Bm ltac:(lia) ltac:(lia))
        as [-> | (F & S0 & _)].
      { rewrite Ev, Kc by lia. exact Le. }
      { cbn [key]. lia. }
      rewrite (key_finite _ F), Sc. exact S0.
    + destruct NN as [-> | (F & S0 & _)]; [cbn [key]; lia|].
      rewrite (key_finite _ F). lia.
  - intros Le.
    destruct (finite_cases c Vc Fc)
      as [Z0 | [(mc & ec & -> & Bm & Sc & Pc) | (mc & ec & _ & _ & _ & Nc)]].
    + exfalso. rewrite Z0 in Le. lia.
    + pose proof (bounded_facts _ _ Bm) as (Hec & _).
      rewrite Sc in Le.
      destruct (round_aux_upper (mx * my) (ex + ey) mc ec 2148 Al Bm ltac:(lia) ltac:(lia))
        as (F & S0 & _).
      { rewrite Ev, Kc by lia. exact Le. }
      rewrite (key_finite _ F), Sc. exact S0.
    + exfalso. assert (scaled c * 2 ^ 1074 < 0) by (apply Z.mul_neg_pos; assumption). lia.
Qed.

(** ** Numbers on the integer scale *)

Lemma numeric_not_nan (a : float) : numeric (Prim2SF a) = true -> is_nan a = false.
Proof. intros H. rewrite is_nan_numeric, H. reflexivity. Qed.

Lemma not_nan_numeric (a : float) : is_nan a = false -> numeric (Prim2SF a) = true.
Proof. rewrite is_nan_numeric. apply negb_false_iff. Qed.

Lemma key_bound (x : spec_float) :
  valid_binary x = true -> - INF <= key x <= INF.
Proof.
  intros V. pose proof (scaled_bound x V). pose proof INF_pos.
  destruct x as [s | [|] | | s m e]; cbn [key] in *; lia.
Qed.

(** A number strictly between the infinities is finite. *)
Lemma finite_of_key (x : spec_float) :
  numeric x = true -> - INF < key x < INF -> SFfinite x = true.
Proof.
  pose proof INF_pos.
  destruct x as [s | [|] | | s m e]; cbn [key numeric]; try reflexivity;
    try discriminate; lia.
Qed.

Lemma sub_bounds (a b c : float) :
  SFfinite (Prim2SF a) = true -> SFfinite (Prim2SF b) = true ->
  SFfinite (Prim2SF c) = true ->
  is_nan (a - b) = false
  /\ (scaled (Prim2SF c) <= scaled (Prim2SF a) - scaled (Prim2SF b) ->
      key (Prim2SF c) <= key (Prim2SF (a - b)))
  /\ (scaled (Prim2SF a) - scaled (Prim2SF b) <= scaled (Prim2SF c) ->
      key (Prim2SF (a - b)) <= key (Prim2SF c)).
Proof.
  intros Fa Fb Fc. rewrite sub_spec. unfold SF64sub.
  destruct (SFsub_bounds _ _ _ (Prim2SF_valid a) (Prim2SF_valid b) (Prim2SF_valid c)
              Fa Fb Fc) as (N & L & U).
  split; [| auto]. rewrite is_nan_numeric, sub_spec. unfold SF64sub. rewrite N. reflexivity.
Qed.

Lemma add_bounds (a b c : float) :
  SFfinite (Prim2SF a) = true -> SFfinite (Prim2SF b) = true ->
  SFfinite (Prim2SF c) = true ->
  is_nan (a + b) = false
  /\ (scaled (Prim2SF c) <= scaled (Prim2SF a) + scaled (Prim2SF b) ->
      key (Prim2SF c) <= key (Prim2SF (a + b)))
  /\ (scaled (Prim2SF a) + scaled (Prim2SF b) <= scaled (Prim2SF c) ->
      key (Prim2SF (a + b)) <= key (Prim2SF c)).
Proof.
  intros Fa Fb Fc. rewrite add_spec. unfold SF64add.
  destruct (SFadd_bounds _ _ _ (Prim2SF_valid a) (Prim2SF_valid b) (Prim2SF_valid c)
              Fa Fb Fc) as (N & L & U).
  split; [| auto]. rewrite is_nan_numeric, add_spec. unfold SF64add. rewrite N. reflexivity.
Qed.

(** The product of two positive finite numbers. *)
Lemma mul_bounds (a b c : float) :
  SFfinite (Prim2SF a) = true -> SFfinite (Prim2SF b) = true ->
  SFfinite (Prim2SF c) = true ->
  0 < scaled (Prim2SF a) -> 0 < scaled (Prim2SF b) ->
  is_nan (a * b) = false
  /\ (scaled (Prim2SF c) * 2 ^ 1074 <= scaled (Prim2SF a) * scaled (Prim2SF b) ->
      key (Prim2SF c) <= key (Prim2SF (a * b)))
  /\ (scaled (Prim2SF a) * scaled (Prim2SF b) <= scaled (Prim2SF c) * 2 ^ 1074 ->
      key (Prim2SF (a * b)) <= key (Prim2SF c)).
Proof.
  intros Fa Fb Fc Pa Pb. rewrite is_nan_numeric, mul_spec. unfold SF64mul.
  pose proof (Prim2SF_valid a) as Va. pose proof (Prim2SF_valid b) as Vb.
  destruct (finite_cases _ Va Fa) as [Z0 | [(ma & ea & -> & Ba & Sa & _) | (ma & ea & _ & _ & _ & Na)]];
    [lia | | lia].
  destruct (finite_cases _ Vb Fb) as [Z0 | [(mb & eb & -> & Bb & Sb & _) | (mb & eb & _ & _ & _ & Nb)]];
    [lia | | lia].
  destruct (SFmul_positive_bounds ma ea mb eb _ Ba Bb (Prim2SF_valid c) Fc) as (N & L & U).
  cbn [scaled Number.signed]. rewrite N. auto.
Qed.

(** ** [Math.max] and [Math.min] on the integer scale *)

Lemma max_key (a b : float) :
  is_nan a = false -> is_nan b = false ->
  is_nan (Math.max a b) = false
  /\ key (Prim2SF (Math.max a b)) = Z.max (key (Prim2SF a)) (key (Prim2SF b))
  /\ (Math.max a b = a \/ Math.max a b = b).
Proof.
  intros Na Nb. unfold Math.max. rewrite Na, Nb. cbn [orb].
  rewrite (ltb_key a b Na Nb), (ltb_key b a Nb Na).
  destruct (Z.ltb_spec (key (Prim2SF a)) (key (Prim2SF b))).
  { split; [exact Nb|]. split; [lia | auto]. }
  destruct (Z.ltb_spec (key (Prim2SF b)) (key (Prim2SF a))).
  { split; [exact Na|]. split; [lia | auto]. }
  destruct (get_sign a); (split; [assumption|]; split; [lia | auto]).
Qed.

Lemma min_key (a b : float) :
  is_nan a = false -> is_nan b = false ->
  is_nan (Math.min a b) = false
  /\ key (Prim2SF (Math.min a b)) = Z.min (key (Prim2SF a)) (key (Prim2SF b))
  /\ (Math.min a b = a \/ Math.min a b = b).
Proof.
  intros Na Nb. unfold Math.min. rewrite Na, Nb. cbn [orb].
  rewrite (ltb_key a b Na Nb), (ltb_key b a Nb Na).
  destruct (Z.ltb_spec (key (Prim2SF a)) (key (Prim2SF b))).
  { split; [exact Na|]. split; [lia | auto]. }
  destruct (Z.ltb_spec (key (Prim2SF b)) (key (Prim2SF a))).
  { split; [exact Nb|]. split; [lia | auto]. }
  destruct (get_sign a); (split; [assumption|]; split; [lia | auto]).
Qed.

(** An integer on the integer scale. *)
Lemma key_integer (a : float) (z : Z) :
  Number.toInteger a = Some z -> key (Prim2SF a) = z * 2 ^ 1074.
Proof.
  intros H. apply toInteger_scaled in H as [F S]. rewrite (key_finite _ F). exact S.
Qed.

Lemma integer_of_key (a : float) (z : Z) :
  is_nan a = false -> key (Prim2SF a) = z * 2 ^ 1074 -> - INF < z * 2 ^ 1074 < INF ->
  Number.toInteger a = Some z.
Proof.
  intros N K B. apply not_nan_numeric in N.
  assert (F : SFfinite (Prim2SF a) = true) by (apply finite_of_key; [exact N | lia]).
  rewrite (key_finite _ F) in K.
  destruct (Prim2SF a) as [s | s | | s m e] eqn:P; try discriminate F.
  - cbn [scaled] in K. pose proof (pow2_pos 1074 ltac:(lia)).
    assert (z = 0) by nia. subst z. exact (toInteger_zero _ _ P).
  - exact (toInteger_spec _ _ _ _ _ P K).
Qed.

Lemma spread_Some (v : Vector) : spread (Some v) = v.
Proof. destruct v; reflexivity. Qed.

Lemma nth_error_map_seq {A} (f : nat -> A) (n i : nat) :
  (i < n)%nat -> nth_error (map f (seq 0 n)) i = Some (f i).
Proof.
  intros H. rewrite nth_error_map, nth_error_seq.
  destruct (Nat.ltb_spec i n); [reflexivity | lia].
Qed.

Lemma MAX_LENGTH_safe (N : Z) : N <= Array.MAX_LENGTH -> N < 2 ^ 53.
Proof. unfold Array.MAX_LENGTH. intros. assert (4294967295 < 2 ^ 53) by reflexivity. lia. Qed.

(** The test [i === n - 1] of the two copying loops, on integers. *)
Lemma last_index_test (n : float) (N : Z) (i : nat) :
  Number.toInteger n = Some N -> 1 <= N <= Array.MAX_LENGTH ->
  Z.of_nat i < N ->
  (Number.of_nat i =? n - 1)%float = (Z.of_nat i =? N - 1).
Proof.
  intros Hn HN Hi. pose proof (MAX_LENGTH_safe N ltac:(lia)).
  apply eqb_integers.
  - apply toInteger_of_nat. lia.
  - apply sub_integers; [assumption | reflexivity | lia].
Qed.

Section Curve.
Variable Math_pow : float -> float -> float.

Lemma calculatePointsInCurve_integer (n : float) (N : nat) (points : list Vector) :
  Number.toInteger n = Some (Z.of_nat N) ->
  (2 <= N)%nat -> Z.of_nat N <= Array.MAX_LENGTH ->
  calculatePointsInCurve Math_pow n points
  = Ok (map (curvePoint Math_pow n points) (seq 0 N)).
Proof.
  intros Hn H2 HM. unfold calculatePointsInCurve.
  rewrite (ltb_integers n 2 (Z.of_nat N) 2 Hn eq_refl).
  destruct (Z.ltb_spec (Z.of_nat N) 2); [lia|].
  rewrite (pushes_integer n _ Hn) by lia. cbn [bindR].
  rewrite Nat2Z.id. reflexivity.
Qed.

Lemma curvePoint_first (n : float) (points : list Vector) :
  curvePoint Math_pow n points 0 = spread (nth_error points 0).
Proof. reflexivity. Qed.

Lemma curvePoint_last (n : float) (N : nat) (points : list Vector) :
  Number.toInteger n = Some (Z.of_nat N) ->
  (2 <= N)%nat -> Z.of_nat N <= Array.MAX_LENGTH ->
  curvePoint Math_pow n points (N - 1)
  = spread (nth_error points (length points - 1)).
Proof.
  intros Hn H2 HM. unfold curvePoint.
  destruct (Nat.eqb_spec (N - 1) 0); [lia|].
  rewrite (last_index_test n _ _ Hn) by lia.
  destruct (Z.eqb_spec (Z.of_nat (N - 1)) (Z.of_nat N - 1)); [reflexivity | lia].
Qed.

End Curve.

(** ** Commands that always return *)

Lemma mapC_Forall2 {A B} (R : A -> B -> Prop) (f : A -> Cmd B) (l : list A) :
  (forall a c, exists b c', f a c = (Ok b, c') /\ R a b) ->
  forall c, exists l' c', mapC f l c = (Ok l', c') /\ Forall2 R l l'.
Proof.
  intros Hf. induction l as [| a l IH]; intros c; cbn [mapC].
  - exists [], c. split; [reflexivity | constructor].
  - destruct (Hf a c) as (b & c1 & E1 & R1).
    destruct (IH c1) as (l' & c2 & E2 & R2).
    exists (b :: l'), c2. unfold bind, ret. rewrite E1, E2.
    split; [reflexivity | constructor; assumption].
Qed.

Lemma Forall2_nth_error {A B} (R : A -> B -> Prop) (l : list A) (l' : list B) :
  Forall2 R l l' ->
  forall i a, nth_error l i = Some a -> exists b, nth_error l' i = Some b /\ R a b.
Proof.
  induction 1 as [| a b l l' Rab _ IH]; intros i x Hx.
  - destruct i; discriminate.
  - destruct i as [| i]; cbn in *.
    + injection Hx as <-. eauto.
    + eauto.
Qed.

Lemma interior_length {A} (l : list A) : length (interior l) = (length l - 2)%nat.
Proof.
  unfold interior. rewrite length_firstn, length_skipn. lia.
Qed.

Lemma nth_error_interior {A} (l : list A) (i : nat) :
  (i < length l - 2)%nat -> nth_error (interior l) i = nth_error l (S i).
Proof.
  intros H. unfold interior. rewrite nth_error_firstn.
  destruct (Nat.ltb_spec i (length l - 2)); [| lia].
  rewrite nth_error_skipn. reflexivity.
Qed.

Section Distort.
Variables Math_log Math_cos : float -> float.
Variable random : nat -> float.

Lemma randomNormal_returns (mean stdDev : float) (c : nat) :
  exists z, randomNormal Math_log Math_cos random mean stdDev c = (Ok z, S (S c)).
Proof. eexists. reflexivity. Qed.

(** One round of the loop of [distortPoints] returns a point with the
    same [x]. *)
Lemma distort_step (mean stdDev freq : float) (p : Vector) (c : nat) :
  exists q c',
    distortPoint Math_log Math_cos random mean stdDev freq p c = (Ok q, c')
    /\ exists v, q = Some v /\ Vector.x v = Vector.x p.
Proof.
  unfold distortPoint, bind, Math_random.
  destruct (random c <? freq)%float.
  - destruct (randomNormal_returns mean stdDev (S c)) as (z & ->).
    eexists _, _. split; [reflexivity | eauto].
  - eexists _, _. split; [reflexivity | eauto].
Qed.

Lemma distortPoints_valid (points : list Vector) (mean stdDev freq : float) (c : nat) :
  distortionsValid points mean stdDev freq = true ->
  exists middle c',
    distortPoints Math_log Math_cos random points mean stdDev freq c
    = (Ok ([nth_error points 0] ++ middle ++ [nth_error points (length points - 1)]), c')
    /\ Forall2 (fun p q => exists v, q = Some v /\ Vector.x v = Vector.x p)
               (interior points) middle.
Proof.
  unfold distortionsValid. rewrite !andb_true_iff, !negb_true_iff.
  intros [[[[[Hm Hs] Hf] Hl] H0] H1].
  unfold distortPoints. rewrite Hm, Hs, Hf, Hl, H0, H1. cbn [negb orb].
  destruct (mapC_Forall2 _ _ (interior points) (distort_step mean stdDev freq) c)
    as (middle & c' & E & F).
  exists middle, c'. unfold bind at 1. rewrite E. split; [reflexivity | exact F].
Qed.

Lemma distortPoints_invalid (points : list Vector) (mean stdDev freq : float) (c : nat) :
  distortionsValid points mean stdDev freq = false ->
  exists msg, distortPoints Math_log Math_cos random points mean stdDev freq c
              = (Throw (Error msg), c).
Proof.
  unfold distortionsValid, distortPoints. intros H.
  destruct (checkIfNumeric mean), (checkIfNumeric stdDev), (checkIfNumeric freq);
    cbn [negb orb andb] in *; try (eexists; reflexivity).
  destruct (checkIfListOfPoints (map Some points));
    cbn [negb orb andb] in *; try (eexists; reflexivity).
  destruct (freq <? 0)%float, (1 <? freq)%float;
    cbn [negb orb andb] in *; try discriminate; eexists; reflexivity.
Qed.
End Distort.

(** ** Loops that may throw *)

Lemma mapR_Ok {A B} (f : A -> result B) (l : list A) (out : list B) :
  mapR f l = Ok out ->
  length out = length l
  /\ forall i a, nth_error l i = Some a ->
       exists b, nth_error out i = Some b /\ f a = Ok b.
Proof.
  revert out. induction l as [| a l IH]; intros out; cbn [mapR].
  - intros [= <-]. split; [reflexivity|]. intros [|i] x; discriminate.
  - destruct (f a) as [b | e] eqn:Fa; cbn [bindR]; [| discriminate].
    destruct (mapR f l) as [bs | e]; cbn [bindR]; [| discriminate].
    intros [= <-]. destruct (IH bs eq_refl) as [L N].
    split; [cbn; lia|]. intros [| i] x Hx; cbn in *.
    + injection Hx as <-. eauto.
    + eauto.
Qed.


(** ** Arrays of points *)

Lemma checkIfListOfPoints_defined (ps : list (option Vector)) :
  checkIfListOfPoints ps = true -> ps = map Some (defined ps).
Proof.
  induction ps as [| [v|] ps IH]; cbn; [reflexivity | | discriminate].
  rewrite andb_true_iff. intros [_ H]. f_equal. apply IH, H.
Qed.

Lemma defined_length (ps : list (option Vector)) :
  checkIfListOfPoints ps = true -> length (defined ps) = length ps.
Proof.
  intros V. rewrite (checkIfListOfPoints_defined ps V) at 2.
  rewrite length_map. reflexivity.
Qed.

Lemma nth_error_defined (ps : list (option Vector)) (i : nat) :
  checkIfListOfPoints ps = true ->
  nth_error ps i = option_map Some (nth_error (defined ps) i).
Proof.
  intros V. rewrite (checkIfListOfPoints_defined ps V) at 1.
  apply nth_error_map.
Qed.


Lemma isInteger_toInteger (x : float) :
  Number.isInteger x = true -> exists z, Number.toInteger x = Some z.
Proof.
  unfold Number.isInteger. destruct (Number.toInteger x); [eauto | discriminate].
Qed.

Lemma toInteger_isInteger (x : float) (z : Z) :
  Number.toInteger x = Some z -> Number.isInteger x = true.
Proof. unfold Number.isInteger. intros ->. reflexivity. Qed.

Section Tween.
Variable tween : TweeningFunction.

Lemma tweenPoint_first (pts : list Vector) (tp : float) :
  tweenPoint pts tween tp 0 = Ok (spread (nth_error pts 0)).
Proof. reflexivity. Qed.

Lemma tweenPoint_last (pts : list Vector) (tp : float) (T : Z) :
  Number.toInteger tp = Some T -> 2 <= T <= Array.MAX_LENGTH ->
  tweenPoint pts tween tp (Z.to_nat T - 1)
  = Ok (spread (nth_error pts (length pts - 1))).
Proof.
  intros HT B. unfold tweenPoint.
  destruct (Nat.eqb_spec (Z.to_nat T - 1) 0); [lia|].
  rewrite (last_index_test tp T _ HT) by lia.
  destruct (Z.eqb_spec (Z.of_nat (Z.to_nat T - 1)) (T - 1)); [reflexivity | lia].
Qed.

(** The ways [tweenPoints] returns. *)
Lemma tweenPoints_Ok (ps : list (option Vector)) (tp : float) (out : list Vector) :
  Z.of_nat (length ps) <= Array.MAX_LENGTH ->
  tweenPoints ps tween tp = Ok out ->
  checkIfListOfPoints ps = true
  /\ exists T, Number.toInteger tp = Some T /\ 2 <= T
     /\ ((Z.of_nat (length ps) <= T /\ out = defined ps)
         \/ (T < Z.of_nat (length ps)
             /\ mapR (tweenPoint (defined ps) tween tp) (seq 0 (Z.to_nat T)) = Ok out)).
Proof.
  intros HL. unfold tweenPoints.
  destruct (checkIfListOfPoints ps) eqn:V; cbn [negb]; [| discriminate].
  destruct (Number.isInteger tp) eqn:I; cbn [negb orb]; [| discriminate].
  apply isInteger_toInteger in I as [T HT].
  rewrite (ltb_integers tp 2 T 2 HT eq_refl).
  destruct (Z.ltb_spec T 2); [discriminate|].
  rewrite (defined_length ps V).
  rewrite (leb_integers _ tp (Z.of_nat (length ps)) T
             (toInteger_of_nat _ (MAX_LENGTH_safe _ HL)) HT).
  intros Hout. split; [reflexivity|]. exists T. split; [assumption|]. split; [assumption|].
  destruct (Z.leb_spec (Z.of_nat (length ps)) T).
  - left. injection Hout as <-. auto.
  - right. split; [assumption|].
    rewrite (pushes_integer tp T HT) in Hout by lia. exact Hout.
Qed.

(** What comes out of [tweenPoints] starts and ends as what went in. *)
Lemma tweenPoints_endpoints (ps : list (option Vector)) (tp : float) (out : list Vector) :
  Z.of_nat (length ps) <= Array.MAX_LENGTH ->
  tweenPoints ps tween tp = Ok out ->
  (2 <= length ps)%nat ->
  (2 <= length out)%nat
  /\ Some (nth_error out 0) = nth_error ps 0
  /\ Some (nth_error out (length out - 1)) = nth_error ps (length ps - 1).
Proof.
  intros HL H H2.
  destruct (tweenPoints_Ok ps tp out HL H) as (V & T & HT & T2 & C).
  pose proof (defined_length ps V) as EL.
  rewrite !(fun i => nth_error_defined ps i V).
  destruct (nth_error (defined ps) 0) as [p0|] eqn:E0.
  2:{ apply nth_error_None in E0. lia. }
  destruct (nth_error (defined ps) (length ps - 1)) as [p1|] eqn:E1.
  2:{ apply nth_error_None in E1. lia. }
  cbn [option_map].
  destruct C as [[Le ->] | [Lt M]].
  - rewrite EL, E0, E1. auto.
  - destruct (mapR_Ok _ _ _ M) as [Lo N]. rewrite length_seq in Lo.
    split; [lia|]. rewrite Lo.
    destruct (N 0%nat 0%nat) as (b0 & Hb0 & F0).
    { rewrite nth_error_seq. destruct (Nat.ltb_spec 0 (Z.to_nat T)); [reflexivity | lia]. }
    destruct (N (Z.to_nat T - 1)%nat (Z.to_nat T - 1)%nat) as (b1 & Hb1 & F1).
    { rewrite nth_error_seq.
      destruct (Nat.ltb_spec (Z.to_nat T - 1) (Z.to_nat T)); [reflexivity | lia]. }
    rewrite tweenPoint_first in F0.
    rewrite (tweenPoint_last _ tp T HT) in F1 by lia.
    rewrite EL, E0, E1, !spread_Some in *.
    rewrite Hb0, Hb1. injection F0 as <-. injection F1 as <-. auto.
Qed.
End Tween.

Lemma Forall2_length' {A B} (R : A -> B -> Prop) l l' :
  Forall2 R l l' -> length l' = length l.
Proof. induction 1; cbn; congruence. Qed.

Lemma list_ends {A} (l : list A) (a b : A) :
  (2 <= length l)%nat -> nth_error l 0 = Some a ->
  nth_error l (length l - 1) = Some b ->
  exists middle, l = a :: middle ++ [b].
Proof.
  intros L H0 H1. destruct l as [| x l]; [discriminate|]. injection H0 as ->.
  destruct (exists_last (l := l)) as (middle & y & ->).
  { intros ->. cbn in L. lia. }
  exists middle. f_equal. f_equal.
  cbn [length] in H1. rewrite length_app in H1. cbn [length] in H1.
  replace (S (length middle + 1) - 1)%nat with (S (length middle)) in H1 by lia.
  cbn [nth_error] in H1. rewrite nth_error_app2 in H1 by lia.
  rewrite Nat.sub_diag in H1. cbn in H1. congruence.
Qed.

Section Pipeline.
Variable Math_pow : float -> float -> float.
Variables Math_log Math_cos : float -> float.
Variable random : nat -> float.

(** The ways [generatePoints] returns: no point at all when the
    distance is NaN, and else a curve of [midPtsCnt] points from
    [fromPoint] to [toPoint]. *)
Lemma generatePoints_Ok (fromPoint toPoint : Vector) (knots curve : list Vector) :
  generatePoints Math_pow fromPoint toPoint knots = Ok curve ->
  checkIfListOfPoints (map Some knots) = true
  /\ (curve = []
      \/ exists k : nat,
           Number.toInteger (midPtsCnt Math_pow fromPoint toPoint) = Some (Z.of_nat k)
           /\ (50 <= k)%nat /\ Z.of_nat k <= Array.MAX_LENGTH
           /\ length curve = k
           /\ nth_error curve 0 = Some fromPoint
           /\ nth_error curve (k - 1) = Some toPoint).
Proof.
  unfold generatePoints.
  destruct (checkIfListOfPoints (map Some knots)); cbn [negb]; [| discriminate].
  intros H. split; [reflexivity|].
  set (all := fromPoint :: knots ++ [toPoint]) in *.
  unfold midPtsCnt in *.
  destruct (max_floor_50_cases (distance Math_pow fromPoint toPoint))
    as [E | [E | (z & Hz & Z50)]].
  - rewrite E in H. left. cbv in H. congruence.
  - rewrite E in H. cbv in H. discriminate.
  - right. destruct (Z_le_gt_dec z Array.MAX_LENGTH) as [Le | Gt].
    + exists (Z.to_nat z). rewrite Z2Nat.id by lia.
      assert (Hk : Number.toInteger (Math.max (Math.floor (distance Math_pow fromPoint toPoint)) 50)
                   = Some (Z.of_nat (Z.to_nat z))) by (rewrite Z2Nat.id by lia; exact Hz).
      rewrite (calculatePointsInCurve_integer Math_pow _ (Z.to_nat z) all Hk) in H by lia.
      injection H as <-.
      split; [assumption|]. split; [lia|]. split; [lia|].
      split; [rewrite length_map, length_seq; reflexivity|].
      rewrite !nth_error_map_seq by lia.
      rewrite curvePoint_first, (curvePoint_last Math_pow _ _ all Hk) by lia.
      unfold all. cbn [nth_error length]. rewrite length_app. cbn [length].
      replace (S (length knots + 1) - 1)%nat with (S (length knots)) by lia.
      cbn [nth_error]. rewrite nth_error_app2 by lia.
      rewrite Nat.sub_diag. cbn [nth_error]. rewrite !spread_Some. auto.
    + unfold calculatePointsInCurve in H.
      rewrite (pushes_too_many _ z Hz) in H by lia.
      destruct (_ <? 2)%float; discriminate.
Qed.

Lemma distortPoints_Ok (points : list Vector) (mean stdDev freq : float)
  (c c' : nat) (ds : list (option Vector)) :
  distortPoints Math_log Math_cos random points mean stdDev freq c = (Ok ds, c') ->
  distortionsValid points mean stdDev freq = true
  /\ exists middle,
       ds = [nth_error points 0] ++ middle ++ [nth_error points (length points - 1)]
       /\ Forall2 (fun p q => exists v, q = Some v /\ Vector.x v = Vector.x p)
                  (interior points) middle.
Proof.
  intros H. destruct (distortionsValid points mean stdDev freq) eqn:V.
  - split; [reflexivity|].
    destruct (distortPoints_valid Math_log Math_cos random points mean stdDev freq c V)
      as (middle & c1 & E & F).
    rewrite E in H. injection H as <- <-. exists middle. split; [reflexivity | exact F].
  - destruct (distortPoints_invalid Math_log Math_cos random points mean stdDev freq c V)
      as (msg & E).
    rewrite E in H. discriminate.
Qed.

(** The stages of a run of [generateCurve] that returns. *)
Lemma generateCurve_Ok (fromPoint toPoint : Vector) (options : HumanCurveOptions)
  (c c' : nat) (out : list Vector) :
  generateCurve Math_pow Math_log Math_cos random fromPoint toPoint options c
  = (Ok out, c') ->
  exists knots c1 curve ds,
    generatePoints Math_pow fromPoint toPoint knots = Ok curve
    /\ distortPoints Math_log Math_cos random curve
         (orElse (distortionMean options) 1%float)
         (orElse (distortionStDev options) 1%float)
         (orElse (distortionFrequency options) 0.5%float) c1 = (Ok ds, c')
    /\ tweenPoints ds (orElse (tweening options) easeOutQuad)
         (orElse (targetPoints options) 100%float) = Ok out.
Proof.
  unfold generateCurve, bind, lift.
  destruct (generateInternalKnots _ _ _ _ _ _ c) as [[knots | e] c1]; [| discriminate].
  destruct (generatePoints Math_pow fromPoint toPoint knots) as [curve | e] eqn:G;
    [| discriminate].
  destruct (distortPoints _ _ _ curve _ _ _ c1) as [[ds | e] c2] eqn:D; [| discriminate].
  destruct (tweenPoints ds _ _) as [out' | e] eqn:T; [| discriminate].
  intros [= <- <-]. exists knots, c1, curve, ds. auto.
Qed.

(** A run of [generateCurve] that returns went through a curve of
    [midPtsCnt] points and a distorted array with the same ends. *)
Lemma generateCurve_stages (fromPoint toPoint : Vector) (options : HumanCurveOptions)
  (c c' : nat) (out : list Vector) :
  generateCurve Math_pow Math_log Math_cos random fromPoint toPoint options c
  = (Ok out, c') ->
  exists (k : nat) (ds : list (option Vector)),
    Number.toInteger (midPtsCnt Math_pow fromPoint toPoint) = Some (Z.of_nat k)
    /\ (50 <= k)%nat /\ Z.of_nat k <= Array.MAX_LENGTH
    /\ length ds = k
    /\ nth_error ds 0 = Some (Some fromPoint)
    /\ nth_error ds (k - 1) = Some (Some toPoint)
    /\ tweenPoints ds (orElse (tweening options) easeOutQuad)
         (orElse (targetPoints options) 100%float) = Ok out.
Proof.
  intros H. destruct (generateCurve_Ok _ _ _ _ _ _ H) as (knots & c1 & curve & ds & G & D & T).
  destruct (distortPoints_Ok _ _ _ _ _ _ _ D) as (V & middle & -> & F).
  apply Forall2_length' in F. rewrite interior_length in F.
  destruct (generatePoints_Ok _ _ _ _ G) as (_ & [-> | (k & Hk & K50 & KM & L & P0 & P1)]).
  - cbn in F. destruct middle; [| discriminate]. cbn in T. discriminate.
  - exists k, ([nth_error curve 0] ++ middle ++ [nth_error curve (length curve - 1)]).
    split; [assumption|]. split; [assumption|]. split; [assumption|].
    split; [rewrite !length_app; cbn [length]; lia|].
    rewrite L, P0, P1 in *.
    split; [reflexivity|]. split; [| exact T].
    replace (k - 1)%nat with (S (length middle)) by lia.
    cbn [app nth_error]. rewrite nth_error_app2 by lia.
    rewrite Nat.sub_diag. reflexivity.
Qed.
End Pipeline.

(** ** Multiplication of numbers commutes *)

Lemma SFmul_comm (x y : spec_float) : SFmul prec emax x y = SFmul prec emax y x.
Proof.
  destruct x as [sx | sx | | sx mx ex], y as [sy | sy | | sy my ey];
    cbn [SFmul]; rewrite ?(xorb_comm sx sy); try reflexivity.
  rewrite (Pos.mul_comm mx my), (Z.add_comm ex ey). reflexivity.
Qed.

Lemma mul_comm (a b : float) : (a * b)%float = (b * a)%float.
Proof.
  apply Prim2SF_inj. rewrite !mul_spec. apply SFmul_comm.
Qed.





(** C8: on every valid input, for every outcome of the draws,
    [distortPoints] returns; each input point is answered, at its index,
    by an output point with the same x-coordinate (an input of two points
    or more gives as many points back), and the first and the last output
    slots hold the first and the last input points themselves. *)
Theorem distortPoints_frame (Math_log Math_cos : float -> float)
  (random : nat -> float) (points : list Vector)
  (distortionMean distortionStDev distortionFrequency : float) (c : nat) :
  distortionsValid points distortionMean distortionStDev distortionFrequency = true ->
  exists out c',
    distortPoints Math_log Math_cos random points
      distortionMean distortionStDev distortionFrequency c = (Ok out, c')
    /\ ((2 <= length points)%nat -> length out = length points)
    /\ (forall i p, nth_error points i = Some p ->
          exists q, nth_error out i = Some (Some q) /\ Vector.x q = Vector.x p)
    /\ nth_error out 0 = Some (nth_error points 0)
    /\ nth_error out (length out - 1) = Some (nth_error points (length points - 1)).
Proof.
  intros V.
  destruct (distortPoints_valid Math_log Math_cos random points _ _ _ c V)
    as (middle & c' & E & F).
  exists ([nth_error points 0] ++ middle ++ [nth_error points (length points - 1)]), c'.
  split; [exact E|].
  pose proof (Forall2_length' _ _ _ F) as L. rewrite interior_length in L.
  assert (Llast : forall A (a b : A) (m : list A),
             nth_error ([a] ++ m ++ [b]) (S (length m)) = Some b).
  { intros A a b m. cbn [app nth_error]. rewrite nth_error_app2 by lia.
    rewrite Nat.sub_diag. reflexivity. }
  split; [rewrite !length_app; cbn [length]; lia|].
  split; [| split].
  - intros i p Hp.
    assert (Hi : (i < length points)%nat) by (apply nth_error_Some; congruence).
    destruct (Nat.eq_dec i 0) as [-> | Ni].
    { exists p. rewrite Hp. split; reflexivity. }
    destruct (Nat.eq_dec i (length points - 1)) as [-> | Nl].
    { exists p. replace (length points - 1)%nat with (S (length middle)) by lia.
      rewrite Llast. replace (S (length middle)) with (length points - 1)%nat by lia.
      rewrite Hp. split; reflexivity. }
    destruct i as [| i]; [congruence|].
    assert (Hint : nth_error (interior points) i = Some p).
    { rewrite nth_error_interior by lia. exact Hp. }
    destruct (Forall2_nth_error _ _ _ F i p Hint) as (q & Hq & v & -> & Hx).
    exists v. split; [| exact Hx].
    cbn [app nth_error]. rewrite nth_error_app1 by lia. exact Hq.
  - reflexivity.
  - rewrite !length_app. cbn [length].
    replace (1 + (length middle + 1) - 1)%nat with (S (length middle)) by lia.
    apply Llast.
Qed.

Lemma distortPoints_frame_witness :
  exists out c',
    distortPoints Sample.log Sample.cos Sample.draws
      [Vector.mk 0 0; Vector.mk 1 5; Vector.mk 2 7; Vector.mk 3 1] 1 1 0.5 0%nat
    = (Ok out, c')
    /\ ((2 <= 4)%nat -> length out = 4%nat)
    /\ (forall i p,
          nth_error [Vector.mk 0 0; Vector.mk 1 5; Vector.mk 2 7; Vector.mk 3 1] i
          = Some p ->
          exists q, nth_error out i = Some (Some q) /\ Vector.x q = Vector.x p)
    /\ nth_error out 0 = Some (Some (Vector.mk 0 0))
    /\ nth_error out (length out - 1) = Some (Some (Vector.mk 3 1)).
Proof.
  apply (distortPoints_frame Sample.log Sample.cos Sample.draws
           [Vector.mk 0 0; Vector.mk 1 5; Vector.mk 2 7; Vector.mk 3 1] 1 1 0.5 0%nat).
  vm_compute. reflexivity.
Defined.

Section TweenClaims.
Variable tween : TweeningFunction.


End TweenClaims.


Section PipelineClaims.
Variable Math_pow : float -> float -> float.
Variables Math_log Math_cos : float -> float.
Variable random : nat -> float.

(** C1: whenever [new HumanizeMouseTrajectory(fromPoint, toPoint,
    options)] passes every validation and returns, for every draw of
    knots and distortions and with or without resampling, its points
    are [fromPoint], ..., [toPoint]: the first point is the origin and
    the last the destination, as the same numbers. *)
Theorem trajectory_endpoints_exact (fromPoint toPoint : Vector)
  (options : HumanCurveOptions) (c c' : nat) (t : HumanizeMouseTrajectory) :
  newHumanizeMouseTrajectory Math_pow Math_log Math_cos random
    fromPoint toPoint options c = (Ok t, c') ->
  exists middle, points t = fromPoint :: middle ++ [toPoint].
Proof.
  unfold newHumanizeMouseTrajectory, bind, ret.
  destruct (generateCurve _ _ _ _ _ _ _ c) as [[out | e] c1] eqn:G; [| discriminate].
  intros [= <- <-]. cbn [points].
  destruct (generateCurve_stages _ _ _ _ _ _ _ _ _ _ G)
    as (k & ds & _ & K50 & KM & L & D0 & D1 & T).
  destruct (tweenPoints_endpoints _ ds _ out ltac:(lia) T ltac:(lia)) as (L2 & E0 & E1).
  rewrite L in E1. rewrite D0 in E0. rewrite D1 in E1.
  apply list_ends; [assumption | congruence | congruence].
Qed.

End PipelineClaims.

Lemma trajectory_endpoints_exact_witness :
  exists t c',
    newHumanizeMouseTrajectory Sample.pow Sample.log Sample.cos Sample.draws
      (Vector.mk 10 20) (Vector.mk 40 60) Sample.options 0%nat = (Ok t, c')
    /\ exists middle, points t = Vector.mk 10 20 :: middle ++ [Vector.mk 40 60].
Proof.
  eexists _, _. split.
  - vm_compute. reflexivity.
  - eapply (trajectory_endpoints_exact Sample.pow Sample.log Sample.cos Sample.draws
              (Vector.mk 10 20) (Vector.mk 40 60) Sample.options 0%nat).
    vm_compute. reflexivity.
Defined.


(** ** Which stage raises what *)

Lemma mapR_Throw {A B} (f : A -> result B) (l : list A) (e : exn) :
  mapR f l = Throw e -> exists a, In a l /\ f a = Throw e.
Proof.
  induction l as [| a l IH]; cbn [mapR]; [discriminate|].
  destruct (f a) as [b | e'] eqn:Fa; cbn [bindR].
  - destruct (mapR f l) as [bs | e'']; cbn [bindR]; [discriminate|].
    intros [= <-]. destruct (IH eq_refl) as (x & Hx & Fx). exists x. split; [right|]; assumption.
  - intros [= <-]. exists a. split; [left; reflexivity | assumption].
Qed.

Lemma pushes_Throw (n : float) (e : exn) :
  Array.pushes n = Throw e -> e = RangeError "Invalid array length".
Proof.
  unfold Array.pushes. destruct (Array.trips n) as [k|]; [| congruence].
  destruct (k <=? Array.MAX_LENGTH); congruence.
Qed.

Lemma midPtsCnt_not_below_2 (d : float) :
  (Math.max (Math.floor d) 50 <? 2)%float = false.
Proof.
  destruct (max_floor_50_cases d) as [-> | [-> | (k & Hk & K50)]]; try reflexivity.
  rewrite (ltb_integers _ 2 k 2 Hk eq_refl). destruct (Z.ltb_spec k 2); [lia | reflexivity].
Qed.

Section Stages.
Variable Math_pow : float -> float -> float.
Variables Math_log Math_cos : float -> float.
Variable random : nat -> float.

Lemma randomKnots_return (l r d u : float) (idx : list nat) (c : nat) :
  exists knots c',
    mapC (fun _ : nat => randomKnot random l r d u) idx c = (Ok knots, c')
    /\ length knots = length idx.
Proof.
  destruct (mapC_Forall2 (fun _ _ => True) (fun _ : nat => randomKnot random l r d u) idx)
    with (c := c) as (knots & c' & E & F).
  { intros a c0. unfold randomKnot, bind, Math_random, ret.
    eexists _, _. split; [reflexivity | exact I]. }
  exists knots, c'. split; [exact E|]. exact (Forall2_length' _ _ _ F).
Qed.

Lemma generateInternalKnots_cases (l r d u kc : float) (c : nat) :
  (boundaryFailure l r d u = true
   /\ exists msg, generateInternalKnots random l r d u kc c = (Throw (Error msg), c))
  \/ (boundaryFailure l r d u = false
      /\ ((exists knots c1, generateInternalKnots random l r d u kc c = (Ok knots, c1))
          \/ exists msg, generateInternalKnots random l r d u kc c
                         = (Throw (RangeError msg), c))).
Proof.
  unfold boundaryFailure, generateInternalKnots.
  destruct (negb (checkIfNumeric l) || negb (checkIfNumeric r)
            || negb (checkIfNumeric d) || negb (checkIfNumeric u)); cbn [orb].
  { left. split; [reflexivity | eexists; reflexivity]. }
  destruct (r <? l)%float; cbn [orb].
  { left. split; [reflexivity | eexists; reflexivity]. }
  destruct (u <? d)%float; cbn [orb].
  { left. split; [reflexivity | eexists; reflexivity]. }
  right. split; [reflexivity|]. unfold bind, lift.
  destruct (Array.pushes _) as [idx | e] eqn:P.
  - left. destruct (randomKnots_return l r d u idx c) as (knots & c' & E & _).
    exists knots, c'. exact E.
  - right. apply pushes_Throw in P. subst e. eexists. reflexivity.
Qed.

Lemma generatePoints_cases (fromPoint toPoint : Vector) (knots : list Vector) :
  (checkIfListOfPoints (map Some knots) = false
   /\ exists msg, generatePoints Math_pow fromPoint toPoint knots = Throw (Error msg))
  \/ (checkIfListOfPoints (map Some knots) = true
      /\ ((exists curve, generatePoints Math_pow fromPoint toPoint knots = Ok curve)
          \/ exists msg, generatePoints Math_pow fromPoint toPoint knots
                         = Throw (RangeError msg))).
Proof.
  unfold generatePoints.
  destruct (checkIfListOfPoints (map Some knots)); cbn [negb].
  2:{ left. split; [reflexivity | eexists; reflexivity]. }
  right. split; [reflexivity|].
  unfold calculatePointsInCurve, midPtsCnt. rewrite midPtsCnt_not_below_2.
  destruct (Array.pushes _) as [idx | e] eqn:P; cbn [bindR].
  - left. eexists. reflexivity.
  - right. apply pushes_Throw in P. subst e. eexists. reflexivity.
Qed.

Lemma tweenPoint_Throw (pts : list Vector) (tween : TweeningFunction)
  (tp : float) (i : nat) (e : exn) :
  tweenPoint pts tween tp i = Throw e -> exists msg, e = TypeError msg.
Proof.
  unfold tweenPoint.
  destruct (i =? 0)%nat; [discriminate|].
  destruct (_ =? _)%float; [discriminate|].
  destruct (Array.get pts _); [| intros [= <-]; eauto].
  destruct (Array.get pts _); [discriminate | intros [= <-]; eauto].
Qed.

Lemma tweenPoints_cases (ds : list (option Vector)) (tween : TweeningFunction)
  (tp : float) :
  ((checkIfListOfPoints ds = false \/ targetFailure tp = true)
   /\ exists msg, tweenPoints ds tween tp = Throw (Error msg))
  \/ (checkIfListOfPoints ds = true /\ targetFailure tp = false
      /\ ((exists out, tweenPoints ds tween tp = Ok out)
          \/ platformError (tweenPoints ds tween tp))).
Proof.
  unfold tweenPoints, targetFailure.
  destruct (checkIfListOfPoints ds); cbn [negb].
  2:{ left. split; [auto | eexists; reflexivity]. }
  destruct (negb (Number.isInteger tp) || (tp <? 2)%float).
  { left. split; [auto | eexists; reflexivity]. }
  right. split; [reflexivity|]. split; [reflexivity|].
  destruct (_ <=? tp)%float; [left; eexists; reflexivity|].
  destruct (Array.pushes tp) as [idx | e] eqn:P; cbn [bindR].
  - destruct (mapR _ idx) as [out | e] eqn:M.
    + left. eexists. reflexivity.
    + right. apply mapR_Throw in M as (i & _ & Hi).
      apply tweenPoint_Throw in Hi as [msg ->]. exists msg. auto.
  - right. apply pushes_Throw in P. subst e. eexists. left. reflexivity.
Qed.
End Stages.

Lemma parameterFailure_split (i : CurveInputs) :
  parameterFailure i
  = boundaryFailure (in_left i) (in_right i) (in_down i) (in_up i)
    || (negb (checkIfNumeric (in_mean i)) || negb (checkIfNumeric (in_stDev i))
        || negb (checkIfNumeric (in_frequency i))
        || (in_frequency i <? 0)%float || (1 <? in_frequency i)%float)
    || targetFailure (in_targetPoints i).
Proof.
  unfold parameterFailure, boundaryFailure, targetFailure.
  rewrite <- !orb_assoc. reflexivity.
Qed.

Lemma distortionsValid_split (points : list Vector) (mean stDev freq : float) :
  distortionsValid points mean stDev freq
  = negb (negb (checkIfNumeric mean) || negb (checkIfNumeric stDev)
          || negb (checkIfNumeric freq) || (freq <? 0)%float || (1 <? freq)%float)
    && checkIfListOfPoints (map Some points).
Proof.
  unfold distortionsValid.
  destruct (checkIfNumeric mean), (checkIfNumeric stDev), (checkIfNumeric freq),
    (checkIfListOfPoints (map Some points)), (freq <? 0)%float, (1 <? freq)%float;
    reflexivity.
Qed.

Section Validation.
Variable Math_pow : float -> float -> float.
Variables Math_log Math_cos : float -> float.
Variable random : nat -> float.

Lemma generateCurve_resolve (fromPoint toPoint : Vector)
  (options : HumanCurveOptions) (c : nat) :
  generateCurve Math_pow Math_log Math_cos random fromPoint toPoint options c
  = let i := resolve fromPoint toPoint options in
    (internalKnots <- generateInternalKnots random (in_left i) (in_right i)
                        (in_down i) (in_up i) (in_knotsCount i) ;;
     points <- lift (generatePoints Math_pow fromPoint toPoint internalKnots) ;;
     points <- distortPoints Math_log Math_cos random points
                 (in_mean i) (in_stDev i) (in_frequency i) ;;
     lift (tweenPoints points (in_tween i) (in_targetPoints i))) c.
Proof. reflexivity. Qed.

(** A non-integer or negative [knotsCount] counts as 0. *)
Lemma generateInternalKnots_coerced (l r d u kc : float) (c : nat) :
  boundaryFailure l r d u = false ->
  negb (Number.isInteger kc) || (kc <? 0)%float = true ->
  generateInternalKnots random l r d u kc c = (Ok [], c).
Proof.
  unfold boundaryFailure, generateInternalKnots. intros B K. rewrite K.
  destruct (negb (checkIfNumeric l) || negb (checkIfNumeric r)
            || negb (checkIfNumeric d) || negb (checkIfNumeric u)); [discriminate|].
  destruct (r <? l)%float; [discriminate|].
  destruct (u <? d)%float; [discriminate|]. reflexivity.
Qed.

(** C3, as the code has it: apart from the platform's own exceptions,
    a run of [generateCurve] raises exactly when a parameter fails a
    guard (a boundary is not numeric, [left > right], [down > up], a
    distortion parameter is not numeric, [distortionFrequency] is
    outside [[0,1]], [targetPoints] is not an integer or is below 2) or
    a point list handed from stage to stage holds a coordinate that is
    not numeric; otherwise it returns a sequence.  A non-integer or
    negative [knotsCount] is taken as 0 and raises nothing. *)
Theorem validation_errors (fromPoint toPoint : Vector)
  (options : HumanCurveOptions) (c : nat) :
  let i := resolve fromPoint toPoint options in
  let run := fst (generateCurve Math_pow Math_log Math_cos random
                    fromPoint toPoint options c) in
  ~ platformError run ->
  ((exists e, run = Throw e)
   <-> parameterFailure i = true
       \/ pointListFailure Math_pow Math_log Math_cos random fromPoint toPoint i c)
  /\ (parameterFailure i = false ->
      ~ pointListFailure Math_pow Math_log Math_cos random fromPoint toPoint i c ->
      exists out, run = Ok out)
  /\ (boundaryFailure (in_left i) (in_right i) (in_down i) (in_up i) = false ->
      negb (Number.isInteger (in_knotsCount i)) || (in_knotsCount i <? 0)%float = true ->
      generateInternalKnots random (in_left i) (in_right i) (in_down i) (in_up i)
        (in_knotsCount i) c = (Ok [], c)).
Proof.
  intros i run. subst run. rewrite generateCurve_resolve. fold i. cbv zeta.
  unfold pointListFailure. rewrite parameterFailure_split.
  generalize i. clear i. intros i. unfold bind, lift.
  intros NP.
  assert (Main :
    (exists e, fst (let (r, c') := generateInternalKnots random (in_left i) (in_right i)
                      (in_down i) (in_up i) (in_knotsCount i) c in
                    match r with
                    | Ok a =>
                        let (r0, c'0) := (generatePoints Math_pow fromPoint toPoint a, c') in
                        match r0 with
                        | Ok a0 =>
                            let (r1, c'1) := distortPoints Math_log Math_cos random a0
                                               (in_mean i) (in_stDev i) (in_frequency i) c'0 in
                            match r1 with
                            | Ok a1 => (tweenPoints a1 (in_tween i) (in_targetPoints i), c'1)
                            | Throw e => (Throw e, c'1)
                            end
                        | Throw e => (Throw e, c'0)
                        end
                    | Throw e => (Throw e, c')
                    end) = Throw e)
    <-> (boundaryFailure (in_left i) (in_right i) (in_down i) (in_up i)
         || (negb (checkIfNumeric (in_mean i)) || negb (checkIfNumeric (in_stDev i))
             || negb (checkIfNumeric (in_frequency i))
             || (in_frequency i <? 0)%float || (1 <? in_frequency i)%float)
         || targetFailure (in_targetPoints i) = true
         \/ exists knots c1,
              generateInternalKnots random (in_left i) (in_right i) (in_down i) (in_up i)
                (in_knotsCount i) c = (Ok knots, c1)
              /\ (checkIfListOfPoints (map Some knots) = false
                  \/ exists curve,
                       generatePoints Math_pow fromPoint toPoint knots = Ok curve
                       /\ (checkIfListOfPoints (map Some curve) = false
                           \/ exists ds c2,
                                distortPoints Math_log Math_cos random curve
                                  (in_mean i) (in_stDev i) (in_frequency i) c1 = (Ok ds, c2)
                                /\ checkIfListOfPoints ds = false)))).
  { revert NP.
    destruct (generateInternalKnots_cases random (in_left i) (in_right i) (in_down i)
                (in_up i) (in_knotsCount i) c)
      as [(B & msg & ->) | (B & [(knots & c1 & ->) | (msg & ->)])]; rewrite B; cbn [orb fst].
    { intros _. split; [auto | eauto]. }
    2:{ intros NP. exfalso. apply NP. exists msg. auto. }
    destruct (generatePoints_cases Math_pow fromPoint toPoint knots)
      as [(K & msg & G) | (K & [(curve & G) | (msg & G)])]; rewrite G; cbn [fst].
    { intros _. split; [| eauto]. intros _. right. exists knots, c1. auto. }
    2:{ intros NP. exfalso. apply NP. exists msg. auto. }
    set (bad := negb (checkIfNumeric (in_mean i)) || negb (checkIfNumeric (in_stDev i))
                || negb (checkIfNumeric (in_frequency i))
                || (in_frequency i <? 0)%float || (1 <? in_frequency i)%float).
    pose proof (distortionsValid_split curve (in_mean i) (in_stDev i) (in_frequency i)) as DV.
    fold bad in DV.
    destruct (distortionsValid curve (in_mean i) (in_stDev i) (in_frequency i)) eqn:V.
    - destruct (distortPoints_valid Math_log Math_cos random curve _ _ _ c1 V)
        as (middle & c2 & E & _).
      rewrite E. cbn [fst].
      symmetry in DV. apply andb_true_iff in DV as [Hbad Hcurve].
      apply negb_true_iff in Hbad. rewrite Hbad. cbn [orb].
      set (ds := [nth_error curve 0] ++ middle ++ [nth_error curve (length curve - 1)]) in *.
      destruct (tweenPoints_cases ds (in_tween i) (in_targetPoints i))
        as [(F & msg & ->) | (Vd & TF & [(out & ->) | P])].
      + intros _. split; [| eauto]. intros _.
        destruct F as [F | F]; [| left; exact F].
        right. exists knots, c1. split; [reflexivity|]. right.
        exists curve. split; [exact G|]. right. exists ds, c2. auto.
      + intros _. rewrite TF. split.
        * intros [e He]. discriminate.
        * intros [F | (knots' & c1' & [= <- <-] & [F | (curve' & G' & [F | (ds' & c2' & E' & F)])])];
            congruence.
      + intros NP. exfalso. exact (NP P).
    - destruct (distortPoints_invalid Math_log Math_cos random curve _ _ _ c1 V)
        as (msg & ->).
      cbn [fst]. intros _. split; [| eauto]. intros _.
      symmetry in DV. apply andb_false_iff in DV as [Hbad | Hcurve].
      + apply negb_false_iff in Hbad. rewrite Hbad. left. reflexivity.
      + right. exists knots, c1. split; [reflexivity|]. right.
        exists curve. split; [exact G|]. left. exact Hcurve. }
  split; [exact Main|]. split.
  - intros PF NL.
    match goal with |- exists out, fst ?r = Ok out => destruct (fst r) as [out | e] eqn:R end.
    + eauto.
    + exfalso. destruct Main as [M _]. destruct (M (ex_intro _ e eq_refl)) as [F | F].
      * congruence.
      * exact (NL F).
  - apply generateInternalKnots_coerced.
Qed.
End Validation.

Lemma validation_errors_witness :
  parameterFailure
    (resolve (Vector.mk 10 20) (Vector.mk 40 60) Sample.optionsNaNMean) = true
  /\ exists e,
       fst (generateCurve Sample.pow Sample.log Sample.cos Sample.draws
              (Vector.mk 10 20) (Vector.mk 40 60) Sample.optionsNaNMean 0%nat)
       = Throw e.
Proof.
  split; [vm_compute; reflexivity|].
  pose proof (validation_errors Sample.pow Sample.log Sample.cos Sample.draws
                (Vector.mk 10 20) (Vector.mk 40 60) Sample.optionsNaNMean 0%nat) as V.
  cbv zeta in V. apply V.
  - intros (msg & [E | E]); vm_compute in E; discriminate E.
  - left. vm_compute. reflexivity.
Defined.

(** A [distortionMean] that is not a number makes the pipeline raise,
    although no condition of the specification's list holds: the
    boundaries are numeric and ordered, [distortionFrequency] is 0.5,
    [targetPoints] is 100, and the knots and the sampled curve hold
    numeric coordinates only. *)
Lemma validation_list_incomplete :
  fst (generateCurve Sample.pow Sample.log Sample.cos Sample.draws
         (Vector.mk 10 20) (Vector.mk 40 60) Sample.optionsNaNMean 0%nat)
  = Throw (Error "Distortions must be numeric")
  /\ enumeratedParameterFailure
       (resolve (Vector.mk 10 20) (Vector.mk 40 60) Sample.optionsNaNMean) = false
  /\ exists knots c1 curve,
       generateInternalKnots Sample.draws
         (in_left (resolve (Vector.mk 10 20) (Vector.mk 40 60) Sample.optionsNaNMean))
         (in_right (resolve (Vector.mk 10 20) (Vector.mk 40 60) Sample.optionsNaNMean))
         (in_down (resolve (Vector.mk 10 20) (Vector.mk 40 60) Sample.optionsNaNMean))
         (in_up (resolve (Vector.mk 10 20) (Vector.mk 40 60) Sample.optionsNaNMean))
         (in_knotsCount (resolve (Vector.mk 10 20) (Vector.mk 40 60) Sample.optionsNaNMean))
         0%nat = (Ok knots, c1)
       /\ checkIfListOfPoints (map Some knots) = true
       /\ generatePoints Sample.pow (Vector.mk 10 20) (Vector.mk 40 60) knots = Ok curve
       /\ checkIfListOfPoints (map Some curve) = true.
Proof.
  split; [vm_compute; reflexivity|]. split; [vm_compute; reflexivity|].
  eexists _, _, _. split; [vm_compute; reflexivity|].
  split; [vm_compute; reflexivity|]. split; vm_compute; reflexivity.
Qed.

Section Knots.
Variable random : nat -> float.


End Knots.

Lemma cycle_unit (l : list float) :
  l <> [] ->
  forallb (fun u => (0 <=? u)%float && (u <? 1)%float) l = true ->
  unitDraws (Sample.cycle l).
Proof.
  intros NE F k. unfold Sample.cycle.
  assert (Hk : (k mod length l < length l)%nat).
  { apply Nat.mod_upper_bound. destruct l; [contradiction | discriminate]. }
  rewrite forallb_forall in F.
  specialize (F (nth (k mod length l) l 0.5%float) (nth_In _ _ Hk)).
  apply andb_true_iff in F. exact F.
Qed.

Lemma draws_unit : unitDraws Sample.draws.
Proof. apply cycle_unit; [discriminate | vm_compute; reflexivity]. Qed.



(** * Further properties of the code *)

(** ** calculate-and-randomize.ts *)

(** The scan of [weightedRandomChoice] ends on an item of the list, or on
    the item it was started with. *)
Lemma weightedScan_In {T} (items : list T) (weights : list float)
  (r : float) (last : option T) :
  match weightedScan items weights r last with
  | Some x => In x items \/ last = Some x
  | None => items = [] /\ last = None
  end.
Proof.
  revert weights r last. induction items as [| item items IH]; intros weights r last.
  - cbn. destruct last; auto.
  - cbn [weightedScan].
    destruct (r - hd nan weights <=? 0)%float; [left; left; reflexivity|].
    specialize (IH (tl weights) (r - hd nan weights)%float (Some item)).
    destruct (weightedScan items (tl weights) _ (Some item)) as [x |].
    + destruct IH as [H | [= <-]]; left; [right; exact H | left; reflexivity].
    + destruct IH as [_ [=]].
Qed.

Section Randomize.
Variable Math_pow : float -> float -> float.
Variables Math_cos Math_sin : float -> float.
Variable random : nat -> float.

(** [weightedRandomChoice(items, weights)] returns an item of a
    non-empty list, whatever the weights (too few, negative, NaN) and
    whatever the draw; it takes one draw. *)
Theorem weightedRandomChoice_member {T} (items : list T)
  (weights : list float) (c : nat) :
  items <> [] ->
  exists x,
    weightedRandomChoice random items weights c = (Ok (Some x), S c)
    /\ In x items.
Proof.
  intros NE. unfold weightedRandomChoice, bind, Math_random, ret.
  match goal with
  | |- context [weightedScan items weights ?r None] =>
      pose proof (weightedScan_In items weights r None) as H;
      destruct (weightedScan items weights r None) as [x |]
  end.
  - exists x. split; [reflexivity|]. destruct H as [H | [=]]. exact H.
  - destruct H as [E _]. contradiction.
Qed.

(** [randomFromRange(min, max)] for integers [min <= max] and a draw of
    [[0, 1)] is an integer of [min .. max]; it takes one draw. *)
Theorem randomFromRange_range (lo hi : float) (L R : Z) (c : nat) :
  unitDraws random ->
  Number.toInteger lo = Some L -> Number.toInteger hi = Some R -> L <= R ->
  Z.abs L < 2 ^ 52 -> Z.abs R < 2 ^ 52 ->
  exists x j,
    randomFromRange random lo hi c = (Ok x, S c)
    /\ Number.toInteger x = Some j /\ L <= j <= R.
Proof.
  intros U HL HR LR BL BR. destruct (U c) as [U0 U1].
  destruct (range_draw (random c) lo hi L R U0 U1 HL HR LR BL BR) as (j & Hj & Bj).
  unfold randomFromRange, bind, Math_random, ret.
  eexists _, j. split; [reflexivity|]. split; assumption.
Qed.
End Randomize.

Lemma weightedRandomChoice_member_witness :
  exists x,
    weightedRandomChoice Sample.draws [10%nat; 20%nat; 30%nat] [0.5; 0.25]%float 0%nat
    = (Ok (Some x), 1%nat)
    /\ In x [10%nat; 20%nat; 30%nat].
Proof.
  apply (weightedRandomChoice_member Sample.draws [10%nat; 20%nat; 30%nat]
           [0.5; 0.25]%float 0%nat).
  discriminate.
Defined.

Lemma randomFromRange_range_witness :
  exists x j,
    randomFromRange Sample.draws 20 44 0%nat = (Ok x, 1%nat)
    /\ Number.toInteger x = Some j /\ 20 <= j <= 44.
Proof.
  apply (randomFromRange_range Sample.draws 20 44 20 44 0%nat);
    try (vm_compute; reflexivity); try exact draws_unit.
  vm_compute. discriminate.
Defined.

(** An integer number is the number [Number.of_Z] makes of it. *)
Lemma integer_of_Z (x : float) (j : Z) :
  Number.toInteger x = Some j -> 0 < j < 2 ^ 53 -> x = Number.of_Z j.
Proof.
  intros H B. apply (toInteger_inj _ _ j H); [| lia].
  apply toInteger_of_Z. lia.
Qed.

(** A test that holds for the hundredths [lo/100 .. hi/100]. *)
Lemma hundredths (P : float -> bool) (lo : nat) (n : nat) :
  forallb (fun j => P (Number.of_Z (Z.of_nat j) / 100)%float) (seq lo n) = true ->
  forall j, Z.of_nat lo <= j < Z.of_nat (lo + n) ->
  P (Number.of_Z j / 100)%float = true.
Proof.
  intros F j B. rewrite forallb_forall in F.
  specialize (F (Z.to_nat j)). rewrite Z2Nat.id in F by lia.
  apply F. apply in_seq. lia.
Qed.

Section Bundle.
Variable Math_pow : float -> float -> float.
Variables Math_cos Math_sin : float -> float.
Variable random : nat -> float.
Hypothesis draws : unitDraws random.

Lemma choice_Some {T} (items : list T) (weights : list float) (c : nat) :
  items <> [] ->
  exists x,
    weightedRandomChoice random items weights c = (Ok (Some x), S c)
    /\ In x items.
Proof.
  intros NE. unfold weightedRandomChoice, bind, Math_random, ret.
  match goal with
  | |- context [weightedScan items weights ?r None] =>
      pose proof (weightedScan_In items weights r None) as H;
      destruct (weightedScan items weights r None) as [x |]
  end.
  - exists x. split; [reflexivity|]. destruct H as [H | [=]]. exact H.
  - destruct H as [E _]. contradiction.
Qed.

Lemma range_Ok (lo hi : float) (L R : Z) (c : nat) :
  Number.toInteger lo = Some L -> Number.toInteger hi = Some R -> L <= R ->
  Z.abs L < 2 ^ 52 -> Z.abs R < 2 ^ 52 ->
  exists x j,
    randomFromRange random lo hi c = (Ok x, S c)
    /\ Number.toInteger x = Some j /\ L <= j <= R.
Proof.
  intros HL HR LR BL BR. destruct (draws c) as [U0 U1].
  destruct (range_draw (random c) lo hi L R U0 U1 HL HR LR BL BR) as (j & Hj & Bj).
  unfold randomFromRange, bind, Math_random, ret.
  eexists _, j. split; [reflexivity|]. split; assumption.
Qed.

Ltac range_of lo hi L R c :=
  destruct (range_Ok lo hi L R c) as (x & j & E & Hj & Bj);
  [vm_compute; reflexivity | vm_compute; reflexivity | lia
  | vm_compute; reflexivity | vm_compute; reflexivity |];
  exists x, j; split; [exact E | split; [exact Hj | lia]].

(** The draw from one of the tiers [20..44], [45..74], [75..99]. *)
Lemma offset_draw (r : Range) (c : nat) :
  In r [ {| min := 20; max := 44 |}; {| min := 45; max := 74 |};
         {| min := 75; max := 99 |} ] ->
  exists x j, randomFromSelected random (Some r) c = (Ok x, S c)
              /\ Number.toInteger x = Some j /\ 20 <= j <= 99.
Proof.
  intros [<- | [<- | [<- | []]]]; cbn [randomFromSelected min max].
  - range_of 20%float 44%float 20 44 c.
  - range_of 45%float 74%float 45 74 c.
  - range_of 75%float 99%float 75 99 c.
Qed.

(** The draw from one of the tiers [35..44], [45..59], [60..79]. *)
Lemma target_draw (r : Range) (c : nat) :
  In r [ {| min := 35; max := 44 |}; {| min := 45; max := 59 |};
         {| min := 60; max := 79 |} ] ->
  exists x j, randomFromSelected random (Some r) c = (Ok x, S c)
              /\ Number.toInteger x = Some j /\ 35 <= j <= 79.
Proof.
  intros [<- | [<- | [<- | []]]]; cbn [randomFromSelected min max].
  - range_of 35%float 44%float 35 44 c.
  - range_of 45%float 59%float 45 59 c.
  - range_of 60%float 79%float 60 79 c.
Qed.

Lemma mean_draw (c : nat) :
  exists x j, randomFromRange random 80 109 c = (Ok x, S c)
              /\ Number.toInteger x = Some j /\ 80 <= j <= 109.
Proof. range_of 80%float 109%float 80 109 c. Qed.

Lemma stDev_draw (c : nat) :
  exists x j, randomFromRange random 85 109 c = (Ok x, S c)
              /\ Number.toInteger x = Some j /\ 85 <= j <= 109.
Proof. range_of 85%float 109%float 85 109 c. Qed.

Lemma frequency_draw (c : nat) :
  exists x j, randomFromRange random 25 69 c = (Ok x, S c)
              /\ Number.toInteger x = Some j /\ 25 <= j <= 69.
Proof. range_of 25%float 69%float 25 69 c. Qed.

Lemma knots_option (k : float) :
  In k [1; 2; 3; 4; 5; 6; 7; 8; 9; 10]%float ->
  exists z, Number.toInteger (Math.max k 2) = Some z /\ 2 <= z <= 10.
Proof.
  intros H. repeat (destruct H as [<- | H]; [eexists; split; [vm_compute; reflexivity | lia] |]).
  contradiction.
Qed.

(** [TWEEN_OPTIONS[Math.floor(Math.random() * TWEEN_OPTIONS.length)]]
    is one of the options. *)
Lemma tween_draw (c : nat) :
  exists f,
    Array.get (TWEEN_OPTIONS Math_pow Math_cos Math_sin)
      (Math.floor (random c
                   * Number.of_nat (length (TWEEN_OPTIONS Math_pow Math_cos Math_sin))))
    = Some f
    /\ In f (TWEEN_OPTIONS Math_pow Math_cos Math_sin).
Proof.
  destruct (draws c) as [U0 U1].
  change (length (TWEEN_OPTIONS Math_pow Math_cos Math_sin)) with 13%nat.
  assert (H13 : Number.toInteger (Number.of_nat 13) = Some 13)
    by (vm_compute; reflexivity).
  destruct (floor_unit_product (random c) _ 13 U0 U1 H13 ltac:(lia)) as (j & Hj & Bj).
  rewrite (get_integer _ _ j Hj) by lia.
  destruct (nth_error (TWEEN_OPTIONS Math_pow Math_cos Math_sin) (Z.to_nat j))
    as [f |] eqn:N.
  - exists f. split; [reflexivity|]. exact (nth_error_In _ _ N).
  - apply nth_error_None in N.
    change (length (TWEEN_OPTIONS Math_pow Math_cos Math_sin)) with 13%nat in N. lia.
Qed.
End Bundle.

Lemma mean_hundredths (j : Z) :
  80 <= j <= 109 ->
  (0.8 <=? Number.of_Z j / 100)%float && (Number.of_Z j / 100 <=? 1.09)%float = true.
Proof.
  intros B.
  apply (hundredths (fun x => (0.8 <=? x)%float && (x <=? 1.09)%float) 80 30);
    [vm_compute; reflexivity | lia].
Qed.

Lemma stDev_hundredths (j : Z) :
  85 <= j <= 109 ->
  (0.85 <=? Number.of_Z j / 100)%float && (Number.of_Z j / 100 <=? 1.09)%float = true.
Proof.
  intros B.
  apply (hundredths (fun x => (0.85 <=? x)%float && (x <=? 1.09)%float) 85 25);
    [vm_compute; reflexivity | lia].
Qed.

Lemma frequency_hundredths (j : Z) :
  25 <= j <= 69 ->
  (0.25 <=? Number.of_Z j / 100)%float && (Number.of_Z j / 100 <=? 0.69)%float = true.
Proof.
  intros B.
  apply (hundredths (fun x => (0.25 <=? x)%float && (x <=? 0.69)%float) 25 45);
    [vm_compute; reflexivity | lia].
Qed.

Section Parameters.
Variable Math_pow : float -> float -> float.
Variables Math_cos Math_sin : float -> float.
Variable random : nat -> float.

Ltac run E := unfold bind at 1; rewrite E; cbv beta iota zeta.

(** A run of [generateRandomCurveParameters] with draws of [[0, 1)]:
    the eleven draws it takes, the tiers it selects and the parameters
    before the distance comes in. *)
Lemma generateRandomCurveParameters_trace (preOrigin postDestination : Vector)
  (c : nat) :
  unitDraws random ->
  exists params rx ry offX offY jx jy f k t jm js jf,
    generateRandomCurveParameters Math_pow Math_cos Math_sin random
      preOrigin postDestination c = (Ok params, (11 + c)%nat)
    /\ p_offsetBoundaryX params
       = Math.max offX (Math.max 30 (distance Math_pow preOrigin postDestination * 0.15))
    /\ p_offsetBoundaryY params
       = Math.max offY (Math.max 30 (distance Math_pow preOrigin postDestination * 0.15))
    /\ Number.toInteger offX = Some jx /\ 20 <= jx <= 99
    /\ Number.toInteger offY = Some jy /\ 20 <= jy <= 99
    /\ p_tween params = Some f /\ In f (TWEEN_OPTIONS Math_pow Math_cos Math_sin)
    /\ Number.toInteger (p_knotsCount params) = Some k /\ 2 <= k <= 10
    /\ Number.toInteger (p_targetPoints params) = Some t /\ 35 <= t <= 79
    /\ p_distortionMean params = (Number.of_Z jm / 100)%float /\ 80 <= jm <= 109
    /\ p_distortionStDev params = (Number.of_Z js / 100)%float /\ 85 <= js <= 109
    /\ p_distortionFrequency params = (Number.of_Z jf / 100)%float /\ 25 <= jf <= 69
    /\ weightedRandomChoice random
         [ {| min := 20; max := 44 |}; {| min := 45; max := 74 |};
           {| min := 75; max := 99 |} ]%float [0.2; 0.65; 15]%float (S c)
       = (Ok (Some rx), S (S c))
    /\ randomFromSelected random (Some rx) (S (S c)) = (Ok offX, S (S (S c)))
    /\ weightedRandomChoice random
         [ {| min := 20; max := 44 |}; {| min := 45; max := 74 |};
           {| min := 75; max := 99 |} ]%float [0.2; 0.65; 15]%float (S (S (S c)))
       = (Ok (Some ry), S (S (S (S c))))
    /\ randomFromSelected random (Some ry) (S (S (S (S c))))
       = (Ok offY, S (S (S (S (S c))))).
Proof.
  intros U. unfold generateRandomCurveParameters.
  unfold bind at 1. unfold Math_random at 1. cbv beta iota zeta.
  destruct (tween_draw Math_pow Math_cos Math_sin random U c) as (f & Ef & Inf).
  rewrite Ef.
  destruct (choice_Some random
              [ {| min := 20; max := 44 |}; {| min := 45; max := 74 |};
                {| min := 75; max := 99 |} ]%float [0.2; 0.65; 15]%float (S c))
    as (rx & Ex & Inx); [discriminate|]. run Ex.
  destruct (offset_draw random U rx (S (S c)) Inx) as (offX & jx & EoX & HjX & BjX).
  run EoX.
  destruct (choice_Some random
              [ {| min := 20; max := 44 |}; {| min := 45; max := 74 |};
                {| min := 75; max := 99 |} ]%float [0.2; 0.65; 15]%float (S (S (S c))))
    as (ry & Ey & Iny); [discriminate|]. run Ey.
  destruct (offset_draw random U ry (S (S (S (S c)))) Iny) as (offY & jy & EoY & HjY & BjY).
  run EoY.
  destruct (choice_Some random [1; 2; 3; 4; 5; 6; 7; 8; 9; 10]%float
              [0.15; 0.36; 0.17; 0.12; 0.08; 0.04; 0.03; 0.02; 0.015; 0.005]%float
              (S (S (S (S (S c))))))
    as (kc & Ek & Ink); [discriminate|]. run Ek.
  destruct (knots_option kc Ink) as (k & Hk & Bk).
  destruct (mean_draw random U (S (S (S (S (S (S c)))))))
    as (r1 & jm & E1 & Hm & Bm). run E1.
  destruct (stDev_draw random U (S (S (S (S (S (S (S c))))))))
    as (r2 & js & E2 & Hs & Bs). run E2.
  destruct (frequency_draw random U (S (S (S (S (S (S (S (S c)))))))))
    as (r3 & jf & E3 & Hf & Bf). run E3.
  destruct (choice_Some random
              [ {| min := 35; max := 44 |}; {| min := 45; max := 59 |};
                {| min := 60; max := 79 |} ]%float [0.53; 0.32; 0.15]%float
              (S (S (S (S (S (S (S (S (S c))))))))))
    as (rt & Et & Int); [discriminate|]. run Et.
  destruct (target_draw random U rt (S (S (S (S (S (S (S (S (S (S c)))))))))) Int)
    as (tp & t & Etp & Ht & Bt).
  run Etp. unfold ret.
  eexists _, rx, ry, offX, offY, jx, jy, f, k, t, jm, js, jf.
  split; [reflexivity|]. cbn [p_offsetBoundaryX p_offsetBoundaryY p_tween p_knotsCount
    p_targetPoints p_distortionMean p_distortionStDev p_distortionFrequency orElse].
  assert (B53 : 2 ^ 53 = 9007199254740992) by reflexivity.
  repeat split; try assumption; try lia;
    f_equal; apply integer_of_Z; try assumption; lia.
Qed.

Lemma generateRandomCurveParameters_run (preOrigin postDestination : Vector)
  (c : nat) :
  unitDraws random ->
  exists params offX offY jx jy f k t jm js jf,
    generateRandomCurveParameters Math_pow Math_cos Math_sin random
      preOrigin postDestination c = (Ok params, (11 + c)%nat)
    /\ p_offsetBoundaryX params
       = Math.max offX (Math.max 30 (distance Math_pow preOrigin postDestination * 0.15))
    /\ p_offsetBoundaryY params
       = Math.max offY (Math.max 30 (distance Math_pow preOrigin postDestination * 0.15))
    /\ Number.toInteger offX = Some jx /\ 20 <= jx <= 99
    /\ Number.toInteger offY = Some jy /\ 20 <= jy <= 99
    /\ p_tween params = Some f /\ In f (TWEEN_OPTIONS Math_pow Math_cos Math_sin)
    /\ Number.toInteger (p_knotsCount params) = Some k /\ 2 <= k <= 10
    /\ Number.toInteger (p_targetPoints params) = Some t /\ 35 <= t <= 79
    /\ p_distortionMean params = (Number.of_Z jm / 100)%float /\ 80 <= jm <= 109
    /\ p_distortionStDev params = (Number.of_Z js / 100)%float /\ 85 <= js <= 109
    /\ p_distortionFrequency params = (Number.of_Z jf / 100)%float /\ 25 <= jf <= 69.
Proof.
  intros U.
  destruct (generateRandomCurveParameters_trace preOrigin postDestination c U)
    as (params & rx & ry & offX & offY & jx & jy & f & k & t & jm & js & jf & H).
  exists params, offX, offY, jx, jy, f, k, t, jm, js, jf.
  repeat (destruct H as [? H]; split; [assumption|]). apply H.
Qed.
End Parameters.

Lemma numeric_hundredths (j : Z) :
  25 <= j <= 109 ->
  checkIfNumeric (Number.of_Z j / 100)%float = true.
Proof.
  intros B. apply (hundredths checkIfNumeric 25 85); [vm_compute; reflexivity | lia].
Qed.

Lemma frequency_guard (j : Z) :
  25 <= j <= 69 ->
  (Number.of_Z j / 100 <? 0)%float || (1 <? Number.of_Z j / 100)%float = false.
Proof.
  intros B. apply negb_true_iff.
  apply (hundredths (fun x => negb ((x <? 0)%float || (1 <? x)%float)) 25 45);
    [vm_compute; reflexivity | lia].
Qed.

Section ParameterBundle.
Variable Math_pow : float -> float -> float.
Variables Math_cos Math_sin : float -> float.
Variable random : nat -> float.

(** With draws of [[0, 1)], [generateRandomCurveParameters] returns
    after eleven draws, for every pair of points; its tween is one of
    [TWEEN_OPTIONS], [knotsCount] is an integer of [2 .. 10],
    [targetPoints] an integer of [35 .. 79], [distortionMean] lies in
    [[0.8, 1.09]], [distortionStDev] in [[0.85, 1.09]] and
    [distortionFrequency] in [[0.25, 0.69]]. *)
Theorem generateRandomCurveParameters_bundle (preOrigin postDestination : Vector)
  (c : nat) :
  unitDraws random ->
  exists params,
    generateRandomCurveParameters Math_pow Math_cos Math_sin random
      preOrigin postDestination c = (Ok params, (11 + c)%nat)
    /\ (exists f, p_tween params = Some f
                  /\ In f (TWEEN_OPTIONS Math_pow Math_cos Math_sin))
    /\ (exists k, Number.toInteger (p_knotsCount params) = Some k /\ 2 <= k <= 10)
    /\ (exists t, Number.toInteger (p_targetPoints params) = Some t /\ 35 <= t <= 79)
    /\ (0.8 <=? p_distortionMean params)%float
       && (p_distortionMean params <=? 1.09)%float = true
    /\ (0.85 <=? p_distortionStDev params)%float
       && (p_distortionStDev params <=? 1.09)%float = true
    /\ (0.25 <=? p_distortionFrequency params)%float
       && (p_distortionFrequency params <=? 0.69)%float = true.
Proof.
  intros U.
  destruct (generateRandomCurveParameters_run Math_pow Math_cos Math_sin random
              preOrigin postDestination c U)
    as (params & offX & offY & jx & jy & f & k & t & jm & js & jf & E & _ & _ & _ & _
        & _ & _ & Ef & Inf & Hk & Bk & Ht & Bt & Em & Bm & Es & Bs & Efr & Bfr).
  exists params. split; [exact E|].
  split; [exists f; auto|]. split; [exists k; auto|]. split; [exists t; auto|].
  rewrite Em, Es, Efr.
  split; [apply mean_hundredths; exact Bm|].
  split; [apply stDev_hundredths; exact Bs | apply frequency_hundredths; exact Bfr].
Qed.

(** The parameters that [generateRandomCurveParameters] returns pass
    the guards of the trajectory on them: [knotsCount] is not replaced
    by 0, the distortion parameters are numeric with a frequency in
    [[0, 1]], and [targetPoints] is an integer of 2 at the least. *)
Theorem generated_parameters_pass_guards (preOrigin postDestination : Vector)
  (c : nat) :
  unitDraws random ->
  exists params,
    generateRandomCurveParameters Math_pow Math_cos Math_sin random
      preOrigin postDestination c = (Ok params, (11 + c)%nat)
    /\ negb (Number.isInteger (p_knotsCount params))
       || (p_knotsCount params <? 0)%float = false
    /\ negb (checkIfNumeric (p_distortionMean params))
       || negb (checkIfNumeric (p_distortionStDev params))
       || negb (checkIfNumeric (p_distortionFrequency params)) = false
    /\ (p_distortionFrequency params <? 0)%float
       || (1 <? p_distortionFrequency params)%float = false
    /\ targetFailure (p_targetPoints params) = false.
Proof.
  intros U.
  destruct (generateRandomCurveParameters_run Math_pow Math_cos Math_sin random
              preOrigin postDestination c U)
    as (params & offX & offY & jx & jy & f & k & t & jm & js & jf & E & _ & _ & _ & _
        & _ & _ & Ef & Inf & Hk & Bk & Ht & Bt & Em & Bm & Es & Bs & Efr & Bfr).
  exists params. split; [exact E|]. split; [| split; [| split]].
  - rewrite (toInteger_isInteger _ _ Hk), (ltb_integers _ _ _ _ Hk toInteger_zero').
    destruct (Z.ltb_spec k 0); [lia | reflexivity].
  - rewrite Em, Es, Efr, !numeric_hundredths by lia. reflexivity.
  - rewrite Efr. apply frequency_guard. exact Bfr.
  - unfold targetFailure.
    assert (H2 : Number.toInteger 2 = Some 2) by (vm_compute; reflexivity).
    rewrite (toInteger_isInteger _ _ Ht), (ltb_integers _ _ _ _ Ht H2).
    destruct (Z.ltb_spec t 2); [lia | reflexivity].
Qed.
End ParameterBundle.

Lemma generateRandomCurveParameters_bundle_witness :
  exists params,
    generateRandomCurveParameters Sample.pow Sample.cos Sample.sin Sample.draws
      (Vector.mk 10 20) (Vector.mk 40 60) 0%nat = (Ok params, 11%nat)
    /\ (exists f, p_tween params = Some f
                  /\ In f (TWEEN_OPTIONS Sample.pow Sample.cos Sample.sin))
    /\ (exists k, Number.toInteger (p_knotsCount params) = Some k /\ 2 <= k <= 10)
    /\ (exists t, Number.toInteger (p_targetPoints params) = Some t /\ 35 <= t <= 79)
    /\ (0.8 <=? p_distortionMean params)%float
       && (p_distortionMean params <=? 1.09)%float = true
    /\ (0.85 <=? p_distortionStDev params)%float
       && (p_distortionStDev params <=? 1.09)%float = true
    /\ (0.25 <=? p_distortionFrequency params)%float
       && (p_distortionFrequency params <=? 0.69)%float = true.
Proof.
  apply (generateRandomCurveParameters_bundle Sample.pow Sample.cos Sample.sin
           Sample.draws (Vector.mk 10 20) (Vector.mk 40 60) 0%nat).
  exact draws_unit.
Defined.

Lemma generated_parameters_pass_guards_witness :
  exists params,
    generateRandomCurveParameters Sample.pow Sample.cos Sample.sin Sample.draws
      (Vector.mk 10 20) (Vector.mk 40 60) 0%nat = (Ok params, 11%nat)
    /\ negb (Number.isInteger (p_knotsCount params))
       || (p_knotsCount params <? 0)%float = false
    /\ negb (checkIfNumeric (p_distortionMean params))
       || negb (checkIfNumeric (p_distortionStDev params))
       || negb (checkIfNumeric (p_distortionFrequency params)) = false
    /\ (p_distortionFrequency params <? 0)%float
       || (1 <? p_distortionFrequency params)%float = false
    /\ targetFailure (p_targetPoints params) = false.
Proof.
  apply (generated_parameters_pass_guards Sample.pow Sample.cos Sample.sin
           Sample.draws (Vector.mk 10 20) (Vector.mk 40 60) 0%nat).
  exact draws_unit.
Defined.

(** ** NaN *)

(** The only number with [isNaN] is NaN. *)
Lemma is_nan_eq (x : float) : is_nan x = true -> x = nan.
Proof.
  unfold is_nan. rewrite eqb_spec. unfold SFeqb. intros H.
  apply Prim2SF_inj. change (Prim2SF nan) with S754_nan.
  destruct (Prim2SF x) as [s | s | | s m e] eqn:P; try reflexivity;
    rewrite SFcompare_refl in H by discriminate; discriminate.
Qed.

Lemma sub_nan_r (x : float) : (x - nan)%float = nan.
Proof.
  apply Prim2SF_inj. rewrite sub_spec. change (Prim2SF nan) with S754_nan.
  unfold SF64sub. destruct (Prim2SF x); reflexivity.
Qed.

Lemma add_nan_l (y : float) : (nan + y)%float = nan.
Proof.
  apply Prim2SF_inj. rewrite add_spec. change (Prim2SF nan) with S754_nan.
  reflexivity.
Qed.

Lemma add_nan_r (x : float) : (x + nan)%float = nan.
Proof.
  apply Prim2SF_inj. rewrite add_spec. change (Prim2SF nan) with S754_nan.
  unfold SF64add. destruct (Prim2SF x); reflexivity.
Qed.

Lemma max_nan_r (a : float) : Math.max a nan = nan.
Proof.
  unfold Math.max. change (is_nan nan) with true. rewrite orb_true_r. reflexivity.
Qed.

(** ** [Math.max(0, v)] *)

Lemma ltb_leb (a b : float) : (a <? b)%float = true -> (a <=? b)%float = true.
Proof.
  rewrite ltb_spec, leb_spec. unfold SFltb, SFleb.
  destruct (SFcompare (Prim2SF a) (Prim2SF b)) as [[| |] |]; congruence.
Qed.

Lemma max0_cases (v : float) :
  (is_nan v = true /\ Math.max 0 v = nan)
  \/ (is_nan v = false /\ (0 <? v)%float = true /\ Math.max 0 v = v)
  \/ (is_nan v = false /\ (0 <? v)%float = false /\ Math.max 0 v = 0%float).
Proof.
  unfold Math.max. change (is_nan 0) with false. cbn [orb].
  destruct (is_nan v); [left; auto | right].
  destruct (0 <? v)%float; [left; auto | right].
  split; [reflexivity|]. split; [reflexivity|].
  destruct (v <? 0)%float; [reflexivity|].
  change (get_sign 0) with false. reflexivity.
Qed.

(** ** spoof.ts *)

Section Callers.
Variable Math_pow : float -> float -> float.
Variables Math_log Math_cos Math_sin : float -> float.
Variable random : nat -> float.
Variable Date_now : float.

Ltac run E := unfold bind at 1; rewrite E; cbv beta iota zeta.

Lemma selected_Ok (r : Range) (c : nat) :
  exists x, randomFromSelected random (Some r) c = (Ok x, S c).
Proof. eexists. reflexivity. Qed.

Lemma range_returns (lo hi : float) (c : nat) :
  exists x, randomFromRange random lo hi c = (Ok x, S c).
Proof. eexists. reflexivity. Qed.

(** [generateRandomCurveParameters] returns for every draw, and its
    offsets are the larger of a drawn value and
    [max(30, 0.15 * distance)]. *)
Lemma generateRandomCurveParameters_offsets (preOrigin postDestination : Vector)
  (c : nat) :
  exists params offX offY,
    generateRandomCurveParameters Math_pow Math_cos Math_sin random
      preOrigin postDestination c = (Ok params, (11 + c)%nat)
    /\ p_offsetBoundaryX params
       = Math.max offX (Math.max 30 (distance Math_pow preOrigin postDestination * 0.15))
    /\ p_offsetBoundaryY params
       = Math.max offY (Math.max 30 (distance Math_pow preOrigin postDestination * 0.15)).
Proof.
  unfold generateRandomCurveParameters.
  unfold bind at 1. unfold Math_random at 1. cbv beta iota zeta.
  destruct (choice_Some random
              [ {| min := 20; max := 44 |}; {| min := 45; max := 74 |};
                {| min := 75; max := 99 |} ]%float [0.2; 0.65; 15]%float (S c))
    as (rx & Ex & _); [discriminate|]. run Ex.
  destruct (selected_Ok rx (S (S c))) as (offX & EoX). run EoX.
  destruct (choice_Some random
              [ {| min := 20; max := 44 |}; {| min := 45; max := 74 |};
                {| min := 75; max := 99 |} ]%float [0.2; 0.65; 15]%float (S (S (S c))))
    as (ry & Ey & _); [discriminate|]. run Ey.
  destruct (selected_Ok ry (S (S (S (S c))))) as (offY & EoY). run EoY.
  destruct (choice_Some random [1; 2; 3; 4; 5; 6; 7; 8; 9; 10]%float
              [0.15; 0.36; 0.17; 0.12; 0.08; 0.04; 0.03; 0.02; 0.015; 0.005]%float
              (S (S (S (S (S c))))))
    as (kc & Ek & _); [discriminate|]. run Ek.
  destruct (range_returns 80 109 (S (S (S (S (S (S c))))))) as (r1 & E1). run E1.
  destruct (range_returns 85 109 (S (S (S (S (S (S (S c)))))))) as (r2 & E2). run E2.
  destruct (range_returns 25 69 (S (S (S (S (S (S (S (S c))))))))) as (r3 & E3). run E3.
  destruct (choice_Some random
              [ {| min := 35; max := 44 |}; {| min := 45; max := 59 |};
                {| min := 60; max := 79 |} ]%float [0.53; 0.32; 0.15]%float
              (S (S (S (S (S (S (S (S (S c))))))))))
    as (rt & Et & _); [discriminate|]. run Et.
  destruct (selected_Ok rt (S (S (S (S (S (S (S (S (S (S c))))))))))) as (tp & Etp).
  run Etp. unfold ret.
  eexists _, offX, offY. split; [reflexivity|]. split; reflexivity.
Qed.

(** The distance from a point with a coordinate that is not a number. *)
Lemma distance_nan (p q : Vector) :
  Math_pow nan 2 = nan ->
  is_nan (Vector.x p) || is_nan (Vector.y p) = true ->
  distance Math_pow p q = nan.
Proof.
  intros Hpow H. unfold distance. destruct p as [px py]. cbn [Vector.x Vector.y] in *.
  apply orb_true_iff in H as [H | H]; apply is_nan_eq in H; subst.
  - rewrite sub_nan_r, Hpow, add_nan_l. reflexivity.
  - rewrite sub_nan_r, Hpow, add_nan_r. reflexivity.
Qed.

(** [pathWithHumanCurve(page, start, end, options)] hands [page] to
    [generateRandomCurveParameters] as its first point.  When [page.x]
    or [page.y] is no number, the distance and with it both offsets are
    NaN; unless [spreadOverride] replaces them, the trajectory's
    boundaries are NaN and its constructor throws, for every [start],
    [end] and every draw. *)
Theorem pathWithHumanCurve_page_throws (page start : Vector)
  (end_ : Vector + BoundingBox) (options : PathArgument) (c : nat) :
  Math_pow nan 2 = nan ->
  is_nan (Vector.x page) || is_nan (Vector.y page) = true ->
  spreadOverride (resolvePathOptions options) = None ->
  pathWithHumanCurve Math_pow Math_log Math_cos Math_sin random
    Date_now page start end_ options c
  = (Throw (Error "Boundaries must be numeric values"), (11 + c)%nat).
Proof.
  intros Hpow Hpage Hspread. unfold pathWithHumanCurve.
  destruct (generateRandomCurveParameters_offsets page start c)
    as (params & offX & offY & E & EX & EY).
  run E. rewrite Hspread. cbn [orElse].
  rewrite EX, (distance_nan page start Hpow Hpage).
  change (nan * 0.15)%float with nan. rewrite !max_nan_r.
  unfold bind at 1. unfold newHumanizeMouseTrajectory, bind, generateCurve.
  cbn [orElse offsetBoundaryX leftBoundary]. rewrite sub_nan_r.
  unfold generateInternalKnots. change (checkIfNumeric nan) with false.
  reflexivity.
Qed.
End Callers.

Lemma max0_not_negative (v : float) : (Math.max 0 v <? 0)%float = false.
Proof.
  destruct (max0_cases v) as [[_ ->] | [(_ & P & ->) | (_ & _ & ->)]].
  - reflexivity.
  - apply leb_not_gt, ltb_leb, P.
  - reflexivity.
Qed.

Section Clamp.
Variable Math_pow : float -> float -> float.
Variables Math_log Math_cos Math_sin : float -> float.
Variable random : nat -> float.
Variable Date_now : float.

(** [clampPositive] keeps the number of points, and no coordinate of
    its points is below 0 (a NaN stays a NaN); a positive coordinate
    stays as it is. *)
Theorem clampedVectors_not_negative (vectors : list Vector) :
  length (clampedVectors vectors) = length vectors
  /\ forall i v, nth_error vectors i = Some v ->
       exists q, nth_error (clampedVectors vectors) i = Some q
         /\ (Vector.x q <? 0)%float = false /\ (Vector.y q <? 0)%float = false
         /\ ((0 <? Vector.x v)%float = true -> Vector.x q = Vector.x v)
         /\ ((0 <? Vector.y v)%float = true -> Vector.y q = Vector.y v).
Proof.
  unfold clampedVectors. split; [apply length_map|].
  intros i v H. rewrite nth_error_map, H. cbn [option_map].
  eexists. split; [reflexivity|]. cbn [Vector.x Vector.y].
  split; [apply max0_not_negative|]. split; [apply max0_not_negative|].
  split; intros P.
  - destruct (max0_cases (Vector.x v)) as [[N _] | [(_ & _ & E) | (_ & F & _)]];
      [| exact E | congruence].
    apply is_nan_eq in N. rewrite N in P. discriminate P.
  - destruct (max0_cases (Vector.y v)) as [[N _] | [(_ & _ & E) | (_ & F & _)]];
      [| exact E | congruence].
    apply is_nan_eq in N. rewrite N in P. discriminate P.
Qed.

Lemma generateCurve_ends (fromPoint toPoint : Vector)
  (options : HumanCurveOptions) (c c' : nat) (out : list Vector) :
  generateCurve Math_pow Math_log Math_cos random fromPoint toPoint options c
  = (Ok out, c') ->
  exists middle, out = fromPoint :: middle ++ [toPoint].
Proof.
  intros G.
  destruct (generateCurve_stages _ _ _ _ _ _ _ _ _ _ G)
    as (k & ds & _ & K50 & KM & L & D0 & D1 & T).
  destruct (tweenPoints_endpoints _ ds _ out ltac:(lia) T ltac:(lia)) as (L2 & E0 & E1).
  rewrite L in E1. rewrite D0 in E0. rewrite D1 in E1.
  apply list_ends; [assumption | congruence | congruence].
Qed.

(** A path that [pathWithHumanCurve] returns without timestamps starts
    at [start] and ends at the end point, each with its negative
    coordinates raised to 0. *)
Theorem pathWithHumanCurve_endpoints (page start : Vector)
  (end_ : Vector + BoundingBox) (options : PathArgument) (c c' : nat)
  (r : list Vector + list TimedVector) :
  useTimestamps (resolvePathOptions options) <> Some true ->
  pathWithHumanCurve Math_pow Math_log Math_cos Math_sin random
    Date_now page start end_ options c = (Ok r, c') ->
  exists middle,
    r = inl (Vector.mk (Math.max 0 (Vector.x start)) (Math.max 0 (Vector.y start))
             :: middle
             ++ [Vector.mk (Math.max 0 (Vector.x (endPointOf end_)))
                           (Math.max 0 (Vector.y (endPointOf end_)))]).
Proof.
  intros NT. unfold pathWithHumanCurve.
  unfold bind at 1.
  destruct (generateRandomCurveParameters _ _ _ _ _ _ c) as [[params | e] c1];
    [| discriminate].
  cbv beta iota zeta. unfold bind at 1. unfold newHumanizeMouseTrajectory, bind, ret.
  match goal with
  | |- context [generateCurve ?a ?b ?d ?e ?f ?g ?h c1] =>
      destruct (generateCurve a b d e f g h c1) as [[out | e'] c2] eqn:G
  end; [| discriminate].
  intros [= <- <-]. cbn [points].
  destruct (generateCurve_ends _ _ _ _ _ _ G) as (middle & ->).
  exists (clampedVectors middle). unfold clampPositive.
  destruct (useTimestamps (resolvePathOptions options)) as [[|] |];
    [congruence | |];
    unfold clampedVectors; cbn [map]; rewrite map_app; reflexivity.
Qed.
End Clamp.

Lemma pathWithHumanCurve_page_throws_witness :
  pathWithHumanCurve Sample.pow Sample.log Sample.cos Sample.sin Sample.draws
    1700000000000%float (spread None) (Vector.mk 10 20) (inl (Vector.mk 40 60))
    PathUndefined 0%nat
  = (Throw (Error "Boundaries must be numeric values"), 11%nat).
Proof.
  apply (pathWithHumanCurve_page_throws Sample.pow Sample.log Sample.cos Sample.sin
           Sample.draws 1700000000000%float (spread None) (Vector.mk 10 20)
           (inl (Vector.mk 40 60)) PathUndefined 0%nat); vm_compute; reflexivity.
Defined.

Lemma pathWithHumanCurve_endpoints_witness :
  exists r c',
    pathWithHumanCurve Sample.pow Sample.log Sample.cos Sample.sin Sample.draws
      1700000000000%float (Vector.mk 0 0) (Vector.mk (-10) 20) (inl (Vector.mk 40 60))
      (PathNumber 80) 0%nat = (Ok r, c')
    /\ exists middle,
         r = inl (Vector.mk (Math.max 0 (-10)) (Math.max 0 20)
                  :: middle ++ [Vector.mk (Math.max 0 40) (Math.max 0 60)]).
Proof.
  eexists _, _. split.
  - vm_compute. reflexivity.
  - eapply (pathWithHumanCurve_endpoints Sample.pow Sample.log Sample.cos Sample.sin
              Sample.draws 1700000000000%float (Vector.mk 0 0) (Vector.mk (-10) 20)
              (inl (Vector.mk 40 60)) (PathNumber 80) 0%nat);
      [discriminate | vm_compute; reflexivity].
Defined.

(** ** bezier-calculator.ts: the binomial coefficients *)

Lemma allBelow_spec (P : nat -> nat -> bool) (N : nat) :
  allBelow P N = true ->
  forall n k, (n <= N)%nat -> (k <= n)%nat -> P n k = true.
Proof.
  induction N as [| N IH]; cbn [allBelow]; intros H n k Hn Hk.
  - assert (n = 0%nat) by lia. assert (k = 0%nat) by lia. subst. exact H.
  - apply andb_true_iff in H as [H1 H2].
    destruct (Nat.eq_dec n (S N)) as [-> | NE].
    + rewrite forallb_forall in H1. apply H1. apply in_seq. lia.
    + apply IH; [exact H2 | lia | exact Hk].
Qed.

(** Up to degree 22 (23 control points, 21 knots) [binomial(n, k)], the
    quotient of factorials in numbers, is the binomial coefficient
    [C(n, k)] exactly; at degree 23 it no longer is. *)
Theorem binomial_exact (n k : nat) :
  (n <= 22)%nat -> (k <= n)%nat ->
  Number.toInteger (binomial n k) = Some (choose n k).
Proof.
  intros Hn Hk.
  pose proof (allBelow_spec
                (fun n k => match Number.toInteger (binomial n k) with
                            | Some z => z =? choose n k
                            | None => false
                            end) 22) as A.
  specialize (A ltac:(vm_compute; reflexivity) n k Hn Hk). cbv beta in A.
  destruct (Number.toInteger (binomial n k)) as [z |]; [| discriminate].
  apply Z.eqb_eq in A. congruence.
Qed.

Lemma binomial_exact_witness :
  Number.toInteger (binomial 11 5) = Some 462.
Proof. apply (binomial_exact 11 5); lia. Defined.

Lemma binomial_inexact_23 :
  exists k, (k <= 23)%nat /\ Number.toInteger (binomial 23 k) <> Some (choose 23 k).
Proof. exists 2%nat. split; [lia|]. vm_compute. discriminate. Qed.

(** ** Offsets inside an element *)

Section Offsets.
Variable random : nat -> float.

(** [calculateAbsoluteOffset]: for an element of integer width and
    height (1 at the least) and a relative position of [[0, 1)] in each
    direction, the offset is a pair of integers inside the element,
    [0 <= x < width] and [0 <= y < height]. *)
Theorem calculateAbsoluteOffset_inside (elementSize : ElementSize)
  (relativePosition : float * float) (W H : Z) :
  Number.toInteger (width elementSize) = Some W -> 1 <= W ->
  Number.toInteger (height elementSize) = Some H -> 1 <= H ->
  (0 <=? fst relativePosition)%float = true ->
  (fst relativePosition <? 1)%float = true ->
  (0 <=? snd relativePosition)%float = true ->
  (snd relativePosition <? 1)%float = true ->
  exists X Y,
    Number.toInteger (fst (calculateAbsoluteOffset elementSize relativePosition))
    = Some X
    /\ Number.toInteger (snd (calculateAbsoluteOffset elementSize relativePosition))
       = Some Y
    /\ 0 <= X < W /\ 0 <= Y < H.
Proof.
  intros HW BW HH BH X0 X1 Y0 Y1. unfold calculateAbsoluteOffset. cbn [fst snd].
  rewrite (mul_comm (width elementSize)), (mul_comm (height elementSize)).
  destruct (floor_unit_product _ _ W X0 X1 HW BW) as (X & HX & BX).
  destruct (floor_unit_product _ _ H Y0 Y1 HH BH) as (Y & HY & BY).
  exists X, Y. auto.
Qed.

Lemma sixty_draw (u : float) :
  (0 <=? u)%float = true -> (u <? 1)%float = true ->
  exists j, (Math.floor (u * 60) + 20)%float = Number.of_Z j /\ 20 <= j <= 79.
Proof.
  intros U0 U1.
  assert (H60 : Number.toInteger 60 = Some 60) by (vm_compute; reflexivity).
  assert (H20 : Number.toInteger 20 = Some 20) by (vm_compute; reflexivity).
  destruct (floor_unit_product u 60 60 U0 U1 H60 ltac:(lia)) as (j & Hj & Bj).
  assert (B53 : 2 ^ 53 = 9007199254740992) by reflexivity.
  pose proof (add_integers _ _ _ _ Hj H20 ltac:(lia)) as S.
  exists (j + 20). split; [| lia]. apply integer_of_Z; [exact S | lia].
Qed.

(** [getRandomBoxPoint]: with draws of [[0, 1)] the point is the
    corner of the box moved by [j/100] of the width and [k/100] of the
    height for integers [j] and [k] of [20 .. 79], whatever the padding
    option says; it takes two draws. *)
Theorem getRandomBoxPoint_offsets (box : BoundingBox)
  (paddingPercentage : option float) (c : nat) :
  unitDraws random ->
  exists j k,
    getRandomBoxPoint random box paddingPercentage c
    = (Ok (Vector.mk
             (box_x box + box_width box * (Number.of_Z j / 100))
             (box_y box + box_height box * (Number.of_Z k / 100)))%float,
       S (S c))
    /\ 20 <= j <= 79 /\ 20 <= k <= 79.
Proof.
  intros U. destruct (U c) as [X0 X1]. destruct (U (S c)) as [Y0 Y1].
  destruct (sixty_draw _ X0 X1) as (j & Ej & Bj).
  destruct (sixty_draw _ Y0 Y1) as (k & Ek & Bk).
  exists j, k. split; [| auto].
  unfold getRandomBoxPoint, bind, Math_random, ret. cbv beta iota zeta.
  rewrite Ej, Ek. reflexivity.
Qed.
End Offsets.

Lemma calculateAbsoluteOffset_inside_witness :
  exists X Y,
    Number.toInteger
      (fst (calculateAbsoluteOffset {| width := 200; height := 50 |} (0.5, 0.75)%float))
    = Some X
    /\ Number.toInteger
         (snd (calculateAbsoluteOffset {| width := 200; height := 50 |} (0.5, 0.75)%float))
       = Some Y
    /\ 0 <= X < 200 /\ 0 <= Y < 50.
Proof.
  apply (calculateAbsoluteOffset_inside {| width := 200; height := 50 |}
           (0.5, 0.75)%float 200 50); try (vm_compute; reflexivity); lia.
Defined.

Lemma getRandomBoxPoint_offsets_witness :
  exists j k,
    getRandomBoxPoint Sample.draws
      {| box_x := 10; box_y := 20; box_width := 200; box_height := 50 |}
      (Some 10%float) 0%nat
    = (Ok (Vector.mk (10 + 200 * (Number.of_Z j / 100))
                     (20 + 50 * (Number.of_Z k / 100)))%float, 2%nat)
    /\ 20 <= j <= 79 /\ 20 <= k <= 79.
Proof.
  apply (getRandomBoxPoint_offsets Sample.draws
           {| box_x := 10; box_y := 20; box_width := 200; box_height := 50 |}
           (Some 10%float) 0%nat).
  exact draws_unit.
Defined.

(** ** The tiers of the offsets *)

Lemma leb_numeric (a b : float) :
  (a <=? b)%float = true -> is_nan a = false /\ is_nan b = false.
Proof.
  rewrite leb_spec, !is_nan_numeric. unfold SFleb.
  destruct (Prim2SF a) as [sa | sa | | sa ma ea], (Prim2SF b) as [sb | sb | | sb mb eb];
    cbn [SFcompare numeric negb]; auto; try discriminate;
    destruct sa; discriminate.
Qed.

Lemma ltb_numeric (a b : float) :
  (a <? b)%float = true -> is_nan a = false /\ is_nan b = false.
Proof. intros H. apply leb_numeric, ltb_leb, H. Qed.

(** A number between two finite numbers is finite. *)
Lemma between_finite (lo x hi : float) :
  SFfinite (Prim2SF lo) = true -> SFfinite (Prim2SF hi) = true ->
  (lo <=? x)%float = true -> (x <=? hi)%float = true ->
  SFfinite (Prim2SF x) = true
  /\ scaled (Prim2SF lo) <= scaled (Prim2SF x) <= scaled (Prim2SF hi).
Proof.
  intros Flo Fhi L H.
  destruct (leb_numeric _ _ L) as [Nlo Nx]. destruct (leb_numeric _ _ H) as [_ Nhi].
  rewrite (leb_key _ _ Nlo Nx) in L. rewrite (leb_key _ _ Nx Nhi) in H.
  apply Z.leb_le in L, H.
  rewrite (key_finite _ Flo) in L. rewrite (key_finite _ Fhi) in H.
  pose proof (scaled_bound _ (Prim2SF_valid lo)). pose proof (scaled_bound _ (Prim2SF_valid hi)).
  assert (F : SFfinite (Prim2SF x) = true).
  { apply finite_of_key; [apply not_nan_numeric; exact Nx | lia]. }
  rewrite (key_finite _ F) in L, H. auto.
Qed.

(** One round of the scan: a positive rest stays positive when the
    weight is below it by a representable margin [c]. *)
Lemma scan_step (p w c : float) :
  SFfinite (Prim2SF p) = true -> SFfinite (Prim2SF w) = true ->
  SFfinite (Prim2SF c) = true ->
  0 <= scaled (Prim2SF w) -> 0 < scaled (Prim2SF c) ->
  scaled (Prim2SF c) <= scaled (Prim2SF p) - scaled (Prim2SF w) ->
  (p - w <=? 0)%float = false
  /\ SFfinite (Prim2SF (p - w)) = true
  /\ scaled (Prim2SF c) <= scaled (Prim2SF (p - w)).
Proof.
  intros Fp Fw Fc Pw Pc Le.
  destruct (sub_bounds p w c Fp Fw Fc) as (N & L & _). specialize (L Le).
  destruct (sub_bounds p w p Fp Fw Fp) as (_ & _ & U). specialize (U ltac:(lia)).
  rewrite (key_finite _ Fc) in L. rewrite (key_finite _ Fp) in U.
  pose proof (scaled_bound _ (Prim2SF_valid p)).
  assert (F : SFfinite (Prim2SF (p - w)) = true).
  { apply finite_of_key; [apply not_nan_numeric; exact N | lia]. }
  rewrite (key_finite _ F) in L.
  split; [| auto].
  rewrite (leb_key (p - w) 0 N (eq_refl : is_nan 0 = false)). change (key (Prim2SF 0)) with 0.
  rewrite (key_finite _ F). apply Z.leb_gt. lia.
Qed.

Lemma tier_margin_1 :
  scaled (Prim2SF 0.984375) * 2 ^ 1074
  <= scaled (Prim2SF 0.0625) * scaled (Prim2SF tierWeight).
Proof. apply Z.leb_le. vm_compute. reflexivity. Qed.

Lemma tier_margin_2 :
  scaled (Prim2SF 0.78125) <= scaled (Prim2SF 0.984375) - scaled (Prim2SF 0.2).
Proof. apply Z.leb_le. vm_compute. reflexivity. Qed.

Lemma tier_margin_3 :
  scaled (Prim2SF 0.125) <= scaled (Prim2SF 0.78125) - scaled (Prim2SF 0.65).
Proof. apply Z.leb_le. vm_compute. reflexivity. Qed.

Lemma positive_scaled (x : float) :
  (0 <? scaled (Prim2SF x)) = true -> 0 < scaled (Prim2SF x).
Proof. apply Z.ltb_lt. Qed.

(** With the weights [[0.2, 0.65, 15]] a draw of [[0.0625, 1)] selects the
    third item. *)
Lemma third_tier {T} (a b c : T) (u : float) :
  (0.0625 <=? u)%float = true -> (u <? 1)%float = true ->
  weightedScan [a; b; c] [0.2; 0.65; 15]%float (u * tierWeight)%float None = Some c.
Proof.
  intros U0 U1.
  destruct (between_finite 0.0625 u 1 eq_refl eq_refl U0 (ltb_leb _ _ U1)) as (Fu & Lu & Hu).
  change (scaled (Prim2SF 1)) with (scaled (S754_finite false 4503599627370496 (-52))) in Hu.
  rewrite scaled_one in Hu.
  assert (FW : SFfinite (Prim2SF tierWeight) = true) by (vm_compute; reflexivity).
  assert (PW : 0 < scaled (Prim2SF tierWeight)) by (apply Z.ltb_lt; vm_compute; reflexivity).
  assert (P0 : 0 < scaled (Prim2SF 0.0625)) by (apply Z.ltb_lt; vm_compute; reflexivity).
  (* the product *)
  destruct (mul_bounds u tierWeight 0.984375 Fu FW eq_refl ltac:(lia) PW) as (Np & Lp & _).
  destruct (mul_bounds u tierWeight tierWeight Fu FW FW ltac:(lia) PW) as (_ & _ & Up).
  assert (Lp' : key (Prim2SF 0.984375) <= key (Prim2SF (u * tierWeight))).
  { apply Lp. eapply Z.le_trans; [exact tier_margin_1|].
    apply Z.mul_le_mono_nonneg_r; [lia | exact Lu]. }
  assert (Up' : key (Prim2SF (u * tierWeight)) <= key (Prim2SF tierWeight)).
  { apply Up. rewrite (Z.mul_comm (scaled (Prim2SF u))).
    apply Z.mul_le_mono_nonneg_l; [lia | exact Hu]. }
  clear Lp Up.
  rewrite (key_finite (Prim2SF 0.984375) eq_refl) in Lp'.
  rewrite (key_finite _ FW) in Up'.
  pose proof (scaled_bound _ (Prim2SF_valid tierWeight)) as BW.
  assert (P1 : 0 < scaled (Prim2SF 0.984375)) by (apply Z.ltb_lt; vm_compute; reflexivity).
  assert (Fp : SFfinite (Prim2SF (u * tierWeight)) = true).
  { apply finite_of_key; [apply not_nan_numeric; exact Np | lia]. }
  rewrite (key_finite _ Fp) in Lp'.
  (* the two rounds that pass *)
  assert (W1 : 0 <= scaled (Prim2SF 0.2)) by (apply Z.leb_le; vm_compute; reflexivity).
  assert (W2 : 0 <= scaled (Prim2SF 0.65)) by (apply Z.leb_le; vm_compute; reflexivity).
  assert (P2 : 0 < scaled (Prim2SF 0.78125)) by (apply Z.ltb_lt; vm_compute; reflexivity).
  assert (P3 : 0 < scaled (Prim2SF 0.125)) by (apply Z.ltb_lt; vm_compute; reflexivity).
  pose proof tier_margin_2 as M2. pose proof tier_margin_3 as M3.
  destruct (scan_step (u * tierWeight) 0.2 0.78125 Fp eq_refl eq_refl W1 P2 ltac:(lia))
    as (T1 & F1 & L1).
  destruct (scan_step (u * tierWeight - 0.2) 0.65 0.125 F1 eq_refl eq_refl W2 P3 ltac:(lia))
    as (T2 & F2 & L2).
  cbn [weightedScan hd tl]. rewrite T1, T2.
  match goal with |- (if ?t then _ else _) = _ => destruct t end; reflexivity.
Qed.

(** ** The offsets of [generateRandomCurveParameters] *)

Lemma integer_not_nan (a : float) (z : Z) :
  Number.toInteger a = Some z -> is_nan a = false.
Proof.
  intros H. apply toInteger_scaled in H as [F _].
  apply numeric_not_nan. destruct (Prim2SF a); try discriminate; reflexivity.
Qed.

Lemma integer_key_bound (a : float) (z : Z) :
  Number.toInteger a = Some z -> - INF < z * 2 ^ 1074 < INF.
Proof.
  intros H. apply toInteger_scaled in H as [F S]. rewrite <- S.
  apply scaled_bound, Prim2SF_valid.
Qed.

Lemma toInteger_30 : Number.toInteger 30 = Some 30.
Proof. vm_compute. reflexivity. Qed.

Lemma toInteger_75 : Number.toInteger 75 = Some 75.
Proof. vm_compute. reflexivity. Qed.

Lemma toInteger_99 : Number.toInteger 99 = Some 99.
Proof. vm_compute. reflexivity. Qed.

(** [Math.max(offset, Math.max(30, t))] for an integer offset of 75 at
    the least and [t <= 75] is the offset. *)
Lemma offset_kept (off t : float) (j : Z) :
  Number.toInteger off = Some j -> 75 <= j ->
  (t <=? 75)%float = true ->
  Number.toInteger (Math.max off (Math.max 30 t)) = Some j.
Proof.
  intros Hj Bj T.
  destruct (leb_numeric _ _ T) as [Nt _].
  rewrite (leb_key t 75 Nt eq_refl) in T. apply Z.leb_le in T.
  rewrite (key_integer _ _ toInteger_75) in T.
  destruct (max_key 30 t eq_refl Nt) as (Nm & Km & _).
  rewrite (key_integer _ _ toInteger_30) in Km.
  pose proof (integer_not_nan _ _ Hj) as No.
  destruct (max_key off (Math.max 30 t) No Nm) as (Nr & Kr & _).
  rewrite (key_integer _ _ Hj), Km in Kr.
  pose proof (pow2_pos 1074 ltac:(lia)) as P.
  apply integer_of_key; [exact Nr | | exact (integer_key_bound _ _ Hj)].
  rewrite Kr. set (K := 2 ^ 1074) in *. nia.
Qed.

(** [Math.max(offset, Math.max(30, t))] for an integer offset of 99 at
    the most and [t > 99] is [t]. *)
Lemma offset_overridden (off t : float) (j : Z) :
  Number.toInteger off = Some j -> j <= 99 ->
  (99 <? t)%float = true ->
  Math.max off (Math.max 30 t) = t.
Proof.
  intros Hj Bj T.
  destruct (ltb_numeric _ _ T) as [_ Nt].
  rewrite (ltb_key 99 t eq_refl Nt) in T. apply Z.ltb_lt in T.
  rewrite (key_integer _ _ toInteger_99) in T.
  pose proof (pow2_pos 1074 ltac:(lia)) as P.
  assert (M : Math.max 30 t = t).
  { unfold Math.max. rewrite Nt. cbn [is_nan orb].
    change (is_nan 30) with false. cbn [orb].
    rewrite (ltb_key 30 t eq_refl Nt), (key_integer _ _ toInteger_30).
    destruct (Z.ltb_spec (30 * 2 ^ 1074) (key (Prim2SF t))) as [_ | G]; [reflexivity|].
    set (K := 2 ^ 1074) in *. lia. }
  rewrite M. pose proof (integer_not_nan _ _ Hj) as No.
  unfold Math.max. rewrite No, Nt. cbn [orb].
  rewrite (ltb_key off t No Nt), (key_integer _ _ Hj).
  destruct (Z.ltb_spec (j * 2 ^ 1074) (key (Prim2SF t))) as [_ | G]; [reflexivity|].
  set (K := 2 ^ 1074) in *. nia.
Qed.

(** [Math.max(offset, Math.max(30, t))] is 30 at the least, unless [t]
    is NaN. *)
Lemma offset_floor (off t : float) (j : Z) :
  Number.toInteger off = Some j ->
  (30 <=? Math.max off (Math.max 30 t))%float = negb (is_nan t).
Proof.
  intros Hj. pose proof (integer_not_nan _ _ Hj) as No.
  destruct (is_nan t) eqn:Nt.
  - unfold Math.max at 2. rewrite Nt, orb_true_r.
    unfold Math.max. change (is_nan nan) with true. rewrite orb_true_r.
    reflexivity.
  - destruct (max_key 30 t eq_refl Nt) as (Nm & Km & _).
    destruct (max_key off (Math.max 30 t) No Nm) as (Nr & Kr & _).
    rewrite (leb_key 30 _ eq_refl Nr), Kr, Km. cbn [negb].
    apply Z.leb_le. lia.
Qed.

Section Tiers.
Variable Math_pow : float -> float -> float.
Variables Math_cos Math_sin : float -> float.
Variable random : nat -> float.

Lemma choice_third (c : nat) :
  (0.0625 <=? random c)%float = true -> (random c <? 1)%float = true ->
  weightedRandomChoice random
    [ {| min := 20; max := 44 |}; {| min := 45; max := 74 |};
      {| min := 75; max := 99 |} ]%float [0.2; 0.65; 15]%float c
  = (Ok (Some {| min := 75; max := 99 |}), S c).
Proof.
  intros U0 U1. unfold weightedRandomChoice, bind, Math_random, ret.
  change (fold_left (fun sum w => sum + w) [0.2; 0.65; 15] 0)%float with tierWeight.
  rewrite (third_tier _ _ _ _ U0 U1). reflexivity.
Qed.

(** An offset drawn from the third tier. *)
Lemma third_offset (c : nat) (r : Range) (off : float) (j : Z) :
  unitDraws random ->
  (0.0625 <=? random c)%float = true ->
  weightedRandomChoice random
    [ {| min := 20; max := 44 |}; {| min := 45; max := 74 |};
      {| min := 75; max := 99 |} ]%float [0.2; 0.65; 15]%float c
  = (Ok (Some r), S c) ->
  randomFromSelected random (Some r) (S c) = (Ok off, S (S c)) ->
  Number.toInteger off = Some j ->
  75 <= j <= 99.
Proof.
  intros U U0 Ec Er Hj.
  rewrite (choice_third c U0 (proj2 (U c))) in Ec. injection Ec as <-.
  cbn [randomFromSelected min max] in Er.
  destruct (range_Ok random U 75 99 75 99 (S c) toInteger_75 toInteger_99
              ltac:(lia) ltac:(lia) ltac:(lia)) as (x & j' & E & H & B).
  rewrite E in Er. injection Er as ->. congruence.
Qed.

(** With draws of [[0, 1)] and [distance * 0.15 <= 75] (points about
    500 apart or less): when the draw that selects the tier of an
    offset is [0.0625] or more, the offset that
    [generateRandomCurveParameters] returns is an integer of
    [75 .. 99], for [offsetBoundaryX] (the second draw) and for
    [offsetBoundaryY] (the fourth). *)
Theorem generateRandomCurveParameters_upper_tier
  (preOrigin postDestination : Vector) (c : nat) :
  unitDraws random ->
  (distance Math_pow preOrigin postDestination * 0.15 <=? 75)%float = true ->
  exists params,
    generateRandomCurveParameters Math_pow Math_cos Math_sin random
      preOrigin postDestination c = (Ok params, (11 + c)%nat)
    /\ ((0.0625 <=? random (S c))%float = true ->
        exists j, Number.toInteger (p_offsetBoundaryX params) = Some j
                  /\ 75 <= j <= 99)
    /\ ((0.0625 <=? random (S (S (S c))))%float = true ->
        exists j, Number.toInteger (p_offsetBoundaryY params) = Some j
                  /\ 75 <= j <= 99).
Proof.
  intros U D.
  destruct (generateRandomCurveParameters_trace Math_pow Math_cos Math_sin random
              preOrigin postDestination c U)
    as (params & rx & ry & offX & offY & jx & jy & f & k & t & jm & js & jf & E & EX & EY
        & Hx & Bx & Hy & By & _ & _ & _ & _ & _ & _ & _ & _ & _ & _ & _ & _
        & Cx & Rx & Cy & Ry).
  exists params. split; [exact E|]. split; intros T.
  - pose proof (third_offset _ _ _ _ U T Cx Rx Hx) as B.
    exists jx. split; [| exact B]. rewrite EX. apply offset_kept; [exact Hx | lia | exact D].
  - pose proof (third_offset _ _ _ _ U T Cy Ry Hy) as B.
    exists jy. split; [| exact B]. rewrite EY. apply offset_kept; [exact Hy | lia | exact D].
Qed.

(** With draws of [[0, 1)] and [distance * 0.15 > 99] (points more
    than about 660 apart), both offsets that
    [generateRandomCurveParameters] returns are [distance * 0.15],
    whatever tier was drawn. *)
Theorem generateRandomCurveParameters_far_apart
  (preOrigin postDestination : Vector) (c : nat) :
  unitDraws random ->
  (99 <? distance Math_pow preOrigin postDestination * 0.15)%float = true ->
  exists params,
    generateRandomCurveParameters Math_pow Math_cos Math_sin random
      preOrigin postDestination c = (Ok params, (11 + c)%nat)
    /\ p_offsetBoundaryX params
       = (distance Math_pow preOrigin postDestination * 0.15)%float
    /\ p_offsetBoundaryY params
       = (distance Math_pow preOrigin postDestination * 0.15)%float.
Proof.
  intros U D.
  destruct (generateRandomCurveParameters_trace Math_pow Math_cos Math_sin random
              preOrigin postDestination c U)
    as (params & rx & ry & offX & offY & jx & jy & f & k & t & jm & js & jf & E & EX & EY
        & Hx & Bx & Hy & By & _).
  exists params. split; [exact E|]. rewrite EX, EY.
  split; eapply offset_overridden; eauto; lia.
Qed.

(** With draws of [[0, 1)], the offsets that
    [generateRandomCurveParameters] returns are 30 at the least, unless
    [distance * 0.15] is NaN: then they compare as not above 30 (they
    are NaN). *)
Theorem generateRandomCurveParameters_offsets_floor
  (preOrigin postDestination : Vector) (c : nat) :
  unitDraws random ->
  exists params,
    generateRandomCurveParameters Math_pow Math_cos Math_sin random
      preOrigin postDestination c = (Ok params, (11 + c)%nat)
    /\ (30 <=? p_offsetBoundaryX params)%float
       = negb (is_nan (distance Math_pow preOrigin postDestination * 0.15))
    /\ (30 <=? p_offsetBoundaryY params)%float
       = negb (is_nan (distance Math_pow preOrigin postDestination * 0.15)).
Proof.
  intros U.
  destruct (generateRandomCurveParameters_trace Math_pow Math_cos Math_sin random
              preOrigin postDestination c U)
    as (params & rx & ry & offX & offY & jx & jy & f & k & t & jm & js & jf & E & EX & EY
        & Hx & Bx & Hy & By & _).
  exists params. split; [exact E|]. rewrite EX, EY.
  split; eapply offset_floor; eauto.
Qed.
End Tiers.

Lemma generateRandomCurveParameters_upper_tier_witness :
  exists params,
    generateRandomCurveParameters Sample.pow Sample.cos Sample.sin Sample.draws
      (Vector.mk 10 20) (Vector.mk 40 60) 0%nat = (Ok params, 11%nat)
    /\ ((0.0625 <=? Sample.draws 1%nat)%float = true ->
        exists j, Number.toInteger (p_offsetBoundaryX params) = Some j
                  /\ 75 <= j <= 99)
    /\ ((0.0625 <=? Sample.draws 3%nat)%float = true ->
        exists j, Number.toInteger (p_offsetBoundaryY params) = Some j
                  /\ 75 <= j <= 99).
Proof.
  apply (generateRandomCurveParameters_upper_tier Sample.pow Sample.cos Sample.sin
           Sample.draws (Vector.mk 10 20) (Vector.mk 40 60) 0%nat).
  - exact draws_unit.
  - vm_compute. reflexivity.
Defined.

Lemma generateRandomCurveParameters_far_apart_witness :
  exists params,
    generateRandomCurveParameters Sample.pow Sample.cos Sample.sin Sample.draws
      (Vector.mk 0 0) (Vector.mk 1000 0) 0%nat = (Ok params, 11%nat)
    /\ p_offsetBoundaryX params
       = (distance Sample.pow (Vector.mk 0 0) (Vector.mk 1000 0) * 0.15)%float
    /\ p_offsetBoundaryY params
       = (distance Sample.pow (Vector.mk 0 0) (Vector.mk 1000 0) * 0.15)%float.
Proof.
  apply (generateRandomCurveParameters_far_apart Sample.pow Sample.cos Sample.sin
           Sample.draws (Vector.mk 0 0) (Vector.mk 1000 0) 0%nat).
  - exact draws_unit.
  - vm_compute. reflexivity.
Defined.

Lemma generateRandomCurveParameters_offsets_floor_witness :
  exists params,
    generateRandomCurveParameters Sample.pow Sample.cos Sample.sin Sample.draws
      (Vector.mk 10 20) (Vector.mk 40 60) 0%nat = (Ok params, 11%nat)
    /\ (30 <=? p_offsetBoundaryX params)%float
       = negb (is_nan (distance Sample.pow (Vector.mk 10 20) (Vector.mk 40 60) * 0.15))
    /\ (30 <=? p_offsetBoundaryY params)%float
       = negb (is_nan (distance Sample.pow (Vector.mk 10 20) (Vector.mk 40 60) * 0.15)).
Proof.
  apply (generateRandomCurveParameters_offsets_floor Sample.pow Sample.cos Sample.sin
           Sample.draws (Vector.mk 10 20) (Vector.mk 40 60) 0%nat).
  exact draws_unit.
Defined.

(** ** The default boundaries of [generateCurve] *)

Lemma is_finite_SFfinite (x : float) :
  is_finite x = true -> SFfinite (Prim2SF x) = true.
Proof.
  unfold is_finite, is_infinity. rewrite is_nan_numeric, eqb_spec, abs_spec.
  destruct (Prim2SF x) as [s | s | | s m e]; try reflexivity; intros H;
    vm_compute in H; discriminate H.
Qed.

(** A number that is not below 0 is a finite one with a value of 0 at
    the least, or [Infinity]. *)
Lemma nonneg_cases (o : float) :
  (0 <=? o)%float = true ->
  (SFfinite (Prim2SF o) = true /\ 0 <= scaled (Prim2SF o))
  \/ Prim2SF o = S754_infinity false.
Proof.
  intros H. destruct (leb_numeric _ _ H) as [_ No].
  rewrite (leb_key 0 o eq_refl No) in H. apply Z.leb_le in H.
  change (key (Prim2SF 0)) with 0 in H.
  apply not_nan_numeric in No. pose proof INF_pos.
  destruct (Prim2SF o) as [s | [|] | | s m e]; cbn [key numeric] in *;
    try discriminate; auto; lia.
Qed.

Lemma sub_infinity (a o : float) :
  SFfinite (Prim2SF a) = true -> Prim2SF o = S754_infinity false ->
  Prim2SF (a - o) = S754_infinity true.
Proof.
  intros F E. rewrite sub_spec, E. unfold SF64sub.
  destruct (Prim2SF a); try discriminate F; reflexivity.
Qed.

Lemma add_infinity (a o : float) :
  SFfinite (Prim2SF a) = true -> Prim2SF o = S754_infinity false ->
  Prim2SF (a + o) = S754_infinity false.
Proof.
  intros F E. rewrite add_spec, E. unfold SF64add.
  destruct (Prim2SF a); try discriminate F; reflexivity.
Qed.

Lemma finite_not_nan (a : float) : SFfinite (Prim2SF a) = true -> is_nan a = false.
Proof.
  intros F. apply numeric_not_nan. destruct (Prim2SF a); try discriminate; reflexivity.
Qed.

Lemma min_finite (a b : float) :
  SFfinite (Prim2SF a) = true -> SFfinite (Prim2SF b) = true ->
  SFfinite (Prim2SF (Math.min a b)) = true.
Proof.
  intros Fa Fb.
  destruct (min_key a b (finite_not_nan a Fa) (finite_not_nan b Fb)) as (_ & _ & [-> | ->]);
    assumption.
Qed.

Lemma max_finite (a b : float) :
  SFfinite (Prim2SF a) = true -> SFfinite (Prim2SF b) = true ->
  SFfinite (Prim2SF (Math.max a b)) = true.
Proof.
  intros Fa Fb.
  destruct (max_key a b (finite_not_nan a Fa) (finite_not_nan b Fb)) as (_ & _ & [-> | ->]);
    assumption.
Qed.

(** The boundaries [min(a, b) - o] and [max(a, b) + o] of finite
    coordinates and an offset that is not below 0 are numeric and in
    order. *)
Lemma spread_ordered (a b o : float) :
  SFfinite (Prim2SF a) = true -> SFfinite (Prim2SF b) = true ->
  (0 <=? o)%float = true ->
  checkIfNumeric (Math.min a b - o) = true
  /\ checkIfNumeric (Math.max a b + o) = true
  /\ (Math.max a b + o <? Math.min a b - o)%float = false.
Proof.
  intros Fa Fb O. unfold checkIfNumeric.
  pose proof (min_finite a b Fa Fb) as Fm. pose proof (max_finite a b Fa Fb) as FM.
  destruct (min_key a b (finite_not_nan a Fa) (finite_not_nan b Fb)) as (_ & Km & _).
  destruct (max_key a b (finite_not_nan a Fa) (finite_not_nan b Fb)) as (_ & KM & _).
  rewrite (key_finite _ Fm), (key_finite _ FM), (key_finite _ Fa), (key_finite _ Fb)
    in *.
  destruct (nonneg_cases o O) as [[Fo Po] | Io].
  - destruct (sub_bounds (Math.min a b) o (Math.min a b) Fm Fo Fm) as (Nl & _ & Ul).
    destruct (add_bounds (Math.max a b) o (Math.max a b) FM Fo FM) as (Nr & Lr & _).
    specialize (Ul ltac:(lia)). specialize (Lr ltac:(lia)).
    rewrite (key_finite _ Fm) in Ul. rewrite (key_finite _ FM) in Lr.
    rewrite Nl, Nr. split; [reflexivity|]. split; [reflexivity|].
    rewrite (ltb_key _ _ Nr Nl). apply Z.ltb_ge. lia.
  - pose proof (sub_infinity _ _ Fm Io) as El. pose proof (add_infinity _ _ FM Io) as Er.
    assert (Nl : is_nan (Math.min a b - o) = false)
      by (rewrite is_nan_numeric, El; reflexivity).
    assert (Nr : is_nan (Math.max a b + o) = false)
      by (rewrite is_nan_numeric, Er; reflexivity).
    rewrite Nl, Nr. split; [reflexivity|]. split; [reflexivity|].
    rewrite (ltb_key _ _ Nr Nl), El, Er. cbn [key]. apply Z.ltb_ge.
    pose proof INF_pos. lia.
Qed.

Lemma resolve_boundaries (fromPoint toPoint : Vector)
  (options : HumanCurveOptions) :
  leftBoundary options = None -> rightBoundary options = None ->
  downBoundary options = None -> upBoundary options = None ->
  is_finite (Vector.x fromPoint) = true -> is_finite (Vector.y fromPoint) = true ->
  is_finite (Vector.x toPoint) = true -> is_finite (Vector.y toPoint) = true ->
  (0 <=? orElse (offsetBoundaryX options) 80)%float = true ->
  (0 <=? orElse (offsetBoundaryY options) 80)%float = true ->
  boundaryFailure (in_left (resolve fromPoint toPoint options))
    (in_right (resolve fromPoint toPoint options))
    (in_down (resolve fromPoint toPoint options))
    (in_up (resolve fromPoint toPoint options)) = false.
Proof.
  intros L R D U Fx Fy Tx Ty OX OY.
  unfold resolve. cbn [in_left in_right in_down in_up]. rewrite L, R, D, U.
  cbn [orElse].
  apply is_finite_SFfinite in Fx, Fy, Tx, Ty.
  destruct (spread_ordered _ _ _ Fx Tx OX) as (Nl & Nr & LR).
  destruct (spread_ordered _ _ _ Fy Ty OY) as (Nd & Nu & DU).
  unfold boundaryFailure. cbn [orElse] in *. rewrite Nl, Nr, Nd, Nu, LR, DU. reflexivity.
Qed.

(** [generateCurve] without boundaries in its options, between points
    of finite coordinates and with offsets that are not below 0 (the
    defaults of 80 are not): the boundaries it computes are numeric, with
    [left <= right] and [down <= up], so that the guards of
    [generateInternalKnots] on them pass. *)
Theorem default_boundaries_pass (fromPoint toPoint : Vector)
  (options : HumanCurveOptions) :
  leftBoundary options = None -> rightBoundary options = None ->
  downBoundary options = None -> upBoundary options = None ->
  is_finite (Vector.x fromPoint) = true -> is_finite (Vector.y fromPoint) = true ->
  is_finite (Vector.x toPoint) = true -> is_finite (Vector.y toPoint) = true ->
  (0 <=? orElse (offsetBoundaryX options) 80)%float = true ->
  (0 <=? orElse (offsetBoundaryY options) 80)%float = true ->
  let i := resolve fromPoint toPoint options in
  boundaryFailure (in_left i) (in_right i) (in_down i) (in_up i) = false.
Proof.
  intros L R D U Fx Fy Tx Ty OX OY. cbv zeta.
  unfold resolve. cbn [in_left in_right in_down in_up]. rewrite L, R, D, U.
  cbn [orElse].
  apply is_finite_SFfinite in Fx, Fy, Tx, Ty.
  destruct (spread_ordered _ _ _ Fx Tx OX) as (Nl & Nr & LR).
  destruct (spread_ordered _ _ _ Fy Ty OY) as (Nd & Nu & DU).
  unfold boundaryFailure. cbn [orElse] in *. rewrite Nl, Nr, Nd, Nu, LR, DU. reflexivity.
Qed.

Lemma default_boundaries_pass_witness :
  boundaryFailure
    (in_left (resolve (Vector.mk 10 20) (Vector.mk 40 60) noOptions))
    (in_right (resolve (Vector.mk 10 20) (Vector.mk 40 60) noOptions))
    (in_down (resolve (Vector.mk 10 20) (Vector.mk 40 60) noOptions))
    (in_up (resolve (Vector.mk 10 20) (Vector.mk 40 60) noOptions)) = false.
Proof.
  apply (default_boundaries_pass (Vector.mk 10 20) (Vector.mk 40 60) noOptions);
    reflexivity.
Defined.

Section Spread.
Variable Math_pow : float -> float -> float.
Variables Math_log Math_cos Math_sin : float -> float.
Variable random : nat -> float.
Variable Date_now : float.

(** [pathWithHumanCurve] with a [spreadOverride] that is not below 0,
    between points of finite coordinates and with draws of [[0, 1)]:
    after the eleven draws of [generateRandomCurveParameters] it runs
    the trajectory on options of which every parameter passes its
    guard: the boundaries are numeric and in order, the distortion
    parameters numeric with a frequency in [[0, 1]], and [targetPoints]
    is an integer of 2 at the least. *)
Theorem pathWithHumanCurve_spread_guards (page start : Vector)
  (end_ : Vector + BoundingBox) (options : PathArgument) (n : float) (c : nat) :
  unitDraws random ->
  spreadOverride (resolvePathOptions options) = Some n ->
  (0 <=? n)%float = true ->
  is_finite (Vector.x start) = true -> is_finite (Vector.y start) = true ->
  is_finite (Vector.x (endPointOf end_)) = true ->
  is_finite (Vector.y (endPointOf end_)) = true ->
  exists params curveOptions,
    generateRandomCurveParameters Math_pow Math_cos Math_sin random page start c
    = (Ok params, (11 + c)%nat)
    /\ pathWithHumanCurve Math_pow Math_log Math_cos Math_sin random
         Date_now page start end_ options c
       = (humanCurve <- newHumanizeMouseTrajectory Math_pow Math_log Math_cos random
                          start (endPointOf end_) curveOptions ;;
          ret (clampPositive Math_pow Date_now (points humanCurve)
                 (resolvePathOptions options))) (11 + c)%nat
    /\ offsetBoundaryX curveOptions = Some n
    /\ offsetBoundaryY curveOptions = Some n
    /\ parameterFailure (resolve start (endPointOf end_) curveOptions) = false.
Proof.
  intros U S N Sx Sy Ex Ey.
  destruct (generateRandomCurveParameters_run Math_pow Math_cos Math_sin random
              page start c U)
    as (params & offX & offY & jx & jy & f & k & t & jm & js & jf & E & _ & _ & _ & _
        & _ & _ & Ef & Inf & Hk & Bk & Ht & Bt & Em & Bm & Es & Bs & Efr & Bfr).
  exists params. eexists. split; [exact E|]. split.
  { unfold pathWithHumanCurve. unfold bind at 1. rewrite E. rewrite S.
    cbn [orElse]. reflexivity. }
  split; [reflexivity|]. split; [reflexivity|].
  rewrite parameterFailure_split.
  match goal with
  | |- context [resolve start (endPointOf end_) ?o] =>
      pose proof (resolve_boundaries start (endPointOf end_) o
                    eq_refl eq_refl eq_refl eq_refl Sx Sy Ex Ey N N) as B
  end.
  rewrite B. cbn [orb].
  unfold resolve.
  cbn [in_mean in_stDev in_frequency in_targetPoints distortionMean distortionStDev
       distortionFrequency targetPoints orElse].
  rewrite Em, Es, Efr, !numeric_hundredths by lia. cbn [negb orb].
  rewrite (frequency_guard jf Bfr). cbn [orb].
  unfold targetFailure.
  assert (H2 : Number.toInteger 2 = Some 2) by (vm_compute; reflexivity).
  rewrite (toInteger_isInteger _ _ Ht), (ltb_integers _ _ _ _ Ht H2).
  destruct (Z.ltb_spec t 2); [lia | reflexivity].
Qed.
End Spread.

Lemma pathWithHumanCurve_spread_guards_witness :
  exists params curveOptions,
    generateRandomCurveParameters Sample.pow Sample.cos Sample.sin Sample.draws
      (Vector.mk nan nan) (Vector.mk 10 20) 0%nat = (Ok params, 11%nat)
    /\ pathWithHumanCurve Sample.pow Sample.log Sample.cos Sample.sin Sample.draws
         1700000000000%float (Vector.mk nan nan) (Vector.mk 10 20)
         (inl (Vector.mk 40 60)) (PathNumber 50) 0%nat
       = (humanCurve <- newHumanizeMouseTrajectory Sample.pow Sample.log Sample.cos
                          Sample.draws (Vector.mk 10 20) (Vector.mk 40 60)
                          curveOptions ;;
          ret (clampPositive Sample.pow 1700000000000 (points humanCurve)
                 (resolvePathOptions (PathNumber 50)))) 11%nat
    /\ offsetBoundaryX curveOptions = Some 50%float
    /\ offsetBoundaryY curveOptions = Some 50%float
    /\ parameterFailure (resolve (Vector.mk 10 20) (Vector.mk 40 60) curveOptions)
       = false.
Proof.
  apply (pathWithHumanCurve_spread_guards Sample.pow Sample.log Sample.cos Sample.sin
           Sample.draws 1700000000000%float (Vector.mk nan nan) (Vector.mk 10 20)
           (inl (Vector.mk 40 60)) (PathNumber 50) 50%float 0%nat);
    [exact draws_unit | reflexivity ..].
Defined.

(** ** Signs under rounding *)

Lemma shr_1_keeps (mrs : shr_record) : 0 <= shr_m mrs -> 0 <= shr_m (shr_1 mrs).
Proof.
  destruct mrs as [m r s]. cbn [shr_m]. intros H.
  rewrite shr_1_nonneg by assumption. cbn [shr_m]. apply Z.div_pos; lia.
Qed.

Lemma shr_keeps (mrs : shr_record) (e n : Z) :
  0 <= shr_m mrs -> 0 <= shr_m (fst (shr mrs e n)).
Proof.
  intros H. unfold shr. destruct n as [| p | p]; cbn [fst]; try assumption.
  rewrite iter_pos_nat.
  induction (Pos.to_nat p) as [| k IH]; [exact H|].
  rewrite Nat.iter_succ. apply shr_1_keeps, IH.
Qed.

Lemma shr_fexp_keeps (m e : Z) (l : location) :
  0 <= m -> 0 <= shr_m (fst (shr_fexp prec emax m e l)).
Proof.
  intros H. unfold shr_fexp. apply shr_keeps. destruct l as [| []]; exact H.
Qed.

Lemma round_nearest_even_keeps (mrs : shr_record) :
  0 <= shr_m mrs -> 0 <= round_nearest_even (shr_m mrs) (loc_of_shr_record mrs).
Proof.
  destruct mrs as [q r s]. cbn [shr_m]. intros H.
  destruct (round_nearest_even_cases q r s) as [E | [E _]]; cbv zeta in E; rewrite E; lia.
Qed.

(** Rounding a mantissa that is not negative gives a number of the sign
    asked for, and never NaN. *)
Lemma round_aux_signed (s : bool) (mx ex : Z) (lx : location) :
  0 <= mx ->
  match binary_round_aux prec emax s mx ex lx with
  | S754_zero s' | S754_infinity s' | S754_finite s' _ _ => s' = s
  | S754_nan => False
  end.
Proof.
  intros H. unfold binary_round_aux.
  pose proof (shr_fexp_keeps mx ex lx H) as K1.
  destruct (shr_fexp prec emax mx ex lx) as [mrs' e']. cbn [fst] in K1.
  pose proof (round_nearest_even_keeps mrs' K1) as K2.
  pose proof (shr_fexp_keeps _ e' loc_Exact K2) as K3.
  destruct (shr_fexp prec emax _ e' loc_Exact) as [mrs'' e'']. cbn [fst] in K3.
  destruct (shr_m mrs''); [reflexivity | | lia].
  destruct (_ <=? _); reflexivity.
Qed.

Lemma positive_sign_key (R : spec_float) :
  match R with
  | S754_zero s' | S754_infinity s' | S754_finite s' _ _ => s' = false
  | S754_nan => False
  end ->
  numeric R = true /\ 0 <= key R.
Proof.
  pose proof INF_pos.
  destruct R as [s | s | | s m e]; intros E; try contradiction; subst;
    cbn [key scaled numeric Number.signed]; split; try reflexivity; try lia;
    try (apply Z.mul_nonneg_nonneg; [lia | apply Z.pow_nonneg; lia]).
Qed.

Lemma key_sign (x : spec_float) :
  valid_binary x = true -> 0 <= key x ->
  match x with
  | S754_infinity s | S754_finite s _ _ => s = false
  | _ => True
  end.
Proof.
  intros V K. pose proof INF_pos.
  destruct x as [s | [|] | | [|] m e]; cbn [key] in K; try exact I; try reflexivity;
    try lia.
  destruct (finite_cases _ V eq_refl)
    as [Hz | [(mc & ec & [=] & _) | (_ & _ & _ & _ & _ & N)]].
  - cbn [scaled Number.signed] in Hz. cbn [valid_binary] in V.
    pose proof (bounded_facts _ _ V) as (He & _ & _).
    pose proof (pow2_pos (e + 1074) ltac:(lia)). nia.
  - lia.
Qed.

(** [Math.sqrt] gives NaN or a number that is not below 0. *)
Lemma sqrt_key (a : float) :
  is_nan (Math.sqrt a) = false -> 0 <= key (Prim2SF (Math.sqrt a)).
Proof.
  unfold Math.sqrt. rewrite is_nan_numeric, sqrt_spec. unfold SF64sqrt, SFsqrt.
  pose proof INF_pos.
  destruct (Prim2SF a) as [s | [|] | | [|] m e]; cbn [numeric negb key scaled];
    try discriminate; try lia.
  intros _.
  destruct (SFsqrt_core_binary prec emax (Z.pos m) e) as [[mz ez] lz] eqn:C.
  assert (0 <= mz).
  { unfold SFsqrt_core_binary in C.
    match type of C with
    | (let (q, r) := Z.sqrtrem ?n in _) = _ =>
        pose proof (Z.sqrtrem_sqrt n) as Q; destruct (Z.sqrtrem n) as [q r]
    end.
    cbn [fst] in Q. injection C as <- _ _. rewrite Q. apply Z.sqrt_nonneg. }
  apply positive_sign_key, round_aux_signed. assumption.
Qed.

(** The quotient of a number that is not below 0 by a positive one is
    NaN or not below 0. *)
Lemma div_key (a b : float) :
  0 <= key (Prim2SF a) -> 0 < key (Prim2SF b) ->
  is_nan (a / b) = false -> 0 <= key (Prim2SF (a / b)).
Proof.
  intros Ka Kb. rewrite is_nan_numeric, div_spec. unfold SF64div, SFdiv.
  pose proof (key_sign _ (Prim2SF_valid a) Ka) as Sa.
  pose proof (key_sign _ (Prim2SF_valid b) ltac:(lia)) as Sb.
  pose proof INF_pos.
  destruct (Prim2SF a) as [sa | sa | | sa ma ea], (Prim2SF b) as [sb | sb | | sb mb eb];
    subst; cbn [numeric negb key scaled xorb] in *; try discriminate; try lia.
  intros _.
  destruct (SFdiv_core_binary prec emax (Z.pos ma) ea (Z.pos mb) eb) as [[mz ez] lz] eqn:C.
  assert (0 <= mz).
  { unfold SFdiv_core_binary in C.
    match type of C with
    | (let '(q, r) := Z.div_eucl ?n ?d in _) = _ =>
        assert (Pn : 0 <= n)
          by (destruct (ea - eb - _); [lia | apply Z.shiftl_nonneg; lia | lia]);
        pose proof (Z_div_mod n d ltac:(lia)) as Q; destruct (Z.div_eucl n d) as [q r]
    end.
    injection C as <- _ _. nia. }
  apply positive_sign_key, round_aux_signed. assumption.
Qed.

(** The product of a number that is not below 0 and a positive finite
    one is NaN or not below 0. *)
Lemma mul_key (a b : float) :
  0 <= key (Prim2SF a) -> SFfinite (Prim2SF b) = true -> 0 < key (Prim2SF b) ->
  is_nan (a * b) = false -> 0 <= key (Prim2SF (a * b)).
Proof.
  intros Ka Fb Kb. rewrite is_nan_numeric, mul_spec. unfold SF64mul, SFmul.
  pose proof (key_sign _ (Prim2SF_valid a) Ka) as Sa.
  pose proof (key_sign _ (Prim2SF_valid b) ltac:(lia)) as Sb.
  pose proof INF_pos.
  destruct (Prim2SF a) as [sa | sa | | sa ma ea], (Prim2SF b) as [sb | sb | | sb mb eb];
    subst; cbn [numeric negb key scaled xorb SFfinite] in *; try discriminate; try lia.
  intros _. apply positive_sign_key, round_aux_signed. lia.
Qed.

(** [Math.round] of a number that is not below 0 is not below 0. *)
Lemma round_key (x : float) :
  is_nan x = false -> 0 <= key (Prim2SF x) ->
  is_nan (Math.round x) = false /\ 0 <= key (Prim2SF (Math.round x)).
Proof.
  intros N K. unfold Math.round.
  pose proof (key_sign _ (Prim2SF_valid x) K) as Sx.
  pose proof (Prim2SF_valid x) as V.
  destruct (Prim2SF x) as [s | s | | s m e] eqn:P; try (rewrite P; auto; fail).
  subst s. destruct (Z.leb_spec 0 e); [rewrite P; auto|].
  rewrite andb_false_r. cbn [Number.signed].
  cbn [valid_binary] in V. pose proof (bounded_facts _ _ V) as (He & Hm & _).
  set (z := Z.shiftl (2 * Z.pos m + 2 ^ (- e)) (e - 1)).
  assert (Bz : 0 <= z < 2 ^ 53).
  { subst z. rewrite Z.shiftl_div_pow2 by lia.
    pose proof (pow2_pos (- e) ltac:(lia)) as P1.
    assert (P2 : 2 ^ (- (e - 1)) = 2 * 2 ^ (- e)).
    { replace (- (e - 1)) with (Z.succ (- e)) by lia. apply Z.pow_succ_r. lia. }
    rewrite P2. split.
    - apply Z.div_pos; lia.
    - apply Z.div_lt_upper_bound; [lia|].
      assert (2 <= 2 ^ (- e)).
      { change 2 with (2 ^ 1) at 1. apply Z.pow_le_mono_r; lia. }
      change (2 ^ 53) with 9007199254740992 in *. nia. }
  pose proof (toInteger_of_Z z ltac:(lia)) as T.
  split; [exact (integer_not_nan _ _ T)|].
  rewrite (key_integer _ _ T). pose proof (pow2_pos 1074 ltac:(lia)). nia.
Qed.

(** Adding a number that is not below 0 does not decrease. *)
Lemma add_increases (t inc : float) :
  0 <= key (Prim2SF inc) -> is_nan (t + inc) = false ->
  (t <=? t + inc)%float = true.
Proof.
  intros K N.
  assert (Nt : is_nan t = false).
  { destruct (is_nan t) eqn:E; [| reflexivity].
    apply is_nan_eq in E. subst t. rewrite add_nan_l in N. discriminate N. }
  assert (Ni : is_nan inc = false).
  { destruct (is_nan inc) eqn:E; [| reflexivity].
    apply is_nan_eq in E. subst inc. rewrite add_nan_r in N. discriminate N. }
  rewrite (leb_key _ _ Nt N). apply Z.leb_le.
  pose proof (key_sign _ (Prim2SF_valid inc) K) as Si.
  pose proof (key_bound _ (Prim2SF_valid t)) as Bt.
  apply not_nan_numeric in Nt, Ni.
  destruct (SFfinite (Prim2SF t)) eqn:Ft.
  - destruct (SFfinite (Prim2SF inc)) eqn:Fi.
    + destruct (add_bounds t inc t Ft Fi Ft) as (_ & L & _). apply L.
      rewrite (key_finite _ Fi) in K. lia.
    + assert (Ei : Prim2SF inc = S754_infinity false).
      { destruct (Prim2SF inc) as [s | s | | s m e]; try discriminate; subst; reflexivity. }
      rewrite (add_infinity _ _ Ft Ei). cbn [key]. lia.
  - rewrite is_nan_numeric, add_spec in N. rewrite add_spec. unfold SF64add in *.
    destruct (Prim2SF t) as [s | s | | s m e]; try discriminate.
    destruct (Prim2SF inc) as [si | si | | si mi ei]; try discriminate;
      cbn [SFadd] in *; try lia.
    subst si. destruct s; cbn [Bool.eqb] in *; [discriminate N | lia].
Qed.

Lemma mul_nan_l (y : float) : (nan * y)%float = nan.
Proof.
  apply Prim2SF_inj. rewrite mul_spec. change (Prim2SF nan) with S754_nan. reflexivity.
Qed.

Lemma div_nan_l (y : float) : (nan / y)%float = nan.
Proof.
  apply Prim2SF_inj. rewrite div_spec. change (Prim2SF nan) with S754_nan. reflexivity.
Qed.

Lemma round_nan : Math.round nan = nan.
Proof. reflexivity. Qed.

(** The [timeIncrement] of [generateTimestamps] for a positive speed is
    NaN or not below 0. *)
Lemma timeIncrement_key (d speed : float) :
  (0 <? speed)%float = true ->
  is_nan (Math.round (Math.sqrt d / speed * 2)) = false ->
  0 <= key (Prim2SF (Math.round (Math.sqrt d / speed * 2))).
Proof.
  intros S N.
  destruct (ltb_numeric _ _ S) as [_ Ns].
  rewrite (ltb_key 0 speed eq_refl Ns) in S. apply Z.ltb_lt in S.
  change (key (Prim2SF 0)) with 0 in S.
  assert (Np : is_nan (Math.sqrt d / speed * 2) = false).
  { destruct (is_nan (Math.sqrt d / speed * 2)) eqn:E; [| reflexivity].
    apply is_nan_eq in E. rewrite E, round_nan in N. discriminate N. }
  assert (Nq : is_nan (Math.sqrt d / speed) = false).
  { destruct (is_nan (Math.sqrt d / speed)) eqn:E; [| reflexivity].
    apply is_nan_eq in E. rewrite E, mul_nan_l in Np. discriminate Np. }
  assert (Nd : is_nan (Math.sqrt d) = false).
  { destruct (is_nan (Math.sqrt d)) eqn:E; [| reflexivity].
    apply is_nan_eq in E. rewrite E, div_nan_l in Nq. discriminate Nq. }
  pose proof (sqrt_key d Nd) as Kd.
  pose proof (div_key _ _ Kd S Nq) as Kq.
  assert (K2 : 0 < key (Prim2SF 2)) by (apply Z.ltb_lt; vm_compute; reflexivity).
  pose proof (mul_key _ 2 Kq eq_refl K2 Np) as Kp.
  apply (round_key _ Np Kp).
Qed.

Section Timestamps.
Variable Math_pow : float -> float -> float.
Variable Date_now : float.

Lemma timestampsFrom_untimed (speed : float) (vectors : list Vector) :
  forall (prev : Vector) (t : float),
    map (fun tv => Vector.mk (tv_x tv) (tv_y tv))
        (timestampsFrom Math_pow speed prev t vectors) = vectors.
Proof.
  induction vectors as [| [x y] vectors IH]; intros prev t; [reflexivity|].
  cbn [timestampsFrom map tv_x tv_y Vector.x Vector.y]. rewrite IH. reflexivity.
Qed.

Lemma generateTimestamps_keeps (vectors : list Vector) (options : PathOptions) :
  map (fun tv => Vector.mk (tv_x tv) (tv_y tv))
      (generateTimestamps Math_pow Date_now vectors options) = vectors
  /\ hd_error (map timestamp (generateTimestamps Math_pow Date_now vectors options))
     = hd_error (map (fun _ => Date_now) vectors).
Proof.
  unfold generateTimestamps. destruct vectors as [| [x y] vectors]; [split; reflexivity|].
  cbn [map tv_x tv_y Vector.x Vector.y hd_error timestamp].
  rewrite timestampsFrom_untimed. split; reflexivity.
Qed.

(** [generateTimestamps] keeps the points, their number and their
    order, and stamps the first one with the reading of the clock. *)
Theorem generateTimestamps_frame (vectors : list Vector) (options : PathOptions) :
  map (fun tv => Vector.mk (tv_x tv) (tv_y tv))
      (generateTimestamps Math_pow Date_now vectors options) = vectors
  /\ hd_error (map timestamp (generateTimestamps Math_pow Date_now vectors options))
     = hd_error (map (fun _ => Date_now) vectors).
Proof.
  unfold generateTimestamps. destruct vectors as [| [x y] vectors]; [split; reflexivity|].
  cbn [map tv_x tv_y Vector.x Vector.y hd_error timestamp].
  rewrite timestampsFrom_untimed. split; reflexivity.
Qed.

Lemma timestampsFrom_steps (speed : float) (vectors : list Vector) :
  (0 <? speed)%float = true ->
  forall (prev : Vector) (head : TimedVector) (i : nat) (a b : TimedVector),
    nth_error (head :: timestampsFrom Math_pow speed prev (timestamp head) vectors) i
    = Some a ->
    nth_error (head :: timestampsFrom Math_pow speed prev (timestamp head) vectors) (S i)
    = Some b ->
    is_nan (timestamp b) = false ->
    (timestamp a <=? timestamp b)%float = true.
Proof.
  intros S. induction vectors as [| curr vectors IH]; intros prev head i a b Ha Hb N.
  - destruct i; cbn in Hb; [discriminate | destruct i; discriminate].
  - cbn [timestampsFrom] in Ha, Hb. destruct i as [| i].
    + cbn [nth_error] in Ha, Hb. injection Ha as <-. injection Hb as <-.
      cbn [timestamp] in *.
      apply add_increases; [| exact N].
      apply timeIncrement_key; [exact S|].
      destruct (is_nan (Math.round _)) eqn:E; [| reflexivity].
      apply is_nan_eq in E. rewrite E, add_nan_r in N. discriminate N.
    + cbn [nth_error] in Ha. change (nth_error (?h :: ?l) (Datatypes.S ?n)) with (nth_error l n) in Hb.
      match type of Ha with
      | nth_error (?h :: timestampsFrom _ _ _ ?t _) _ = _ =>
          exact (IH curr h i a b Ha Hb N)
      end.
Qed.

(** With a positive speed (the default of 1 is), the timestamps of
    [generateTimestamps] do not decrease from a point to the next one,
    as far as they are numbers: a timestamp is NaN or not below the one
    before it. *)
Theorem generateTimestamps_monotone (vectors : list Vector) (options : PathOptions)
  (i : nat) (a b : TimedVector) :
  (0 <? orElse (moveSpeed options) 1)%float = true ->
  nth_error (generateTimestamps Math_pow Date_now vectors options) i = Some a ->
  nth_error (generateTimestamps Math_pow Date_now vectors options) (S i) = Some b ->
  is_nan (timestamp b) = false ->
  (timestamp a <=? timestamp b)%float = true.
Proof.
  intros S. unfold generateTimestamps.
  destruct vectors as [| first vectors]; [destruct i; discriminate|].
  apply (timestampsFrom_steps _ vectors S first
           {| tv_x := Vector.x first; tv_y := Vector.y first; timestamp := Date_now |}).
Qed.
End Timestamps.

Lemma generateTimestamps_monotone_witness :
  nth_error (generateTimestamps Sample.pow 1700000000000
               [Vector.mk 0 0; Vector.mk 3 4; Vector.mk 6 8]
               {| spreadOverride := None; moveSpeed := None; useTimestamps := Some true |})
            1 = Some {| tv_x := 3; tv_y := 4; timestamp := 1700000000010 |}
  /\ nth_error (generateTimestamps Sample.pow 1700000000000
                  [Vector.mk 0 0; Vector.mk 3 4; Vector.mk 6 8]
                  {| spreadOverride := None; moveSpeed := None;
                     useTimestamps := Some true |})
               2 = Some {| tv_x := 6; tv_y := 8; timestamp := 1700000000020 |}
  /\ (1700000000010 <=? 1700000000020)%float = true.
Proof.
  assert (A : nth_error (generateTimestamps Sample.pow 1700000000000
               [Vector.mk 0 0; Vector.mk 3 4; Vector.mk 6 8]
               {| spreadOverride := None; moveSpeed := None; useTimestamps := Some true |})
            1 = Some {| tv_x := 3; tv_y := 4; timestamp := 1700000000010 |})
    by (vm_compute; reflexivity).
  assert (B : nth_error (generateTimestamps Sample.pow 1700000000000
                  [Vector.mk 0 0; Vector.mk 3 4; Vector.mk 6 8]
                  {| spreadOverride := None; moveSpeed := None;
                     useTimestamps := Some true |})
               2 = Some {| tv_x := 6; tv_y := 8; timestamp := 1700000000020 |})
    by (vm_compute; reflexivity).
  split; [exact A|]. split; [exact B|].
  exact (generateTimestamps_monotone Sample.pow 1700000000000
           [Vector.mk 0 0; Vector.mk 3 4; Vector.mk 6 8]
           {| spreadOverride := None; moveSpeed := None; useTimestamps := Some true |}
           1%nat _ _ eq_refl A B eq_refl).
Defined.

Section TimedPath.
Variable Math_pow : float -> float -> float.
Variables Math_log Math_cos Math_sin : float -> float.
Variable random : nat -> float.
Variable Date_now : float.

(** A path that [pathWithHumanCurve] returns with [useTimestamps] set
    is a list of timed points: without their timestamps they start at
    [start] and end at the end point, each with its negative coordinates
    raised to 0, and the first timestamp is the reading of the clock. *)
Theorem pathWithHumanCurve_timed_endpoints (page start : Vector)
  (end_ : Vector + BoundingBox) (options : PathArgument) (c c' : nat)
  (r : list Vector + list TimedVector) :
  useTimestamps (resolvePathOptions options) = Some true ->
  pathWithHumanCurve Math_pow Math_log Math_cos Math_sin random
    Date_now page start end_ options c = (Ok r, c') ->
  exists middle timed,
    r = inr timed
    /\ map (fun tv => Vector.mk (tv_x tv) (tv_y tv)) timed
       = Vector.mk (Math.max 0 (Vector.x start)) (Math.max 0 (Vector.y start))
         :: middle
         ++ [Vector.mk (Math.max 0 (Vector.x (endPointOf end_)))
                       (Math.max 0 (Vector.y (endPointOf end_)))]
    /\ hd_error (map timestamp timed) = Some Date_now.
Proof.
  intros T. unfold pathWithHumanCurve.
  unfold bind at 1.
  destruct (generateRandomCurveParameters _ _ _ _ _ _ c) as [[params | e] c1];
    [| discriminate].
  cbv beta iota zeta. unfold bind at 1. unfold newHumanizeMouseTrajectory, bind, ret.
  match goal with
  | |- context [generateCurve ?a ?b ?d ?e ?f ?g ?h c1] =>
      destruct (generateCurve a b d e f g h c1) as [[out | e'] c2] eqn:G
  end; [| discriminate].
  intros [= <- <-]. cbn [points].
  destruct (generateCurve_ends _ _ _ _ _ _ _ _ _ _ G) as (middle & ->).
  unfold clampPositive. rewrite T.
  exists (clampedVectors middle). eexists. split; [reflexivity|].
  destruct (generateTimestamps_keeps Math_pow Date_now
              (clampedVectors (start :: middle ++ [endPointOf end_]))
              (resolvePathOptions options)) as [K H].
  rewrite K, H. unfold clampedVectors. cbn [map hd_error]. rewrite map_app.
  split; reflexivity.
Qed.
End TimedPath.

Lemma pathWithHumanCurve_timed_endpoints_witness :
  exists r c',
    pathWithHumanCurve Sample.pow Sample.log Sample.cos Sample.sin Sample.draws
      1700000000000%float (Vector.mk 0 0) (Vector.mk (-10) 20) (inl (Vector.mk 40 60))
      (PathObject {| spreadOverride := Some 80%float; moveSpeed := None;
                     useTimestamps := Some true |}) 0%nat = (Ok r, c')
    /\ exists middle timed,
         r = inr timed
         /\ map (fun tv => Vector.mk (tv_x tv) (tv_y tv)) timed
            = Vector.mk (Math.max 0 (-10)) (Math.max 0 20)
              :: middle ++ [Vector.mk (Math.max 0 40) (Math.max 0 60)]
         /\ hd_error (map timestamp timed) = Some 1700000000000%float.
Proof.
  eexists _, _. split.
  - vm_compute. reflexivity.
  - eapply (pathWithHumanCurve_timed_endpoints Sample.pow Sample.log Sample.cos
              Sample.sin Sample.draws 1700000000000%float (Vector.mk 0 0)
              (Vector.mk (-10) 20) (inl (Vector.mk 40 60))
              (PathObject {| spreadOverride := Some 80%float; moveSpeed := None;
                             useTimestamps := Some true |}) 0%nat);
      [reflexivity | vm_compute; reflexivity].
Defined.

(** ** bezier-calculator.ts: where the factorials overflow *)

Lemma fold_left_invariant {A B} (P : A -> Prop) (f : A -> B -> A) (l : list B) :
  (forall r i, P r -> In i l -> P (f r i)) ->
  forall init, P init -> P (fold_left f l init).
Proof.
  induction l as [| b l IH]; intros Step init H; [exact H|].
  cbn [fold_left]. apply IH.
  - intros r i Hr Hi. apply Step; [exact Hr | right; exact Hi].
  - apply Step; [exact H | left; reflexivity].
Qed.

(** The number of a counter [i >= 1] below [2^53]. *)
Lemma of_nat_positive (i : nat) :
  (1 <= i)%nat -> Z.of_nat i < 2 ^ 53 ->
  SFfinite (Prim2SF (Number.of_nat i)) = true
  /\ 2 ^ 1074 <= scaled (Prim2SF (Number.of_nat i)).
Proof.
  intros H1 H.
  destruct (toInteger_scaled _ _ (toInteger_of_nat i H)) as [F S].
  split; [exact F|]. rewrite S.
  pose proof (pow2_pos 1074 ltac:(lia)). nia.
Qed.

Lemma scaled_1 : scaled (Prim2SF 1) = 2 ^ 1074.
Proof. exact scaled_one. Qed.

(** A product of a number of 1 at the least, or [Infinity], and a finite
    number of 1 at the least is such a number again. *)
Lemma mul_at_least_one (a b : float) :
  is_nan a = false -> key (Prim2SF 1) <= key (Prim2SF a) ->
  SFfinite (Prim2SF b) = true -> 2 ^ 1074 <= scaled (Prim2SF b) ->
  is_nan (a * b) = false /\ key (Prim2SF 1) <= key (Prim2SF (a * b)).
Proof.
  intros Na Ka Fb Kb.
  pose proof (pow2_pos 1074 ltac:(lia)) as P.
  rewrite (key_finite (Prim2SF 1) eq_refl), scaled_1 in *.
  destruct (SFfinite (Prim2SF a)) eqn:Fa.
  - rewrite (key_finite _ Fa) in Ka.
    destruct (mul_bounds a b 1 Fa Fb eq_refl ltac:(lia) ltac:(lia)) as (N & L & _).
    split; [exact N|].
    rewrite (key_finite (Prim2SF 1) eq_refl), scaled_1 in L. apply L. nia.
  - pose proof (key_sign _ (Prim2SF_valid a) ltac:(lia)) as Sa.
    pose proof (key_sign _ (Prim2SF_valid b)
                  ltac:(rewrite (key_finite _ Fb); lia)) as Sb.
    apply not_nan_numeric in Na.
    rewrite is_nan_numeric, mul_spec. unfold SF64mul, SFmul.
    destruct (Prim2SF a) as [sa | sa | | sa ma ea]; try discriminate.
    destruct (Prim2SF b) as [sb | sb | | sb mb eb]; try discriminate;
      cbn [scaled] in Kb; [lia|].
    subst. cbn [xorb numeric negb key]. split; [reflexivity|]. pose proof INF_pos.
    pose proof (scaled_bound (Prim2SF 1) eq_refl). rewrite scaled_1 in *. lia.
Qed.

Lemma infinity_mul (b : float) :
  SFfinite (Prim2SF b) = true -> 2 ^ 1074 <= scaled (Prim2SF b) ->
  (infinity * b)%float = infinity.
Proof.
  intros Fb Kb. pose proof (pow2_pos 1074 ltac:(lia)) as P.
  pose proof (key_sign _ (Prim2SF_valid b) ltac:(rewrite (key_finite _ Fb); lia)) as Sb.
  apply Prim2SF_inj. rewrite mul_spec. change (Prim2SF infinity) with (S754_infinity false).
  unfold SF64mul, SFmul.
  destruct (Prim2SF b) as [sb | sb | | sb mb eb]; try discriminate;
    cbn [scaled] in Kb; [lia|].
  subst. reflexivity.
Qed.

Section Factorials.
Variable n : nat.
Hypothesis counter : Z.of_nat n < 2 ^ 53.

(** [factorial(n)] is a number of 1 at the least, or [Infinity]. *)
Lemma factorial_at_least_one :
  is_nan (factorial n) = false /\ key (Prim2SF 1) <= key (Prim2SF (factorial n)).
Proof.
  unfold factorial. destruct (n <=? 1)%nat; [split; [reflexivity | lia]|].
  apply (fold_left_invariant
           (fun r => is_nan r = false /\ key (Prim2SF 1) <= key (Prim2SF r))).
  - intros r i [Nr Kr] Hi. apply in_seq in Hi.
    destruct (of_nat_positive i ltac:(lia) ltac:(lia)) as [F S].
    apply mul_at_least_one; assumption.
  - split; [reflexivity | lia].
Qed.

(** From 171 on, [factorial(n)] is [Infinity]. *)
Lemma factorial_overflow : (171 <= n)%nat -> factorial n = infinity.
Proof.
  intros H. unfold factorial.
  destruct (Nat.leb_spec n 1); [lia|].
  replace (n - 1)%nat with (170 + (n - 171))%nat by lia.
  rewrite seq_app, fold_left_app.
  assert (E : fold_left (fun result i => (result * Number.of_nat i)%float)
                (seq 2 170) 1%float = infinity) by (vm_compute; reflexivity).
  rewrite E.
  apply (fold_left_invariant (fun r => r = infinity)); [| reflexivity].
  intros r i -> Hi. apply in_seq in Hi.
  destruct (of_nat_positive i ltac:(lia) ltac:(lia)) as [F S].
  apply infinity_mul; assumption.
Qed.
End Factorials.

(** From degree 171 on (172 control points, 170 knots) no
    [binomial(n, k)] is a finite number any more: [factorial(n)] has
    overflowed, and the quotient is [Infinity] or NaN. *)
Theorem binomial_overflow (n k : nat) :
  (171 <= n)%nat -> Z.of_nat n < 2 ^ 53 -> (k <= n)%nat ->
  binomial n k = infinity \/ is_nan (binomial n k) = true.
Proof.
  intros Hn Bn Hk. unfold binomial. rewrite (factorial_overflow n Bn Hn).
  destruct (factorial_at_least_one k ltac:(lia)) as [Nk Kk].
  destruct (factorial_at_least_one (n - k) ltac:(lia)) as [Nd Kd].
  set (fk := factorial k) in *. set (fd := factorial (n - k)) in *.
  pose proof (pow2_pos 1074 ltac:(lia)) as P.
  rewrite (key_finite (Prim2SF 1) eq_refl), scaled_1 in *.
  assert (D : is_nan (fk * fd) = false /\ 0 < key (Prim2SF (fk * fd))).
  { destruct (SFfinite (Prim2SF fd)) eqn:Fd.
    - rewrite (key_finite _ Fd) in Kd.
      destruct (mul_at_least_one fk fd Nk
                  ltac:(rewrite (key_finite (Prim2SF 1) eq_refl), scaled_1; exact Kk)
                  Fd Kd) as [N K].
      rewrite (key_finite (Prim2SF 1) eq_refl), scaled_1 in K. split; [exact N | lia].
    - pose proof (key_sign _ (Prim2SF_valid fd) ltac:(lia)) as Sd.
      pose proof (key_sign _ (Prim2SF_valid fk) ltac:(lia)) as Sk.
      apply not_nan_numeric in Nk, Nd.
      rewrite is_nan_numeric, mul_spec. unfold SF64mul, SFmul.
      destruct (Prim2SF fd) as [sd | sd | | sd md ed]; try discriminate.
      destruct (Prim2SF fk) as [sk | sk | | sk mk ek]; try discriminate;
        cbn [key scaled] in Kk; try lia; subst; cbn [xorb numeric negb key];
        pose proof INF_pos; split; (reflexivity || lia). }
  destruct D as [ND KD].
  pose proof (key_sign _ (Prim2SF_valid (fk * fd)) ltac:(lia)) as SD.
  apply not_nan_numeric in ND.
  destruct (Prim2SF (fk * fd)) as [s | s | | s m e] eqn:E;
    try discriminate; cbn [key scaled] in KD; try lia; subst s.
  - right. rewrite is_nan_numeric, div_spec, E. reflexivity.
  - left. apply Prim2SF_inj. rewrite div_spec, E. reflexivity.
Qed.

Lemma binomial_overflow_witness :
  binomial 171 1 = infinity \/ is_nan (binomial 171 1) = true.
Proof.
  apply (binomial_overflow 171 1); [lia | vm_compute; reflexivity | lia].
Defined.

(** ** A random point of a box lies in the box *)

(** The offsets [0.20 .. 0.79] are finite, a fifth at the least and
    1 at the most. *)
Lemma offset_facts (j : Z) :
  20 <= j <= 79 ->
  SFfinite (Prim2SF (Number.of_Z j / 100)) = true
  /\ 2 ^ 1074 <= 5 * scaled (Prim2SF (Number.of_Z j / 100))
  /\ scaled (Prim2SF (Number.of_Z j / 100)) <= 2 ^ 1074.
Proof.
  intros B.
  pose proof (hundredths
                (fun f => SFfinite (Prim2SF f)
                          && (2 ^ 1074 <=? 5 * scaled (Prim2SF f))
                          && (scaled (Prim2SF f) <=? 2 ^ 1074)) 20 60
                ltac:(vm_compute; reflexivity) j ltac:(lia)) as H.
  cbv beta in H. apply andb_true_iff in H as [H H3]. apply andb_true_iff in H as [H1 H2].
  apply Z.leb_le in H2, H3. auto.
Qed.

(** One coordinate of [getRandomBoxPoint], for an integer corner and an
    integer size of 5 at the least. *)
Lemma offset_inside (x w : float) (X W j : Z) :
  Number.toInteger x = Some X -> Number.toInteger w = Some W ->
  5 <= W -> Z.abs X + W < 2 ^ 52 -> 20 <= j <= 79 ->
  (x <? x + w * (Number.of_Z j / 100))%float = true
  /\ (x + w * (Number.of_Z j / 100) <=? x + w)%float = true.
Proof.
  intros Hx Hw W5 B Bj.
  assert (B52 : 2 ^ 52 = 4503599627370496) by reflexivity.
  assert (B53 : 2 ^ 53 = 9007199254740992) by reflexivity.
  destruct (offset_facts j Bj) as (Fo & Lo & Uo).
  set (off := (Number.of_Z j / 100)%float) in *.
  destruct (toInteger_scaled _ _ Hx) as [Fx Sx].
  destruct (toInteger_scaled _ _ Hw) as [Fw Sw].
  pose proof (pow2_pos 1074 ltac:(lia)) as PK.
  pose proof scaled_1 as S1.
  set (K := 2 ^ 1074) in *.
  (* the product *)
  destruct (mul_bounds w off 1 Fw Fo eq_refl ltac:(nia) ltac:(lia)) as (Np & Lp & _).
  destruct (mul_bounds w off w Fw Fo Fw ltac:(nia) ltac:(lia)) as (_ & _ & Up).
  fold K in Lp, Up.
  assert (Lp' : key (Prim2SF 1) <= key (Prim2SF (w * off))) by (apply Lp; nia).
  assert (Up' : key (Prim2SF (w * off)) <= key (Prim2SF w)) by (apply Up; nia).
  clear Lp Up.
  rewrite (key_finite (Prim2SF 1) eq_refl), S1 in Lp'. rewrite (key_finite _ Fw), Sw in Up'.
  pose proof (scaled_bound _ (Prim2SF_valid w)) as Bw. rewrite Sw in Bw.
  assert (Fp : SFfinite (Prim2SF (w * off)) = true).
  { apply finite_of_key; [apply not_nan_numeric; exact Np | lia]. }
  rewrite (key_finite _ Fp) in Lp', Up'.
  (* the sum against [x + 1] and against [x + w] *)
  destruct (toInteger_scaled _ _ (toInteger_of_Z (X + 1) ltac:(lia))) as [F1 S1'].
  pose proof (add_integers _ _ _ _ Hx Hw ltac:(lia)) as Hxw.
  destruct (toInteger_scaled _ _ Hxw) as [F2 S2].
  fold K in S1', S2, Sx.
  destruct (add_bounds x (w * off) (Number.of_Z (X + 1)) Fx Fp F1) as (Nv & Lv & _).
  destruct (add_bounds x (w * off) (x + w) Fx Fp F2) as (_ & _ & Uv).
  specialize (Lv ltac:(lia)). specialize (Uv ltac:(lia)).
  rewrite (key_finite _ F1), S1' in Lv. 
  pose proof (integer_not_nan _ _ Hx) as Nx. pose proof (integer_not_nan _ _ Hxw) as Nxw.
  split.
  - rewrite (ltb_key _ _ Nx Nv), (key_finite _ Fx), Sx. apply Z.ltb_lt. lia.
  - rewrite (leb_key _ _ Nv Nxw). apply Z.leb_le. exact Uv.
Qed.

Section Intersects.
Variable random : nat -> float.

(** A point that [getRandomBoxPoint] draws in a box of integer corner,
    width and height (5 at the least, and below [2^52]) passes
    [intersectsElement] for that box: the test that [move] makes on its
    destination after the movement. *)
Theorem getRandomBoxPoint_intersects (box : BoundingBox)
  (paddingPercentage : option float) (c : nat) (X Y W H : Z) :
  unitDraws random ->
  Number.toInteger (box_x box) = Some X -> Number.toInteger (box_y box) = Some Y ->
  Number.toInteger (box_width box) = Some W ->
  Number.toInteger (box_height box) = Some H ->
  5 <= W -> 5 <= H -> Z.abs X + W < 2 ^ 52 -> Z.abs Y + H < 2 ^ 52 ->
  exists v,
    getRandomBoxPoint random box paddingPercentage c = (Ok v, S (S c))
    /\ intersectsElement v box = true.
Proof.
  intros U HX HY HW HH W5 H5 BX BY.
  destruct (U c) as [X0 X1]. destruct (U (S c)) as [Y0 Y1].
  destruct (sixty_draw _ X0 X1) as (j & Ej & Bj).
  destruct (sixty_draw _ Y0 Y1) as (k & Ek & Bk).
  eexists. split.
  - unfold getRandomBoxPoint, bind, Math_random, ret. cbv beta iota zeta.
    rewrite Ej, Ek. reflexivity.
  - unfold intersectsElement. cbn [Vector.x Vector.y].
    destruct (offset_inside _ _ X W j HX HW W5 BX Bj) as [A1 A2].
    destruct (offset_inside _ _ Y H k HY HH H5 BY Bk) as [A3 A4].
    rewrite A1, A2, A3, A4. reflexivity.
Qed.
End Intersects.

Lemma getRandomBoxPoint_intersects_witness :
  exists v,
    getRandomBoxPoint Sample.draws
      {| box_x := 100; box_y := 200; box_width := 80; box_height := 24 |} None 0%nat
    = (Ok v, 2%nat)
    /\ intersectsElement v
         {| box_x := 100; box_y := 200; box_width := 80; box_height := 24 |} = true.
Proof.
  apply (getRandomBoxPoint_intersects Sample.draws
           {| box_x := 100; box_y := 200; box_width := 80; box_height := 24 |} None 0%nat
           100 200 80 24);
    [exact draws_unit | first [vm_compute; reflexivity | vm_compute; discriminate] .. ].
Defined.

(** ** The generated offsets as boundaries *)


Section Generated.
Variable Math_pow : float -> float -> float.
Variables Math_log Math_cos Math_sin : float -> float.
Variable random : nat -> float.
Variable Date_now : float.

End Generated.


